(** * Klax 3D: the match simulation engine of [games/klax-3d/js/game.js]

    A shallow embedding of the [Game] class (and of the [SeededRNG] it owns)
    together with the properties its specification states about it.

    Conventions of the embedding.
    - JavaScript numbers that only ever hold integers (score, level, lives,
      counters, colour indices, columns, rows) are [Z]; the ones that hold
      fractions (tile positions, tile speed, the random stream) are binary64
      [float]s, computed with the kernel's IEEE operations.
    - Arrays are lists; [null] in a well cell is [None].
    - A method is a computation in the monad [M]: it threads the engine's
      fields and may end abruptly with a [TypeError], in which case, as in
      JavaScript, the mutations made so far stay in the object. *)

From Stdlib Require Import ZArith String Bool Lia.
From Stdlib Require Import Floats Uint63.
From stdpp Require Import base tactics option list.

Set Warnings "-inexact-float".
Set Default Proof Using "Type".
Open Scope Z_scope.

(* ===================================================================== *)
(** ** JavaScript number operations used by the engine *)
(* ===================================================================== *)

Module JS.

(** An integer read as a number: the nearest binary64 value. *)
Definition of_Z (z : Z) : float :=
  SF2Prim (binary_normalize prec emax z 0 false).

(** [Math.floor(x)] as an integer, for a finite [x]: the floor of
    [m * 2 ^ e], and 0 for the two zeros.  On NaN and the infinities
    [Math.floor] returns its argument, which is no integer and has no
    counterpart here: the 0 given for them is not the code's value.  The
    engine floors only what its generator draws, and a draw is finite in
    every state reached from a finite seed ([finiteSeed], [reachable] and
    the lemma [reachable_draws_finite] below); engines created with a NaN,
    infinite or overflowing seed are outside this model. *)
Definition floor (x : float) : Z :=
  match Prim2SF x with
  | S754_finite s m e =>
      let v := if s then Z.neg m else Z.pos m in
      if 0 <=? e then v * 2 ^ e else v / 2 ^ (- e)
  | S754_zero _ => 0
  | S754_infinity _ | S754_nan => 0
  end.

(** [x % y]: the remainder of the truncated division, exact, with the sign
    of the dividend. *)
Definition rem (x y : float) : float :=
  match Prim2SF x, Prim2SF y with
  | S754_nan, _ | _, S754_nan | S754_infinity _, _ | _, S754_zero _ => nan
  | S754_zero _, _ | _, S754_infinity _ => x
  | S754_finite sx mx ex, S754_finite _ my ey =>
      let e := Z.min ex ey in
      let r := Z.rem (Z.pos mx * 2 ^ (ex - e)) (Z.pos my * 2 ^ (ey - e)) in
      SF2Prim (binary_normalize prec emax (if sx then - r else r) e sx)
  end.

(** [Math.min(x, y)]. *)
Definition min (x y : float) : float :=
  if is_nan x then x
  else if is_nan y then y
  else if (x <? y)%float then x
  else if (y <? x)%float then y
  else if get_sign x then x else y.

(** [arr[i]] for a number [i]: [undefined] (here [None]) unless [i] is an
    index of the array. *)
Definition index {A : Type} (arr : list A) (i : Z) : option A :=
  if i <? 0 then None else arr !! Z.to_nat i.

(** [arr.length]. *)
Definition len {A : Type} (arr : list A) : Z := Z.of_nat (length arr).

(** [arr.splice(start, count)]: what is left of [arr]. *)
Definition splice_rest {A : Type} (arr : list A) (start count : Z) : list A :=
  take (Z.to_nat start) arr ++ drop (Z.to_nat (start + count)) arr.

(** [arr.splice(start, count)]: the removed elements, which it returns. *)
Definition splice_removed {A : Type} (arr : list A) (start count : Z) : list A :=
  take (Z.to_nat count) (drop (Z.to_nat start) arr).

(** [arr[i] = v] for an index [i] of the array.  (Outside the array the
    list is left as it is: the engine writes only cells it has just read.) *)
Definition set {A : Type} (arr : list A) (i : Z) (v : A) : list A :=
  if i <? 0 then arr else <[Z.to_nat i := v]> arr.

(** [for (x of xs) body(x)] over a loop state. *)
Definition for_each {A S : Type} (xs : list A) (body : A -> S -> S) (s : S) : S :=
  fold_left (fun s x => body x s) xs s.

(** [while (cond(n)) n++], from [n]; [fuel] bounds the number of rounds. *)
Fixpoint count_while (fuel : nat) (cond : Z -> bool) (n : Z) : Z :=
  match fuel with
  | O => n
  | S fuel' => if cond n then count_while fuel' cond (n + 1) else n
  end.

End JS.

(* ===================================================================== *)
(** ** Constants *)
(* ===================================================================== *)

Definition WELL_COLS : Z := 5.
Definition WELL_ROWS : Z := 5.
Definition RACK_CAPACITY : Z := 5.
Definition CONVEYOR_LENGTH : float := 10.
Definition INITIAL_LIVES : Z := 3.
Definition LEVEL_UP_THRESHOLD : Z := 1000.
Definition BASE_SPAWN_INTERVAL : Z := 120.
Definition MIN_SPAWN_INTERVAL : Z := 30.
Definition BASE_TILE_SPEED : float := 0.15.
Definition MAX_TILE_SPEED : float := 0.4.
(** [COLORS.length]: the palette has six colours. *)
Definition COLORS_length : Z := 6.

(* ===================================================================== *)
(** ** Data model *)
(* ===================================================================== *)

(** A tile in transit: [{ id, position, colorIndex, column }]. *)
Record Tile : Type := mkTile {
  tile_id : Z;
  tile_position : float;
  tile_colorIndex : Z;
  tile_column : Z
}.

(** The [type] tag of a match object. *)
Variant MatchType : Type :=
  | horizontal | vertical | diagonal_dr | diagonal_dl.

(** A match found in the well: [{ type, tiles, colorIndex }], where [tiles]
    lists the matched cells as [[col, row]] pairs. *)
Record WellMatch : Type := mkWellMatch {
  match_type : MatchType;
  match_tiles : list (Z * Z);
  match_colorIndex : Z
}.

(** The entries of a match event's [matches] array: a well match, or the
    object [{ type: 'rack', tiles: matched, colorIndex }] whose [tiles] are
    the colour indices spliced out of the rack. *)
Variant MatchInfo : Type :=
  | InWell (m : WellMatch)
  | InRack (tiles : list Z) (colorIndex : Z).

(** Events, one constructor per entry of [EVENTS].  A [TILE_SPAWN] event
    holds the tile object itself, which the conveyor shares and whose
    [position] [updateConveyor] keeps advancing: the event records the
    tile's immutable fields, and the position is the conveyor entry's. *)
Variant Event : Type :=
  | CATCH (colorIndex : Z)
  | DROP (column colorIndex : Z)
  | MATCH (matches : list MatchInfo) (points : Z)
  | LIFE_LOST (lives : Z) (reason : string)
  | LEVEL_UP (level : Z)
  | GAME_OVER (score level : Z)
  | TILE_SPAWN (id colorIndex column : Z)
  | TILE_FALL (column colorIndex : Z).

(** A well cell: a colour index or [null]. *)
Abbreviation Cell := (option Z).
(** The well, [well[col][row]]: row 0 is the top, row [WELL_ROWS - 1] the
    bottom. *)
Abbreviation Well := (list (list Cell)).

Record SeededRNG : Type := mkRNG { seed : float }.

Record Game : Type := mkGame {
  rng : SeededRNG;
  score : Z;
  level : Z;
  lives : Z;
  paused : bool;
  gameOver : bool;
  conveyorTiles : list Tile;
  nextTileId : Z;
  spawnTimer : Z;
  catcherColumn : Z;
  rack : list Z;
  well : Well;
  events : list Event;
  frameCount : Z
}.

(** Field assignments [this.f = v]. *)
Definition set_rng (v : SeededRNG) (s : Game) : Game :=
  mkGame v (score s) (level s) (lives s) (paused s) (gameOver s)
    (conveyorTiles s) (nextTileId s) (spawnTimer s) (catcherColumn s)
    (rack s) (well s) (events s) (frameCount s).
Definition set_score (v : Z) (s : Game) : Game :=
  mkGame (rng s) v (level s) (lives s) (paused s) (gameOver s)
    (conveyorTiles s) (nextTileId s) (spawnTimer s) (catcherColumn s)
    (rack s) (well s) (events s) (frameCount s).
Definition set_level (v : Z) (s : Game) : Game :=
  mkGame (rng s) (score s) v (lives s) (paused s) (gameOver s)
    (conveyorTiles s) (nextTileId s) (spawnTimer s) (catcherColumn s)
    (rack s) (well s) (events s) (frameCount s).
Definition set_lives (v : Z) (s : Game) : Game :=
  mkGame (rng s) (score s) (level s) v (paused s) (gameOver s)
    (conveyorTiles s) (nextTileId s) (spawnTimer s) (catcherColumn s)
    (rack s) (well s) (events s) (frameCount s).
Definition set_paused (v : bool) (s : Game) : Game :=
  mkGame (rng s) (score s) (level s) (lives s) v (gameOver s)
    (conveyorTiles s) (nextTileId s) (spawnTimer s) (catcherColumn s)
    (rack s) (well s) (events s) (frameCount s).
Definition set_gameOver (v : bool) (s : Game) : Game :=
  mkGame (rng s) (score s) (level s) (lives s) (paused s) v
    (conveyorTiles s) (nextTileId s) (spawnTimer s) (catcherColumn s)
    (rack s) (well s) (events s) (frameCount s).
Definition set_conveyorTiles (v : list Tile) (s : Game) : Game :=
  mkGame (rng s) (score s) (level s) (lives s) (paused s) (gameOver s)
    v (nextTileId s) (spawnTimer s) (catcherColumn s)
    (rack s) (well s) (events s) (frameCount s).
Definition set_nextTileId (v : Z) (s : Game) : Game :=
  mkGame (rng s) (score s) (level s) (lives s) (paused s) (gameOver s)
    (conveyorTiles s) v (spawnTimer s) (catcherColumn s)
    (rack s) (well s) (events s) (frameCount s).
Definition set_spawnTimer (v : Z) (s : Game) : Game :=
  mkGame (rng s) (score s) (level s) (lives s) (paused s) (gameOver s)
    (conveyorTiles s) (nextTileId s) v (catcherColumn s)
    (rack s) (well s) (events s) (frameCount s).
Definition set_catcherColumn (v : Z) (s : Game) : Game :=
  mkGame (rng s) (score s) (level s) (lives s) (paused s) (gameOver s)
    (conveyorTiles s) (nextTileId s) (spawnTimer s) v
    (rack s) (well s) (events s) (frameCount s).
Definition set_rack (v : list Z) (s : Game) : Game :=
  mkGame (rng s) (score s) (level s) (lives s) (paused s) (gameOver s)
    (conveyorTiles s) (nextTileId s) (spawnTimer s) (catcherColumn s)
    v (well s) (events s) (frameCount s).
Definition set_well (v : Well) (s : Game) : Game :=
  mkGame (rng s) (score s) (level s) (lives s) (paused s) (gameOver s)
    (conveyorTiles s) (nextTileId s) (spawnTimer s) (catcherColumn s)
    (rack s) v (events s) (frameCount s).
Definition set_events (v : list Event) (s : Game) : Game :=
  mkGame (rng s) (score s) (level s) (lives s) (paused s) (gameOver s)
    (conveyorTiles s) (nextTileId s) (spawnTimer s) (catcherColumn s)
    (rack s) (well s) v (frameCount s).
Definition set_frameCount (v : Z) (s : Game) : Game :=
  mkGame (rng s) (score s) (level s) (lives s) (paused s) (gameOver s)
    (conveyorTiles s) (nextTileId s) (spawnTimer s) (catcherColumn s)
    (rack s) (well s) (events s) v.

(* ===================================================================== *)
(** ** The method monad: state, and abrupt completion by a TypeError *)
(* ===================================================================== *)

Variant Completion (A : Type) : Type :=
  | Normal (a : A)
  | TypeError.
Arguments Normal {A} a.
Arguments TypeError {A}.

Definition M (A : Type) : Type := Game -> Completion A * Game.

Definition ret {A : Type} (a : A) : M A := fun s => (Normal a, s).

Definition bind {A B : Type} (m : M A) (f : A -> M B) : M B :=
  fun s =>
    match m s with
    | (Normal a, s') => f a s'
    | (TypeError, s') => (TypeError, s')
    end.

Definition get : M Game := fun s => (Normal s, s).
Definition modify (f : Game -> Game) : M unit := fun s => (Normal tt, f s).
Definition throw {A : Type} : M A := fun s => (TypeError, s).

(** The object after running a method, and the method's completion. *)
Definition exec {A : Type} (m : M A) (s : Game) : Game := snd (m s).
Definition completion {A : Type} (m : M A) (s : Game) : Completion A := fst (m s).

Declare Scope method_scope.
Delimit Scope method_scope with method.
Bind Scope method_scope with M.
Notation "x <- c1 ;; c2" := (bind c1 (fun x => c2))
  (at level 20, c1 at level 99, c2 at level 200, only parsing) : method_scope.
Notation "c1 ;; c2" := (bind c1 (fun _ => c2))
  (at level 100, c2 at level 200, only parsing, right associativity) : method_scope.
Open Scope method_scope.

(** [this.events.push(e)]. *)
Definition emit (e : Event) : M unit :=
  modify (fun s => set_events (events s ++ [e]) s).

(* ===================================================================== *)
(** ** class SeededRNG *)
(* ===================================================================== *)

(** [next()]: advance the seed, return [seed / 233280]. *)
Definition SeededRNG_next (r : SeededRNG) : float * SeededRNG :=
  let seed' := JS.rem (seed r * 9301 + 49297)%float 233280%float in
  ((seed' / 233280)%float, mkRNG seed').

(** [nextInt(min, max)]. *)
Definition SeededRNG_nextInt (min max : Z) (r : SeededRNG) : Z * SeededRNG :=
  let '(x, r') := SeededRNG_next r in
  (JS.floor (x * JS.of_Z (max - min + 1))%float + min, r').

(** [this.rng.nextInt(min, max)] from inside the engine. *)
Definition rng_nextInt (min max : Z) : M Z :=
  fun s =>
    let '(v, r') := SeededRNG_nextInt min max (rng s) in
    (Normal v, set_rng r' s).

(* ===================================================================== *)
(** ** class Game *)
(* ===================================================================== *)

(** *** Difficulty scaling *)

Definition getSpawnInterval (s : Game) : Z :=
  let interval := BASE_SPAWN_INTERVAL - (level s - 1) * 8 in
  Z.max interval MIN_SPAWN_INTERVAL.

Definition getTileSpeed (s : Game) : float :=
  let speed := (BASE_TILE_SPEED + JS.of_Z (level s - 1) * 0.02)%float in
  JS.min speed MAX_TILE_SPEED.

Definition getNumColors (s : Game) : Z :=
  Z.min (3 + level s / 3) COLORS_length.

(** *** reset and the constructor *)

(** The fields [reset()] assigns; the random source is left as it is. *)
Definition initial (r : SeededRNG) : Game :=
  {| rng := r;
     score := 0;
     level := 1;
     lives := INITIAL_LIVES;
     paused := false;
     gameOver := false;
     conveyorTiles := [];
     nextTileId := 0;
     spawnTimer := 0;
     catcherColumn := 2;
     rack := [];
     well := replicate (Z.to_nat WELL_COLS) (replicate (Z.to_nat WELL_ROWS) None);
     events := [];
     frameCount := 0 |}.

Definition reset : M unit := modify (fun s => initial (rng s)).

(** [new Game(seed)]. *)
Definition newGame (seed : float) : Game := initial (mkRNG seed).

(** *** Level and lives *)

Definition checkLevelUp : M unit :=
  s <- get ;;
  let newLevel := score s / LEVEL_UP_THRESHOLD + 1 in
  if level s <? newLevel then
    modify (set_level newLevel) ;;
    s <- get ;;
    emit (LEVEL_UP (level s))
  else ret tt.

Definition loseLife (reason : string) : M unit :=
  modify (fun s => set_lives (lives s - 1) s) ;;
  s <- get ;;
  emit (LIFE_LOST (lives s) reason) ;;
  s <- get ;;
  if lives s <=? 0 then
    modify (set_gameOver true) ;;
    s <- get ;;
    emit (GAME_OVER (score s) (level s))
  else ret tt.

(** *** Scoring table *)

(** [if (size === 3) 100 else if (size === 4) 300 else if (size >= 5) 600],
    and nothing otherwise. *)
Definition matchPoints (size : Z) : Z :=
  if size =? 3 then 100
  else if size =? 4 then 300
  else if 5 <=? size then 600
  else 0.

(** *** Rack matches *)

(** The [while] loop of [checkRackMatches]: the length of the run of
    [color] that starts at [start]. *)
Definition rackRunLength (rack : list Z) (start color : Z) : Z :=
  JS.count_while (length rack)
    (fun n => (start + n <? JS.len rack)
              && bool_decide (JS.index rack (start + n) = Some color))
    1.

(** The [for] loop of [checkRackMatches] over the given start positions, up
    to the first run of three or more: its start, length and colour. *)
Fixpoint firstRackRun (rack : list Z) (starts : list Z) : option (Z * Z * Z) :=
  match starts with
  | [] => None
  | start :: starts' =>
      match JS.index rack start with
      | None => None
      | Some color =>
          let runLen := rackRunLength rack start color in
          if 3 <=? runLen then Some (start, runLen, color)
          else firstRackRun rack starts'
      end
  end.

(** [checkRackMatches()]; [fuel] bounds the depth of the recursion. *)
Fixpoint checkRackMatches_rec (fuel : nat) : M unit :=
  match fuel with
  | O => ret tt
  | S fuel' =>
      s <- get ;;
      if JS.len (rack s) <? 3 then ret tt
      else
        match firstRackRun (rack s) (seqZ 0 (JS.len (rack s) - 3 + 1)) with
        | None => ret tt
        | Some (start, runLen, color) =>
            let matched := JS.splice_removed (rack s) start runLen in
            modify (set_rack (JS.splice_rest (rack s) start runLen)) ;;
            let points := matchPoints runLen in
            modify (fun s => set_score (score s + points) s) ;;
            emit (MATCH [InRack matched color] points) ;;
            checkLevelUp ;;
            checkRackMatches_rec fuel'
        end
  end.

(** Every round of the recursion splices at least three entries out, so
    the length of the rack bounds its depth. *)
Definition checkRackMatches : M unit :=
  s <- get ;;
  checkRackMatches_rec (S (length (rack s))).

(** *** The cells of the well *)

(** [this.well[col][row]].  The grid is created 5 x 5 by [reset] and never
    resized; the engine reads inside it only (but for the column of a
    falling tile, see [dropTileIntoWell]), and a read outside it stands for
    [null] here. *)
Definition cellAt (w : Well) (col row : Z) : Cell :=
  match JS.index w col with
  | Some column => default None (JS.index column row)
  | None => None
  end.

(** [this.well[col][row] = v], for a cell of the grid. *)
Definition setCell (w : Well) (col row : Z) (v : Cell) : Well :=
  match JS.index w col with
  | Some column => JS.set w col (JS.set column row v)
  | None => w
  end.

(** *** Routing a tile into the well *)

(** The [for (row = WELL_ROWS - 1; row >= 0; row--)] search of
    [dropTileIntoWell], over the given rows: the first one whose cell is
    [null]. *)
Fixpoint firstEmptyRow (column : list Cell) (rows : list Z) : option Z :=
  match rows with
  | [] => None
  | row :: rows' =>
      match JS.index column row with
      | Some None => Some row
      | _ => firstEmptyRow column rows'
      end
  end.

(** [dropTileIntoWell(col, colorIndex)].  When [col] is no column of the
    well, [this.well[col]] is [undefined] and reading its row throws. *)
Definition dropTileIntoWell (col colorIndex : Z) : M unit :=
  s <- get ;;
  match JS.index (well s) col with
  | None => throw
  | Some column =>
      match firstEmptyRow column (reverse (seqZ 0 WELL_ROWS)) with
      | Some row =>
          modify (set_well (setCell (well s) col row (Some colorIndex)))
      | None => loseLife "Well column full"
      end
  end.

Definition handleTileReachedEnd (tile : Tile) : M unit :=
  s <- get ;;
  if tile_column tile =? catcherColumn s then
    if JS.len (rack s) <? RACK_CAPACITY then
      modify (fun s => set_rack (rack s ++ [tile_colorIndex tile]) s) ;;
      emit (CATCH (tile_colorIndex tile)) ;;
      checkRackMatches
    else loseLife "Rack overflow"
  else
    dropTileIntoWell (tile_column tile) (tile_colorIndex tile) ;;
    emit (TILE_FALL (tile_column tile) (tile_colorIndex tile)).

(** *** Player actions *)

Definition moveLeft : M bool :=
  s <- get ;;
  if negb (paused s) && negb (gameOver s) && (0 <? catcherColumn s) then
    modify (set_catcherColumn (catcherColumn s - 1)) ;;
    ret true
  else ret false.

Definition moveRight : M bool :=
  s <- get ;;
  if negb (paused s) && negb (gameOver s) && (catcherColumn s <? WELL_COLS - 1) then
    modify (set_catcherColumn (catcherColumn s + 1)) ;;
    ret true
  else ret false.

(** ([rack.shift()] is reached with a rack that is not empty.) *)
Definition dropFromRack : M bool :=
  s <- get ;;
  if negb (paused s) && negb (gameOver s) && (0 <? JS.len (rack s)) then
    match rack s with
    | [] => ret false
    | colorIndex :: rest =>
        modify (set_rack rest) ;;
        dropTileIntoWell (catcherColumn s) colorIndex ;;
        s' <- get ;;
        emit (DROP (catcherColumn s') colorIndex) ;;
        ret true
    end
  else ret false.

Definition togglePause : M unit :=
  s <- get ;;
  if negb (gameOver s) then modify (set_paused (negb (paused s)))
  else ret tt.

(** *** Getters *)

(** [getEvents()] returns a copy of the buffer. *)
Definition getEvents : M (list Event) :=
  s <- get ;;
  ret (events s).

(** *** Match detection in the well *)

(** The [tiles] array built by [for (i = 0; i < length; i++) tiles.push(..)]. *)
Definition runTiles (runLen : Z) (tileAt : Z -> Z * Z) : list (Z * Z) :=
  tileAt <$> seqZ 0 runLen.

(** The inner loop of the horizontal scan, [for (col; col <= WELL_COLS - 3;
    col++)] on one row: a run that is found moves [col] past its end.
    [fuel] bounds the number of rounds. *)
Fixpoint scanHorizontal (fuel : nat) (w : Well) (row col : Z)
    (matches : list WellMatch) : list WellMatch :=
  match fuel with
  | O => matches
  | S fuel' =>
      if col <=? WELL_COLS - 3 then
        match cellAt w col row with
        | None => scanHorizontal fuel' w row (col + 1) matches
        | Some color =>
            let runLen :=
              JS.count_while (Z.to_nat WELL_COLS)
                (fun n => (col + n <? WELL_COLS)
                          && bool_decide (cellAt w (col + n) row = Some color))
                1 in
            if 3 <=? runLen then
              let tiles := runTiles runLen (fun i => (col + i, row)) in
              scanHorizontal fuel' w row (col + (runLen - 1) + 1)
                (matches ++ [mkWellMatch horizontal tiles color])
            else scanHorizontal fuel' w row (col + 1) matches
        end
      else matches
  end.

(** The inner loop of the vertical scan, on one column. *)
Fixpoint scanVertical (fuel : nat) (w : Well) (col row : Z)
    (matches : list WellMatch) : list WellMatch :=
  match fuel with
  | O => matches
  | S fuel' =>
      if row <=? WELL_ROWS - 3 then
        match cellAt w col row with
        | None => scanVertical fuel' w col (row + 1) matches
        | Some color =>
            let runLen :=
              JS.count_while (Z.to_nat WELL_ROWS)
                (fun n => (row + n <? WELL_ROWS)
                          && bool_decide (cellAt w col (row + n) = Some color))
                1 in
            if 3 <=? runLen then
              let tiles := runTiles runLen (fun i => (col, row + i)) in
              scanVertical fuel' w col (row + (runLen - 1) + 1)
                (matches ++ [mkWellMatch vertical tiles color])
            else scanVertical fuel' w col (row + 1) matches
        end
      else matches
  end.

(** The body of the down-right diagonal scan at one cell. *)
Definition scanDiagonalDR (w : Well) (col row : Z)
    (matches : list WellMatch) : list WellMatch :=
  match cellAt w col row with
  | None => matches
  | Some color =>
      let runLen :=
        JS.count_while (Z.to_nat WELL_COLS)
          (fun n => (col + n <? WELL_COLS) && (row + n <? WELL_ROWS)
                    && bool_decide (cellAt w (col + n) (row + n) = Some color))
          1 in
      if 3 <=? runLen then
        let tiles := runTiles runLen (fun i => (col + i, row + i)) in
        matches ++ [mkWellMatch diagonal_dr tiles color]
      else matches
  end.

(** The body of the down-left diagonal scan at one cell. *)
Definition scanDiagonalDL (w : Well) (col row : Z)
    (matches : list WellMatch) : list WellMatch :=
  match cellAt w col row with
  | None => matches
  | Some color =>
      let runLen :=
        JS.count_while (Z.to_nat WELL_COLS)
          (fun n => (0 <=? col - n) && (row + n <? WELL_ROWS)
                    && bool_decide (cellAt w (col - n) (row + n) = Some color))
          1 in
      if 3 <=? runLen then
        let tiles := runTiles runLen (fun i => (col - i, row + i)) in
        matches ++ [mkWellMatch diagonal_dl tiles color]
      else matches
  end.

(** [findMatches()]: the four scans, in the order of the source. *)
Definition findMatches (w : Well) : list WellMatch :=
  let matches := [] in
  let matches :=
    JS.for_each (seqZ 0 WELL_ROWS)
      (fun row matches => scanHorizontal (Z.to_nat WELL_COLS) w row 0 matches)
      matches in
  let matches :=
    JS.for_each (seqZ 0 WELL_COLS)
      (fun col matches => scanVertical (Z.to_nat WELL_ROWS) w col 0 matches)
      matches in
  let matches :=
    JS.for_each (seqZ 0 (WELL_COLS - 3 + 1))
      (fun col matches =>
         JS.for_each (seqZ 0 (WELL_ROWS - 3 + 1))
           (fun row matches => scanDiagonalDR w col row matches) matches)
      matches in
  let matches :=
    JS.for_each (seqZ 2 (WELL_COLS - 2))
      (fun col matches =>
         JS.for_each (seqZ 0 (WELL_ROWS - 3 + 1))
           (fun row matches => scanDiagonalDL w col row matches) matches)
      matches in
  matches.

(** *** Gravity *)

(** The first loop of [applyGravity] on one column: the colours of its
    non-null cells, from the bottom row up. *)
Definition compactColumn (column : list Cell) : list Z :=
  JS.for_each (reverse (seqZ 0 WELL_ROWS))
    (fun row compacted =>
       match JS.index column row with
       | Some (Some c) => compacted ++ [c]
       | _ => compacted
       end)
    [].

(** The second loop: the column rebuilt from [compacted]. *)
Definition rebuildColumn (compacted : list Z) (column : list Cell) : list Cell :=
  JS.for_each (seqZ 0 WELL_ROWS)
    (fun row column =>
       let index := WELL_ROWS - 1 - row in
       JS.set column row
         (if index <? JS.len compacted then JS.index compacted index else None))
    column.

Definition applyGravity : M unit :=
  modify (fun s =>
    set_well
      (JS.for_each (seqZ 0 WELL_COLS)
         (fun col w =>
            match JS.index w col with
            | Some column =>
                JS.set w col (rebuildColumn (compactColumn column) column)
            | None => w
            end)
         (well s))
      s).

(** *** Match resolution *)

(** [match.tiles.forEach(([col, row]) => this.well[col][row] = null)]. *)
Definition clearTiles (tiles : list (Z * Z)) (w : Well) : Well :=
  JS.for_each tiles (fun '(col, row) w => setCell w col row None) w.

(** The points of all matches, each scored by its own size. *)
Definition totalPoints (matches : list WellMatch) : Z :=
  JS.for_each matches
    (fun m points => points + matchPoints (JS.len (match_tiles m))) 0.

Definition checkMatches : M unit :=
  s <- get ;;
  let matches := findMatches (well s) in
  if 0 <? JS.len matches then
    modify (fun s =>
      set_well (JS.for_each matches (fun m w => clearTiles (match_tiles m) w) (well s)) s) ;;
    let points := totalPoints matches in
    modify (fun s => set_score (score s + points) s) ;;
    emit (MATCH (InWell <$> matches) points) ;;
    applyGravity ;;
    checkLevelUp
  else ret tt.

(** *** Spawning and the conveyor *)

Definition spawnTile : M unit :=
  s <- get ;;
  let numColors := getNumColors s in
  colorIndex <- rng_nextInt 0 (numColors - 1) ;;
  column <- rng_nextInt 0 (WELL_COLS - 1) ;;
  s <- get ;;
  let tile := mkTile (nextTileId s) 0 colorIndex column in
  modify (fun s => set_nextTileId (nextTileId s + 1) s) ;;
  modify (fun s => set_conveyorTiles (conveyorTiles s ++ [tile]) s) ;;
  emit (TILE_SPAWN (tile_id tile) (tile_colorIndex tile) (tile_column tile)).

Definition updateSpawning : M unit :=
  modify (fun s => set_spawnTimer (spawnTimer s + 1) s) ;;
  s <- get ;;
  let spawnInterval := getSpawnInterval s in
  if spawnInterval <=? spawnTimer s then
    modify (set_spawnTimer 0) ;;
    spawnTile
  else ret tt.

(** The loop of [updateConveyor], [for (i = n - 1; i >= 0; i--)]. *)
Fixpoint updateConveyor_loop (speed : float) (n : nat) : M unit :=
  match n with
  | O => ret tt
  | S i =>
      s <- get ;;
      match conveyorTiles s !! i with
      | None => throw
      | Some tile =>
          let tile :=
            mkTile (tile_id tile) (tile_position tile + speed)%float
              (tile_colorIndex tile) (tile_column tile) in
          modify (set_conveyorTiles (<[i := tile]> (conveyorTiles s))) ;;
          (if (CONVEYOR_LENGTH <=? tile_position tile)%float then
             modify (fun s => set_conveyorTiles (delete i (conveyorTiles s)) s) ;;
             handleTileReachedEnd tile
           else ret tt) ;;
          updateConveyor_loop speed i
      end
  end.

Definition updateConveyor : M unit :=
  s <- get ;;
  let speed := getTileSpeed s in
  updateConveyor_loop speed (length (conveyorTiles s)).

(** *** The tick *)

Definition update : M unit :=
  s <- get ;;
  if paused s || gameOver s then ret tt
  else
    modify (fun s => set_frameCount (frameCount s + 1) s) ;;
    modify (set_events []) ;;
    updateSpawning ;;
    updateConveyor ;;
    checkMatches.

(* ===================================================================== *)
(** ** The public interface and the states it reaches *)
(* ===================================================================== *)

Variant Call : Type :=
  | CallUpdate
  | CallMoveLeft
  | CallMoveRight
  | CallDropFromRack
  | CallTogglePause
  | CallReset.

(** The engine after a public call (whether it returned or threw). *)
Definition perform (c : Call) (s : Game) : Game :=
  match c with
  | CallUpdate => exec update s
  | CallMoveLeft => exec moveLeft s
  | CallMoveRight => exec moveRight s
  | CallDropFromRack => exec dropFromRack s
  | CallTogglePause => exec togglePause s
  | CallReset => exec reset s
  end.

(** The engine after a sequence of public calls. *)
Definition performAll (cs : list Call) (s : Game) : Game :=
  fold_left (fun s c => perform c s) cs s.

(** A seed on which the generator stays on finite numbers: the seed is
    finite and [seed * 9301 + 49297], the first thing [next()] computes,
    does not overflow (of a NaN or infinite seed it is NaN or infinite).
    The next seed is then a remainder by 233280, hence finite and
    smaller than 233280 in size, and so is every later one. *)
Definition finiteSeed (seed : float) : bool :=
  is_finite (seed * 9301 + 49297)%float.

(** The states of an engine created by [new Game(seed)] with such a seed
    and then driven through its public interface. *)
Inductive reachable : Game -> Prop :=
  | reachable_new (seed : float) :
      finiteSeed seed = true -> reachable (newGame seed)
  | reachable_call (c : Call) (s : Game) :
      reachable s -> reachable (perform c s).

(* ===================================================================== *)
(** ** Reasoning about methods *)
(* ===================================================================== *)

(** [wp m Q E s]: run from [s], method [m] either returns a value and
    leaves a state that satisfy [Q], or throws and leaves a state that
    satisfies [E]. *)
Definition wp {A : Type} (m : M A) (Q : A -> Game -> Prop) (E : Game -> Prop)
    (s : Game) : Prop :=
  match m s with
  | (Normal a, s') => Q a s'
  | (TypeError, s') => E s'
  end.

(** [m] keeps [I], however it completes. *)
Definition preserves {A : Type} (I : Game -> Prop) (m : M A) : Prop :=
  forall s, I s -> wp m (fun _ => I) I s.

(* ===================================================================== *)
(** ** The vocabulary of the specification *)
(* ===================================================================== *)

(** [level = floor(score / 1000) + 1]. *)
Definition level_ok (s : Game) : Prop :=
  level s = score s / LEVEL_UP_THRESHOLD + 1.

(** Between a scoring step and [checkLevelUp] the stored level may lag. *)
Definition level_lags (s : Game) : Prop :=
  level s <= score s / LEVEL_UP_THRESHOLD + 1.

(** The grid has [WELL_COLS] columns of [WELL_ROWS] cells. *)
Definition well_shaped (w : Well) : Prop :=
  length w = Z.to_nat WELL_COLS /\
  Forall (fun column => length column = Z.to_nat WELL_ROWS) w.

(** No empty cell lies below a filled cell: the filled cells of every
    column are a suffix that ends at the bottom row. *)
Definition no_floating_cells (w : Well) : Prop :=
  forall col row row',
    0 <= col < WELL_COLS -> 0 <= row -> row < row' -> row' < WELL_ROWS ->
    cellAt w col row <> None -> cellAt w col row' <> None.

(** The same on one column, as a test: empty cells, then filled ones. *)
Fixpoint columnSettled (column : list Cell) : bool :=
  match column with
  | [] => true
  | None :: below => columnSettled below
  | Some _ :: below => forallb (fun c => bool_decide (c <> None)) below
  end.

Definition well_settled (w : Well) : Prop :=
  Forall (fun column => columnSettled column = true) w.

(** The column [col] of the well has no empty cell. *)
Definition column_full (w : Well) (col : Z) : Prop :=
  exists column,
    JS.index w col = Some column /\
    forall row, 0 <= row < WELL_ROWS -> JS.index column row <> Some None.

(** [row] is the lowest (highest-index) empty cell of the column. *)
Definition lowest_empty_row (column : list Cell) (row : Z) : Prop :=
  0 <= row < WELL_ROWS /\
  JS.index column row = Some None /\
  forall row', row < row' < WELL_ROWS -> JS.index column row' <> Some None.

(** The rack holds no three adjacent entries of one colour (hence no
    longer run either). *)
Definition no_rack_run (rack : list Z) : Prop :=
  forall i c,
    JS.index rack i = Some c ->
    JS.index rack (i + 1) = Some c ->
    JS.index rack (i + 2) = Some c ->
    False.

(** The engine is neither paused nor over. *)
Definition running (s : Game) : bool := negb (paused s) && negb (gameOver s).

(** What holds of every state the public interface reaches. *)
Record Inv (s : Game) : Prop := mkInv {
  inv_level : level_ok s;
  inv_shape : well_shaped (well s);
  inv_settled : well_settled (well s);
  inv_catcher : 0 <= catcherColumn s < WELL_COLS;
  inv_rack_length : JS.len (rack s) <= RACK_CAPACITY;
  inv_rack_runs : no_rack_run (rack s)
}.

(** A life was lost between [s] and [s']: one life fewer, the well as it
    was, and a life-lost event with [reason] pushed, followed by the
    game-over event when no life is left, and then by the events [after]. *)
Definition life_lost (reason : string) (after : list Event) (s s' : Game) : Prop :=
  lives s' = lives s - 1 /\
  well s' = well s /\
  events s' =
    events s ++ LIFE_LOST (lives s - 1) reason
      :: (if lives s - 1 <=? 0 then [GAME_OVER (score s) (level s)] else [])
      ++ after.

(** The events a call generates: what it leaves in a buffer that was empty
    when the call started. *)
Definition generatedBy {A : Type} (m : M A) (s : Game) : list Event :=
  events (exec m (set_events [] s)).

(* ===================================================================== *)
(** ** Runs of a line of the well *)
(* ===================================================================== *)

(** A maximal run of a line of [n] cells: [len] cells of [color] from
    [start], with no further cell of that colour on either side. *)
Definition maximal_run (cell : Z -> Cell) (n start len color : Z) : Prop :=
  0 <= start /\ 0 < len /\ start + len <= n /\
  (forall i, start <= i < start + len -> cell i = Some color) /\
  (0 < start -> cell (start - 1) <> Some color) /\
  (start + len < n -> cell (start + len) <> Some color).

(** The common shape of the horizontal and the vertical scan of one line
    (a device of the proofs, shown equal to both): [cell] reads the line,
    [report] builds the match of a run. *)
Fixpoint scanLine (fuel : nat) (cell : Z -> Cell) (report : Z -> Z -> Z -> WellMatch)
    (pos : Z) (matches : list WellMatch) : list WellMatch :=
  match fuel with
  | O => matches
  | S fuel' =>
      if pos <=? 5 - 3 then
        match cell pos with
        | None => scanLine fuel' cell report (pos + 1) matches
        | Some color =>
            let runLen :=
              JS.count_while 5
                (fun n => (pos + n <? 5) && bool_decide (cell (pos + n) = Some color))
                1 in
            if 3 <=? runLen then
              scanLine fuel' cell report (pos + (runLen - 1) + 1)
                (matches ++ [report pos runLen color])
            else scanLine fuel' cell report (pos + 1) matches
        end
      else matches
  end.

Definition horizontalMatch (row start len color : Z) : WellMatch :=
  mkWellMatch horizontal (runTiles len (fun i => (start + i, row))) color.

Definition verticalMatch (col start len color : Z) : WellMatch :=
  mkWellMatch vertical (runTiles len (fun i => (col, start + i))) color.

(** The matches of a list of runs [(start, len, color)]. *)
Definition reportRuns (report : Z -> Z -> Z -> WellMatch)
    (runs : list (Z * Z * Z)) : list WellMatch :=
  (fun '(start, len, color) => report start len color) <$> runs.

(** No run of three or more begins before [pos] and reaches it. *)
Definition no_run_across (cell : Z -> Cell) (pos : Z) : Prop :=
  forall start len color,
    3 <= len -> maximal_run cell 5 start len color -> start < pos ->
    start + len <= pos.

(* ===================================================================== *)
(** ** Example states *)
(* ===================================================================== *)

(** A fresh engine that is only ticked: the catcher stays at column 2. *)
Definition idleGame (seed : float) (ticks : nat) : Game :=
  performAll (replicate ticks CallUpdate) (newGame seed).

(** The moves that bring the catcher to column [target]. *)
Definition movesTo (target : Z) (s : Game) : list Call :=
  if catcherColumn s <? target
  then replicate (Z.to_nat (target - catcherColumn s)) CallMoveRight
  else replicate (Z.to_nat (catcherColumn s - target)) CallMoveLeft.

(** A player that collects runs in the rack.  It looks at the oldest tile
    on the conveyor: when the tile's colour is the colour of every rack
    entry it moves the catcher under the tile, otherwise it steps out of
    the tile's way; then the engine is ticked. *)
Definition wantsTile (s : Game) (tile : Tile) : bool :=
  forallb (fun c => c =? tile_colorIndex tile) (rack s).

Definition playerTarget (s : Game) : Z :=
  match conveyorTiles s with
  | [] => catcherColumn s
  | tile :: _ =>
      if wantsTile s tile then tile_column tile
      else if tile_column tile =? catcherColumn s then
        if tile_column tile <? WELL_COLS - 1 then tile_column tile + 1
        else tile_column tile - 1
      else catcherColumn s
  end.

Definition playerCalls (s : Game) : list Call :=
  movesTo (playerTarget s) s ++ [CallUpdate].

Fixpoint play (ticks : nat) (s : Game) : Game :=
  match ticks with
  | O => s
  | S ticks' => play ticks' (performAll (playerCalls s) s)
  end.

(** A player that builds the well to a plan.  It catches every tile, and
    drops each caught tile at the next column of [plan] before the next
    tick. *)
Definition placeFront (plan : list Z) (s : Game) : Game * list Z :=
  match rack s, plan with
  | _ :: _, col :: plan' =>
      (performAll (movesTo col s ++ [CallDropFromRack]) s, plan')
  | _, _ => (s, plan)
  end.

Definition catchNext (s : Game) : Game :=
  match conveyorTiles s with
  | tile :: _ => performAll (movesTo (tile_column tile) s ++ [CallUpdate]) s
  | [] => perform CallUpdate s
  end.

Fixpoint script (ticks : nat) (plan : list Z) (s : Game) : Game :=
  match ticks with
  | O => s
  | S ticks' =>
      let '(s', plan') := placeFront plan s in
      script ticks' plan' (catchNext s')
  end.

(** Seed 5 under that player: at tick 2946 a tile completes a horizontal
    run of four on the bottom row, with tiles lying on top of it; at tick
    3306 the tenth hundred is scored. *)
Definition beforeHorizontalFour : Game := play 2945 (newGame 5).
Definition levelTwoGame : Game := play 3306 (newGame 5).

(** Seed 42, ticked until the first tile has spawned (tick 120), then
    paused. *)
Definition pausedAfterSpawn : Game :=
  performAll (replicate 120 CallUpdate ++ [CallTogglePause]) (newGame 42).

(** Seed 42 after 2585 idle ticks: one life left, columns 0 and 3 of the
    well full, and tile 20 about to fall at column 0. *)
Definition beforeWellOverflow : Game := idleGame 42 2585.
Definition tileAtColumn0 : Tile := mkTile 20 10 2 0.

(** The same engine with the catcher moved to column 0. *)
Definition catcherOverFullColumn : Game :=
  performAll [CallMoveLeft; CallMoveLeft] beforeWellOverflow.

(** Seed 1 after 1745 idle ticks: the rack holds five entries and tile 13
    is about to arrive at the catcher's column. *)
Definition beforeRackOverflow : Game := idleGame 1 1745.
Definition tileAtCatcher : Tile := mkTile 13 10 2 2.

(** Seed 5, the first nine tiles caught and dropped at columns 0, 0, 1, 3,
    0, 0, 1, 1, 2, and the tenth tile, of colour 0, just caught (tick 1266,
    catcher at column 1).  Colour 0 lies on the down-right diagonal at
    (0,1), (1,2) and (3,4); (2,3) is the lowest empty cell of column 2; no
    run of three is on the board. *)
Definition beforeDiagonalFour : Game :=
  script 1266 [0; 0; 1; 3; 0; 0; 1; 1; 2] (newGame 5).

(** Colour 0 on the whole down-right diagonal of an empty grid. *)
Definition diagonalFive : Well :=
  [ [Some 0; None; None; None; None];
    [None; Some 0; None; None; None];
    [None; None; Some 0; None; None];
    [None; None; None; Some 0; None];
    [None; None; None; None; Some 0] ].

(** Colour 1 on the down-left diagonal from (4,0) to (1,3). *)
Definition antiDiagonalFour : Well :=
  [ [None; None; None; None; None];
    [None; None; None; Some 1; None];
    [None; None; Some 1; None; None];
    [None; Some 1; None; None; None];
    [Some 1; None; None; None; None] ].

(** Colour 3 on row 4 from column 0 to column 3, and colour 4 on column 2
    from row 0 to row 2. *)
Definition straightRuns : Well :=
  [ [None; None; None; None; Some 3];
    [None; None; None; None; Some 3];
    [Some 4; Some 4; Some 4; Some 5; Some 3];
    [None; None; None; None; Some 3];
    [None; None; None; None; None] ].

(* ===================================================================== *)
(** ** Further vocabulary and example states *)
(* ===================================================================== *)

(** The colours of a column from the top row down, without its empty
    cells. *)
Definition columnTiles (column : list Cell) : list Z := omap id column.

(** A well in which gravity has work to do: colour 1 floats at the top of
    column 0 and colour 2 in the middle of column 3. *)
Definition floatingWell : Well :=
  [ [Some 1; None; None; Some 0; None];
    [None; None; None; None; None];
    [None; None; None; None; Some 4];
    [None; Some 2; None; Some 2; Some 3];
    [None; None; None; None; None] ].

(** What a public call returns: the booleans of the three player actions,
    nothing for the others; [None] when the call throws. *)
Definition callResult (c : Call) (s : Game) : option (option bool) :=
  match c with
  | CallUpdate =>
      match completion update s with Normal _ => Some None | TypeError => None end
  | CallMoveLeft =>
      match completion moveLeft s with Normal b => Some (Some b) | TypeError => None end
  | CallMoveRight =>
      match completion moveRight s with Normal b => Some (Some b) | TypeError => None end
  | CallDropFromRack =>
      match completion dropFromRack s with Normal b => Some (Some b) | TypeError => None end
  | CallTogglePause =>
      match completion togglePause s with Normal _ => Some None | TypeError => None end
  | CallReset =>
      match completion reset s with Normal _ => Some None | TypeError => None end
  end.

(** The player actions, whose boolean tells whether they did anything. *)
Definition isAction (c : Call) : bool :=
  match c with
  | CallMoveLeft | CallMoveRight | CallDropFromRack => true
  | _ => false
  end.

(** The game of seed 42 left alone until it is over (tick 2586). *)
Definition finishedGame : Game := idleGame 42 2586.

(** The engine just after a catch that completed a run of three: the
    rack back to [pre], 100 points scored, the catch and the match in the
    event buffer (the level is then brought up to date by
    [checkLevelUp]). *)
Definition afterRackMatch (pre : list Z) (c : Z) (s : Game) : Game :=
  set_events (events s ++ [CATCH c; MATCH [InRack [c; c; c] c] 100])
    (set_score (score s + 100) (set_rack pre s)).

(** The engine just after a catch that completed no run. *)
Definition afterCatch (c : Z) (s : Game) : Game :=
  set_events (events s ++ [CATCH c]) (set_rack (rack s ++ [c]) s).


(** The game of seed 7 left alone for 600 ticks: two tiles of colour 1
    caught, the catcher at column 2. *)
Definition rackWithPair : Game := idleGame 7 600.

(** The step of a run of each kind, in columns and rows. *)
Definition direction (t : MatchType) : Z * Z :=
  match t with
  | horizontal => (1, 0)
  | vertical => (0, 1)
  | diagonal_dr => (1, 1)
  | diagonal_dl => (-1, 1)
  end.

(** [len] cells of the grid in a line from [(col, row)] in steps of
    [(dx, dy)], all of them holding [color]. *)
Definition line_of (w : Well) (col row : Z) (d : Z * Z) (len color : Z) : Prop :=
  forall i, 0 <= i < len ->
    0 <= col + i * d.1 < WELL_COLS /\ 0 <= row + i * d.2 < WELL_ROWS /\
    cellAt w (col + i * d.1) (row + i * d.2) = Some color.

(** Three cells of one colour next to each other in a row, a column or a
    diagonal of the grid. *)
Definition three_in_line (w : Well) : Prop :=
  exists t col row color, line_of w col row (direction t) 3 color.

(** The game of [beforeDiagonalFour] after the move and the drop that
    complete the diagonal. *)
Definition diagonalCompleted : Game :=
  performAll [CallMoveRight; CallDropFromRack] beforeDiagonalFour.

(** The ids of the tiles on the conveyor, far end first. *)
Definition conveyorIds (s : Game) : list Z := tile_id <$> conveyorTiles s.

(** The tile is short of the near end of the conveyor: the test
    [tile.position >= CONVEYOR_LENGTH] of [updateConveyor] fails on it. *)
Definition onConveyor (tile : Tile) : Prop :=
  (CONVEYOR_LENGTH <=? tile_position tile)%float = false.

(** The bookkeeping of the engine: lives, score, level, spawn timer, tile
    ids and tile positions. *)
Record Books (s : Game) : Prop := mkBooks {
  books_lives : lives s <= INITIAL_LIVES;
  books_over : gameOver s = true <-> lives s <= 0;
  books_score : 0 <= score s;
  books_hundreds : (100 | score s);
  books_level : 1 <= level s;
  books_timer : 0 <= spawnTimer s < BASE_SPAWN_INTERVAL;
  books_ids : NoDup (conveyorIds s);
  books_next : Forall (fun tile => 0 <= tile_id tile < nextTileId s) (conveyorTiles s);
  books_next_nonneg : 0 <= nextTileId s;
  books_short : Forall onConveyor (conveyorTiles s);
  books_frames : 0 <= frameCount s
}.

(** From [s0] to [s] the counters only went one way: score, level, frame
    count and next tile id up, lives down. *)
Record Onward (s0 s : Game) : Prop := mkOnward {
  onward_score : score s0 <= score s;
  onward_level : level s0 <= level s;
  onward_lives : lives s <= lives s0;
  onward_frames : frameCount s0 <= frameCount s;
  onward_next : nextTileId s0 <= nextTileId s;
  onward_over : gameOver s0 = true -> gameOver s = true
}.

(** From [s0] to [s] the catcher, the pause flag and the frame count are
    the same. *)
Record Steady (s0 s : Game) : Prop := mkSteady {
  steady_catcher : catcherColumn s = catcherColumn s0;
  steady_paused : paused s = paused s0;
  steady_frames : frameCount s = frameCount s0
}.

(* ===================================================================== *)
(** ** Whole seeds, and the palette *)
(* ===================================================================== *)

(** The generator on whole numbers: [(seed * 9301 + 49297) % 233280]. *)
Definition lcgStep (z : Z) : Z := (z * 9301 + 49297) mod 233280.

(** What is checked of the whole number [z] as a seed, by running the
    binary64 operations on it: [z * 9301 + 49297] is computed exactly, and
    [z / 233280] scaled by 3, 4, 5 or 6 stays at least 0 and below the
    scale. *)
Definition seedChecks (z : Z) : bool :=
  let s := of_uint63 (Uint63.of_Z z) in
  PrimFloat.Leibniz.eqb (s * 9301 + 49297)%float
    (of_uint63 (Uint63.of_Z (z * 9301 + 49297)))
  && forallb (fun k : float =>
                let y := (s / 233280 * k)%float in (0 <=? y)%float && (y <? k)%float)
       [3%float; 4%float; 5%float; 6%float].

(** [p] holds of the [fuel] whole numbers from [z] on. *)
Fixpoint allFrom (fuel : nat) (z : Z) (p : Z -> bool) : bool :=
  match fuel with
  | O => true
  | S fuel' => if p z then allFrom fuel' (z + 1) p else false
  end.

(** A colour index of the palette [COLORS]. *)
Definition validColor (c : Z) : Prop := 0 <= c < COLORS_length.

Definition validCell (cell : Cell) : Prop :=
  match cell with
  | Some c => validColor c
  | None => True
  end.

(** The tile is over a column of the well and has a colour of the
    palette. *)
Definition tileInGrid (tile : Tile) : Prop :=
  0 <= tile_column tile < WELL_COLS /\ validColor (tile_colorIndex tile).

(** The seed is a whole number below the modulus of the generator. *)
Definition wholeSeed (r : SeededRNG) : Prop :=
  exists z, 0 <= z < 233280 /\ r = mkRNG (JS.of_Z z).

(** What a whole seed brings: every tile is over the grid, and every
    colour in the engine is one of the palette. *)
Record Palette (s : Game) : Prop := mkPalette {
  palette_seed : wholeSeed (rng s);
  palette_level : 1 <= level s;
  palette_tiles : Forall tileInGrid (conveyorTiles s);
  palette_rack : Forall validColor (rack s);
  palette_well : Forall (Forall validCell) (well s)
}.

(** What holds of every state reached from a whole seed. *)
Definition Sound (s : Game) : Prop := Inv s /\ Palette s.

(** The palette, [COLORS], as RGBA components. *)
Definition COLORS : list (list float) :=
  [ [1.0; 0.2; 0.2; 1.0];
    [0.2; 0.5; 1.0; 1.0];
    [0.2; 1.0; 0.3; 1.0];
    [1.0; 0.9; 0.2; 1.0];
    [1.0; 0.5; 0.2; 1.0];
    [0.8; 0.2; 1.0; 1.0] ]%float.

(** [getColorRGBA(colorIndex)], [COLORS[colorIndex] || [1, 1, 1, 1]], for a
    whole number: every entry of the palette is an array, hence truthy. *)
Definition getColorRGBA (colorIndex : Z) : list float :=
  default [1; 1; 1; 1]%float (JS.index COLORS colorIndex).

(** A component between 0 and 1. *)
Definition unitInterval (x : float) : Prop :=
  (0 <=? x)%float = true /\ (x <=? 1)%float = true.

(** What a tile keeps while it rides the conveyor: id, colour and
    column. *)
Definition tileFacts (tile : Tile) : Z * Z * Z :=
  (tile_id tile, tile_colorIndex tile, tile_column tile).

(** Every field of the engine but the catcher column. *)
Definition besidesCatcher (s : Game) :=
  (rng s, score s, level s, lives s, paused s, gameOver s, conveyorTiles s,
   nextTileId s, spawnTimer s, rack s, well s, events s, frameCount s).

(** Seed 7 left alone: the update of tick 186 catches the first tile, of
    colour 1, at column 2.  The buffer then holds the catch and the rack
    the tile. *)
Definition afterFirstCatch : Game := exec update (idleGame 7 185).

(** The rack of seed 7's idle game with a third tile of colour 1 put at
    its back by hand: a run that [checkRackMatches] has not seen yet. *)
Definition rackWithRun : Game := set_rack [1; 1; 1] rackWithPair.

(* ===================================================================== *)
(** ** The callers of the engine *)
(* ===================================================================== *)

(** *** game.js: [getState()] *)

(** The object that [getState()] builds. *)
Record Snapshot : Type := mkSnapshot {
  state_score : Z;
  state_level : Z;
  state_lives : Z;
  state_paused : bool;
  state_gameOver : bool;
  state_conveyorTiles : list Tile;
  state_catcherColumn : Z;
  state_rack : list Z;
  state_well : Well;
  state_frameCount : Z
}.

Definition snapshot (s : Game) : Snapshot :=
  mkSnapshot (score s) (level s) (lives s) (paused s) (gameOver s)
    (conveyorTiles s) (catcherColumn s) (rack s) (well s) (frameCount s).

Definition getState : M Snapshot :=
  s <- get ;;
  ret (snapshot s).

(** *** main.js: [App.update()] and the fixed steps of [App.loop] *)

(** One fixed step: the engine is updated, then read; the value is what
    the step hands to the interface, the snapshot to
    [ui.updateFromState] and the events to [ui.handleEvents] (neither
    calls back into the engine). *)
Definition App_update : M (Snapshot * list Event) :=
  update ;;
  state <- getState ;;
  events <- getEvents ;;
  ret (state, events).

(** The [while] loop of [App.loop] when [n] fixed steps are due: what the
    steps hand over, in order. *)
Fixpoint App_steps (n : nat) : M (list (Snapshot * list Event)) :=
  match n with
  | O => ret []
  | S n' =>
      handed <- App_update ;;
      rest <- App_steps n' ;;
      ret (handed :: rest)
  end.

(** *** input.js: the [keydown] listener *)

(** [key.toLowerCase()]; the labels of the listener's [switch] are ASCII,
    and only the letters A to Z are brought onto ASCII letters. *)
Definition toLowerCase_char (c : Ascii.ascii) : Ascii.ascii :=
  let n := Ascii.nat_of_ascii c in
  if (65 <=? n)%nat && (n <=? 90)%nat then Ascii.ascii_of_nat (n + 32) else c.

Fixpoint toLowerCase (key : string) : string :=
  match key with
  | EmptyString => EmptyString
  | String c rest => String (toLowerCase_char c) (toLowerCase rest)
  end.

(** The callback that [App.setupInputCallbacks] registers for [restart]:
    [ui.hideAllPanels()] touches the page only, [ui.startGame()] is
    [game.reset()]. *)
Definition onRestart : M unit :=
  s <- get ;;
  if gameOver s then reset else ret tt.

(** [trigger(event)] with the callbacks that main.js registers: one for
    [pause], which does nothing, and one for [restart]. *)
Definition trigger (event : string) : M unit :=
  if String.eqb event "restart" then onRestart else ret tt.

(** The listener, for an event with [e.repeat] and [e.key]. *)
Definition keydown (repeat : bool) (key : string) : M unit :=
  if repeat then ret tt
  else
    let k := toLowerCase key in
    if String.eqb k "arrowleft" || String.eqb k "a" then
      moved <- moveLeft ;;
      if moved then trigger "moveLeft" else ret tt
    else if String.eqb k "arrowright" || String.eqb k "d" then
      moved <- moveRight ;;
      if moved then trigger "moveRight" else ret tt
    else if String.eqb k " " || String.eqb k "enter" then
      dropped <- dropFromRack ;;
      if dropped then trigger "drop" else ret tt
    else if String.eqb k "p" then
      togglePause ;;
      trigger "pause"
    else if String.eqb k "r" then
      trigger "restart"
    else ret tt.

(** *** ui.js: [updateRackPreview(rack)] *)

(** A child of the rack preview: a tile with the background
    [rgb(r, g, b)], or an empty slot. *)
Variant RackSlot : Type :=
  | FilledSlot (red green blue : float)
  | EmptySlot.

(** [rgba[k] * 255]. *)
Definition channel (rgba : list float) (k : Z) : float :=
  (default nan (JS.index rgba k) * 255)%float.

Definition filledSlot (colorIndex : Z) : RackSlot :=
  let rgba := getColorRGBA colorIndex in
  FilledSlot (channel rgba 0) (channel rgba 1) (channel rgba 2).

(** [this.elements.rackTiles] is given by its children, or is [None] when
    the page has no such element: then the call returns at once and builds
    nothing.  Otherwise the children are replaced: one tile per rack
    entry, front first, then an empty slot for every [i] from
    [rack.length] up to 4. *)
Definition updateRackPreview (rackTiles : option (list RackSlot)) (rack : list Z)
    : option (list RackSlot) :=
  match rackTiles with
  | None => None
  | Some _ =>
      Some (map filledSlot rack
              ++ replicate (Z.to_nat (5 - JS.len rack)) EmptySlot)
  end.

(* ===================================================================== *)
(** ** Finite numbers *)
(* ===================================================================== *)

(** A binary64 value that is finite. *)
Definition finiteSF (x : spec_float) : bool :=
  match x with
  | S754_zero _ | S754_finite _ _ _ => true
  | _ => false
  end.

(** A finite binary64 value smaller than [2 ^ B] in size: a zero, or a
    mantissa of [d] digits with an exponent [e] such that [d + e <= B]. *)
Definition small (B : Z) (x : spec_float) : Prop :=
  match x with
  | S754_zero _ => True
  | S754_finite _ m e => Z.pos (digits2_pos m) + e <= B
  | _ => False
  end.

(** The generator of the engine stands on a finite seed. *)
Definition FiniteRNG (s : Game) : Prop := finiteSeed (seed (rng s)) = true.

(* ##################################################################### *)
(** * Properties *)
(* ##################################################################### *)

Section WeakestPreconditions.
Context {A B : Type}.
Implicit Types (m : M A) (f : A -> M B) (s : Game).

Lemma wp_ret (a : A) (Q : A -> Game -> Prop) E s : wp (ret a) Q E s <-> Q a s.
Proof. reflexivity. Qed.

Lemma wp_bind m f (Q : B -> Game -> Prop) E s :
  wp (bind m f) Q E s <-> wp m (fun a s' => wp (f a) Q E s') E s.
Proof. unfold wp, bind. destruct (m s) as [[a|] s']; reflexivity. Qed.

Lemma wp_mono m (Q Q' : A -> Game -> Prop) (E E' : Game -> Prop) s :
  wp m Q E s ->
  (forall a s', Q a s' -> Q' a s') ->
  (forall s', E s' -> E' s') ->
  wp m Q' E' s.
Proof. unfold wp. destruct (m s) as [[a|] s']; auto. Qed.

Lemma wp_exec m (Q : Game -> Prop) s :
  wp m (fun _ => Q) Q s -> Q (exec m s).
Proof. unfold wp, exec. destruct (m s) as [[a|] s']; auto. Qed.

End WeakestPreconditions.

Lemma preserves_exec {A : Type} (I : Game -> Prop) (m : M A) s :
  preserves I m -> I s -> I (exec m s).
Proof. intros Hm Hs. apply wp_exec, Hm, Hs. Qed.

Section PrimitiveSteps.
Context {A : Type}.

Lemma wp_get (Q : Game -> Game -> Prop) E s : wp get Q E s <-> Q s s.
Proof. reflexivity. Qed.

Lemma wp_modify f (Q : unit -> Game -> Prop) E s :
  wp (modify f) Q E s <-> Q tt (f s).
Proof. reflexivity. Qed.

Lemma wp_emit e (Q : unit -> Game -> Prop) E s :
  wp (emit e) Q E s <-> Q tt (set_events (events s ++ [e]) s).
Proof. reflexivity. Qed.

Lemma wp_throw (Q : A -> Game -> Prop) (E : Game -> Prop) s :
  wp throw Q E s <-> E s.
Proof. reflexivity. Qed.

End PrimitiveSteps.

(** One step of symbolic execution: a primitive step is run, a
    conditional is split; at a call of another method the tactic fails. *)
Ltac wp_step :=
  lazymatch goal with
  | |- wp (bind get _) _ _ _ => apply wp_bind, wp_get
  | |- wp (bind (modify _) _) _ _ _ => apply wp_bind, wp_modify
  | |- wp (bind (emit _) _) _ _ _ => apply wp_bind, wp_emit
  | |- wp (bind (ret _) _) _ _ _ => apply wp_bind, wp_ret
  | |- wp (bind throw _) _ _ _ => apply wp_bind, wp_throw
  | |- wp (bind (bind _ _) _) _ _ _ => apply wp_bind
  | |- wp (bind (if _ then _ else _) _) _ _ _ => apply wp_bind
  | |- wp (bind (match _ with _ => _ end) _) _ _ _ => apply wp_bind
  | |- wp get _ _ _ => apply wp_get
  | |- wp (modify _) _ _ _ => apply wp_modify
  | |- wp (emit _) _ _ _ => apply wp_emit
  | |- wp (ret _) _ _ _ => apply wp_ret
  | |- wp throw _ _ _ => apply wp_throw
  | |- wp (if ?c then _ else _) _ _ _ => destruct c eqn:?
  | |- wp (match ?x with _ => _ end) _ _ _ => destruct x eqn:?
  end; cbn beta.

Ltac wp_steps := repeat wp_step.

(** Run a called method through a lemma [H] about it; [s'] names the state
    it leaves and [Hs'] what the lemma says of it. *)
Tactic Notation "wp_call" uconstr(H) "as" ident(s') ident(Hs') :=
  lazymatch goal with
  | |- wp (bind _ _) _ _ _ => apply wp_bind
  | |- _ => idtac
  end;
  eapply wp_mono;
  [ eapply H | cbn beta; intros ? s' Hs' | cbn beta; intros s' Hs' ].

(* ===================================================================== *)
(** ** The level follows the score *)
(* ===================================================================== *)

Lemma matchPoints_nonneg size : 0 <= matchPoints size.
Proof. unfold matchPoints. repeat case_match; lia. Qed.

Lemma level_lags_add s points :
  level_ok s -> 0 <= points -> level_lags (set_score (score s + points) s).
Proof.
  unfold level_ok, level_lags, LEVEL_UP_THRESHOLD. simpl. intros -> Hp.
  assert (score s / 1000 <= (score s + points) / 1000)
    by (apply Z.div_le_mono; lia).
  lia.
Qed.


Lemma totalPoints_nonneg matches : 0 <= totalPoints matches.
Proof.
  unfold totalPoints, JS.for_each.
  cut (forall acc, 0 <= acc ->
         0 <= fold_left (fun s x => s + matchPoints (JS.len (match_tiles x)))
                matches acc).
  { intros H. apply H. lia. }
  induction matches as [|m ms IH]; simpl; intros acc Hacc; [done|].
  apply IH. pose proof (matchPoints_nonneg (JS.len (match_tiles m))). lia.
Qed.

(** [checkLevelUp] brings the level up to date and touches nothing else
    but the event buffer. *)
Lemma checkLevelUp_spec s :
  level_lags s ->
  wp checkLevelUp
     (fun _ s' =>
        level_ok s' /\ score s' = score s /\ rack s' = rack s /\
        well s' = well s /\ catcherColumn s' = catcherColumn s)
     (fun _ => False) s.
Proof.
  unfold level_lags, level_ok, checkLevelUp. intros Hs.
  wp_steps; simpl; repeat split; lia.
Qed.

(* ===================================================================== *)
(** ** Arrays *)
(* ===================================================================== *)

Lemma index_Some {A} (arr : list A) i x :
  JS.index arr i = Some x <-> 0 <= i /\ arr !! Z.to_nat i = Some x.
Proof.
  unfold JS.index. destruct (i <? 0) eqn:Hi.
  - apply Z.ltb_lt in Hi. split; [discriminate | lia].
  - apply Z.ltb_ge in Hi. tauto.
Qed.

Lemma index_in_range {A} (arr : list A) i :
  0 <= i < JS.len arr -> is_Some (JS.index arr i).
Proof.
  unfold JS.index, JS.len. intros [H0 Hlen].
  destruct (i <? 0) eqn:Hi; [apply Z.ltb_lt in Hi; lia|].
  apply lookup_lt_is_Some. lia.
Qed.

Lemma index_range {A} (arr : list A) i x :
  JS.index arr i = Some x -> 0 <= i < JS.len arr.
Proof.
  intros [H0 Hx]%index_Some. apply lookup_lt_Some in Hx. unfold JS.len. lia.
Qed.

Lemma count_while_ge fuel cond n : n <= JS.count_while fuel cond n.
Proof.
  revert n. induction fuel as [|fuel IH]; intros n; simpl; [lia|].
  destruct (cond n); [|lia]. specialize (IH (n + 1)). lia.
Qed.

Lemma count_while_two fuel cond n :
  (2 <= fuel)%nat -> cond n = true -> cond (n + 1) = true ->
  n + 2 <= JS.count_while fuel cond n.
Proof.
  intros Hfuel H1 H2. destruct fuel as [|[|fuel]]; [lia | lia |].
  simpl. rewrite H1, H2.
  pose proof (count_while_ge fuel cond (n + 1 + 1)). lia.
Qed.

Lemma splice_rest_length {A} (arr : list A) start runLen :
  0 <= start -> start + 3 <= JS.len arr -> 3 <= runLen ->
  JS.len (JS.splice_rest arr start runLen) + 3 <= JS.len arr.
Proof.
  unfold JS.len, JS.splice_rest. intros H0 H1 H2.
  rewrite length_app, length_take, length_drop. lia.
Qed.

(* ===================================================================== *)
(** ** The rack scan *)
(* ===================================================================== *)

Lemma rackRunLength_three rack start color :
  JS.index rack (start + 1) = Some color ->
  JS.index rack (start + 2) = Some color ->
  0 <= start ->
  3 <= rackRunLength rack start color.
Proof.
  intros H1 H2 H0. unfold rackRunLength.
  pose proof (index_range _ _ _ H2) as Hr.
  change 3 with (1 + 2). apply count_while_two.
  - unfold JS.len in Hr. lia.
  - rewrite H1, bool_decide_eq_true_2 by done.
    rewrite andb_true_r. apply Z.ltb_lt. lia.
  - replace (start + (1 + 1)) with (start + 2) by lia.
    rewrite H2, bool_decide_eq_true_2 by done.
    rewrite andb_true_r. apply Z.ltb_lt. lia.
Qed.

(** A scan that finds nothing has looked at every start position. *)
Lemma firstRackRun_None rack starts :
  (forall start, start ∈ starts -> 0 <= start < JS.len rack) ->
  firstRackRun rack starts = None ->
  forall start c,
    start ∈ starts ->
    JS.index rack start = Some c ->
    JS.index rack (start + 1) = Some c ->
    JS.index rack (start + 2) = Some c ->
    False.
Proof.
  induction starts as [|start0 starts IH]; simpl;
    intros Hrange Hnone start c Hin H0 H1 H2.
  - by apply elem_of_nil in Hin.
  - destruct (index_in_range rack start0) as [color Hs0].
    { apply Hrange. by left. }
    rewrite Hs0 in Hnone.
    destruct (3 <=? rackRunLength rack start0 color) eqn:Hc; [discriminate|].
    apply Z.leb_gt in Hc.
    apply elem_of_cons in Hin as [-> | Hin].
    + assert (color = c) as -> by congruence.
      pose proof (rackRunLength_three rack start0 c H1 H2).
      pose proof (index_range _ _ _ H0). lia.
    + eapply IH; eauto. intros. apply Hrange. by right.
Qed.

Lemma firstRackRun_Some rack starts start runLen color :
  firstRackRun rack starts = Some (start, runLen, color) ->
  start ∈ starts /\ 3 <= runLen.
Proof.
  induction starts as [|start0 starts IH]; simpl; [discriminate|].
  destruct (JS.index rack start0) as [c|]; [|discriminate].
  destruct (3 <=? rackRunLength rack start0 c) eqn:Hc.
  - intros [= <- <- <-]. apply Z.leb_le in Hc. split; [by left | done].
  - intros [Hin Hlen]%IH. split; [by right | done].
Qed.

Lemma no_run_after_scan rack :
  firstRackRun rack (seqZ 0 (JS.len rack - 3 + 1)) = None -> no_rack_run rack.
Proof.
  intros Hnone i c H0 H1 H2.
  pose proof (index_range _ _ _ H0). pose proof (index_range _ _ _ H2).
  apply (firstRackRun_None rack (seqZ 0 (JS.len rack - 3 + 1)))
    with (start := i) (c := c); try done.
  - intros start Hin%elem_of_seqZ. lia.
  - apply elem_of_seqZ. lia.
Qed.

Lemma no_run_short rack : JS.len rack < 3 -> no_rack_run rack.
Proof.
  intros Hlen i c H0 H1 H2.
  pose proof (index_range _ _ _ H0). pose proof (index_range _ _ _ H2). lia.
Qed.

(* ===================================================================== *)
(** ** Columns of the well *)
(* ===================================================================== *)

Ltac five column :=
  destruct column as [|?c [|?c [|?c [|?c [|?c [|? ?]]]]]]; try discriminate.

Lemma columnSettled_cells column row row' :
  length column = Z.to_nat WELL_ROWS -> columnSettled column = true ->
  0 <= row -> row < row' -> row' < WELL_ROWS ->
  default None (JS.index column row) <> None ->
  default None (JS.index column row') <> None.
Proof.
  intros Hlen Hset H0 Hlt H5. five column.
  assert (Hr : row = 0 \/ row = 1 \/ row = 2 \/ row = 3)
    by (unfold WELL_ROWS in *; lia).
  assert (Hr' : row' = 1 \/ row' = 2 \/ row' = 3 \/ row' = 4)
    by (unfold WELL_ROWS in *; lia).
  destruct c, c0, c1, c2, c3; try discriminate Hset;
    destruct Hr as [->|[->|[->| ->]]]; destruct Hr' as [->|[->|[->| ->]]];
    try lia; vm_compute; congruence.
Qed.

(** Filling the lowest empty cell of a settled column leaves it settled. *)
Lemma dropped_column_settled column row c :
  length column = Z.to_nat WELL_ROWS -> columnSettled column = true ->
  firstEmptyRow column (reverse (seqZ 0 WELL_ROWS)) = Some row ->
  length (JS.set column row (Some c)) = Z.to_nat WELL_ROWS /\
  columnSettled (JS.set column row (Some c)) = true.
Proof.
  intros Hlen Hset Hrow. five column.
  destruct c0, c1, c2, c3, c4; try discriminate Hset; vm_compute in Hrow;
    inversion Hrow; subst; split; reflexivity.
Qed.

(** Gravity settles any column of the grid. *)
Lemma gravity_column_settled column :
  length column = Z.to_nat WELL_ROWS ->
  length (rebuildColumn (compactColumn column) column) = Z.to_nat WELL_ROWS /\
  columnSettled (rebuildColumn (compactColumn column) column) = true.
Proof.
  intros Hlen. five column.
  destruct c, c0, c1, c2, c3; split; reflexivity.
Qed.

(* ===================================================================== *)
(** ** The invariant is kept by every method *)
(* ===================================================================== *)

Ltac inv_frame Hs := destruct Hs; constructor; simpl; try assumption.

Lemma well_shaped_column w col column :
  well_shaped w -> JS.index w col = Some column ->
  length column = Z.to_nat WELL_ROWS.
Proof.
  intros [_ Hw] [_ Hc]%index_Some. eapply Forall_lookup_1 in Hw; eauto.
Qed.

Lemma well_settled_column w col column :
  well_settled w -> JS.index w col = Some column -> columnSettled column = true.
Proof.
  intros Hw [_ Hc]%index_Some. eapply Forall_lookup_1 in Hw; eauto.
Qed.

Lemma well_shaped_insert w i column :
  well_shaped w -> length column = Z.to_nat WELL_ROWS ->
  well_shaped (<[i := column]> w).
Proof.
  intros [Hl Hw] Hc. split; [by rewrite length_insert|].
  by apply Forall_insert.
Qed.

Lemma well_shaped_set w col column :
  well_shaped w -> length column = Z.to_nat WELL_ROWS ->
  well_shaped (JS.set w col column).
Proof.
  intros. unfold JS.set. destruct (col <? 0); [done|]. by apply well_shaped_insert.
Qed.

Lemma well_settled_set w col column :
  well_settled w -> columnSettled column = true ->
  well_settled (JS.set w col column).
Proof.
  intros Hw Hc. unfold JS.set. destruct (col <? 0); [done|].
  by apply Forall_insert.
Qed.

Lemma loseLife_Inv reason : preserves Inv (loseLife reason).
Proof.
  intros s Hs. unfold loseLife. wp_steps; by inv_frame Hs.
Qed.

Lemma dropTileIntoWell_Inv col colorIndex :
  preserves Inv (dropTileIntoWell col colorIndex).
Proof.
  intros s Hs. unfold dropTileIntoWell.
  wp_step. destruct (JS.index (well s) col) as [column|] eqn:Hcol; [|done].
  pose proof (well_shaped_column _ _ _ (inv_shape _ Hs) Hcol) as Hlen.
  pose proof (well_settled_column _ _ _ (inv_settled _ Hs) Hcol) as Hset.
  destruct (firstEmptyRow _ _) as [row|] eqn:Hrow.
  - destruct (dropped_column_settled _ _ colorIndex Hlen Hset Hrow).
    wp_step. unfold setCell. rewrite Hcol. inv_frame Hs.
    + by apply well_shaped_set.
    + by apply well_settled_set.
  - by apply loseLife_Inv.
Qed.

(** What [checkRackMatches] leaves behind. *)
Lemma checkRackMatches_rec_spec fuel s :
  level_ok s -> (length (rack s) < fuel)%nat ->
  wp (checkRackMatches_rec fuel)
     (fun _ s' =>
        level_ok s' /\ no_rack_run (rack s') /\
        JS.len (rack s') <= JS.len (rack s) /\
        well s' = well s /\ catcherColumn s' = catcherColumn s)
     (fun _ => False) s.
Proof.
  revert s. induction fuel as [|fuel IH]; intros s Hs Hfuel; [lia|]. simpl.
  wp_step.
  destruct (JS.len (rack s) <? 3) eqn:Hshort.
  { apply Z.ltb_lt in Hshort. wp_step.
    repeat split; try done; try lia. by apply no_run_short. }
  apply Z.ltb_ge in Hshort.
  destruct (firstRackRun _ _) as [[[start runLen] color]|] eqn:Hscan.
  2:{ wp_step. repeat split; try done; try lia. by apply no_run_after_scan. }
  apply firstRackRun_Some in Hscan as [[Hstart Hstart']%elem_of_seqZ Hrun].
  assert (Hsp : JS.len (JS.splice_rest (rack s) start runLen) + 3 <= JS.len (rack s)).
  { apply splice_rest_length; lia. }
  wp_steps.
  wp_call checkLevelUp_spec as s1 Hs1.
  - apply (level_lags_add (set_rack _ s)); [exact Hs | apply matchPoints_nonneg].
  - simpl in Hs1. destruct Hs1 as (Hl & _ & Hr & Hw & Hc).
    wp_call IH as s2 Hs2; [done | rewrite Hr; unfold JS.len in *; lia | | done].
    destruct Hs2 as (? & ? & ? & ? & ?).
    repeat split; try done; try congruence. rewrite Hr in *. lia.
  - done.
Qed.

Lemma checkRackMatches_spec s :
  level_ok s ->
  wp checkRackMatches
     (fun _ s' =>
        level_ok s' /\ no_rack_run (rack s') /\
        JS.len (rack s') <= JS.len (rack s) /\
        well s' = well s /\ catcherColumn s' = catcherColumn s)
     (fun _ => False) s.
Proof.
  intros Hs. unfold checkRackMatches. wp_steps.
  apply checkRackMatches_rec_spec; [done | lia].
Qed.

Lemma handleTileReachedEnd_Inv tile : preserves Inv (handleTileReachedEnd tile).
Proof.
  intros s Hs. unfold handleTileReachedEnd. wp_step.
  destruct (tile_column tile =? catcherColumn s).
  - destruct (JS.len (rack s) <? RACK_CAPACITY) eqn:Hroom.
    + apply Z.ltb_lt in Hroom. wp_steps.
      wp_call checkRackMatches_spec as s1 Hs1; [apply (inv_level _ Hs) | | done].
      simpl in Hs1. destruct Hs1 as (? & ? & Hlen & Hw & Hc).
      unfold JS.len in *. rewrite length_app in Hlen. simpl in Hlen.
      destruct Hs. constructor; try done; try congruence. unfold JS.len. lia.
    + by apply loseLife_Inv.
  - wp_call dropTileIntoWell_Inv as s1 Hs1; [done | | done].
    wp_steps. by inv_frame Hs1.
Qed.

Lemma no_run_tail c rest : no_rack_run (c :: rest) -> no_rack_run rest.
Proof.
  intros Hrun i x H0 H1 H2.
  pose proof (index_range _ _ _ H0) as Hi.
  apply (Hrun (i + 1) x).
  - apply index_Some in H0 as [? H0]. apply index_Some. split; [lia|].
    replace (Z.to_nat (i + 1)) with (S (Z.to_nat i)) by lia. done.
  - apply index_Some in H1 as [? H1]. apply index_Some. split; [lia|].
    replace (Z.to_nat (i + 1 + 1)) with (S (Z.to_nat (i + 1))) by lia. done.
  - apply index_Some in H2 as [? H2]. apply index_Some. split; [lia|].
    replace (Z.to_nat (i + 1 + 2)) with (S (Z.to_nat (i + 2))) by lia. done.
Qed.

Lemma moveLeft_Inv : preserves Inv moveLeft.
Proof.
  intros s Hs. unfold moveLeft. wp_steps; [|done].
  inv_frame Hs. unfold WELL_COLS in *.
  apply andb_true_iff in Heqb as [_ ?%Z.ltb_lt]. lia.
Qed.

Lemma moveRight_Inv : preserves Inv moveRight.
Proof.
  intros s Hs. unfold moveRight. wp_steps; [|done].
  inv_frame Hs. unfold WELL_COLS in *.
  apply andb_true_iff in Heqb as [_ ?%Z.ltb_lt]. lia.
Qed.

Lemma togglePause_Inv : preserves Inv togglePause.
Proof. intros s Hs. unfold togglePause. wp_steps; by inv_frame Hs. Qed.

Lemma initial_Inv r : Inv (initial r).
Proof.
  constructor; simpl; try done.
  - split; [done|]. repeat constructor.
  - repeat constructor.
  - by apply no_run_short.
Qed.

Lemma reset_Inv : preserves Inv reset.
Proof. intros s Hs. unfold reset. wp_steps. apply initial_Inv. Qed.

Lemma dropFromRack_Inv : preserves Inv dropFromRack.
Proof.
  intros s Hs. unfold dropFromRack. wp_step.
  destruct (_ && _); [|done].
  destruct (rack s) as [|colorIndex rest] eqn:Hrack; [done|].
  wp_steps.
  wp_call dropTileIntoWell_Inv as s1 Hs1; [ | | done].
  - destruct Hs. constructor; simpl; try done.
    + rewrite Hrack in *. unfold JS.len in *. simpl in *. lia.
    + rewrite Hrack in *. by eapply no_run_tail.
  - wp_steps. by inv_frame Hs1.
Qed.

Lemma rng_nextInt_Inv min max : preserves Inv (rng_nextInt min max).
Proof.
  intros s Hs. unfold wp, rng_nextInt.
  destruct (SeededRNG_nextInt min max (rng s)) as [v r']. by inv_frame Hs.
Qed.

Lemma spawnTile_Inv : preserves Inv spawnTile.
Proof.
  intros s Hs. unfold spawnTile. wp_step.
  wp_call rng_nextInt_Inv as s1 Hs1; [done | | done].
  wp_call rng_nextInt_Inv as s2 Hs2; [done | | done].
  wp_steps. by inv_frame Hs2.
Qed.

Lemma updateSpawning_Inv : preserves Inv updateSpawning.
Proof.
  intros s Hs. unfold updateSpawning. wp_steps.
  - eapply wp_mono; [apply spawnTile_Inv | done | done]. by inv_frame Hs.
  - by inv_frame Hs.
Qed.

Lemma updateConveyor_loop_Inv speed n : preserves Inv (updateConveyor_loop speed n).
Proof.
  induction n as [|i IH]; intros s Hs; simpl; [done|].
  wp_step. destruct (conveyorTiles s !! i) as [tile|]; [|done].
  wp_steps.
  - wp_call handleTileReachedEnd_Inv as s1 Hs1; [by inv_frame Hs | | done].
    by apply IH.
  - apply IH. by inv_frame Hs.
Qed.

Lemma updateConveyor_Inv : preserves Inv updateConveyor.
Proof.
  intros s Hs. unfold updateConveyor. wp_steps. by apply updateConveyor_loop_Inv.
Qed.

Lemma setCell_shaped w col row v : well_shaped w -> well_shaped (setCell w col row v).
Proof.
  intros Hw. unfold setCell. destruct (JS.index w col) as [column|] eqn:Hcol; [|done].
  apply well_shaped_set; [done|].
  pose proof (well_shaped_column _ _ _ Hw Hcol).
  unfold JS.set. destruct (row <? 0); [done|]. by rewrite length_insert.
Qed.

Lemma clearTiles_shaped tiles w : well_shaped w -> well_shaped (clearTiles tiles w).
Proof.
  unfold clearTiles, JS.for_each. revert w.
  induction tiles as [|[col row] tiles IH]; intros w Hw; simpl; [done|].
  apply IH. by apply setCell_shaped.
Qed.

Lemma clearMatches_shaped (matches : list WellMatch) w :
  well_shaped w ->
  well_shaped (JS.for_each matches (fun m w => clearTiles (match_tiles m) w) w).
Proof.
  unfold JS.for_each. revert w.
  induction matches as [|m matches IH]; intros w Hw; simpl; [done|].
  apply IH. by apply clearTiles_shaped.
Qed.

(** On the grid, the column loop of [applyGravity] rebuilds each column. *)
Lemma gravity_columns (w : Well) :
  length w = Z.to_nat WELL_COLS ->
  JS.for_each (seqZ 0 WELL_COLS)
    (fun col w =>
       match JS.index w col with
       | Some column => JS.set w col (rebuildColumn (compactColumn column) column)
       | None => w
       end) w
  = (fun column => rebuildColumn (compactColumn column) column) <$> w.
Proof.
  intros Hlen.
  destruct w as [|c0 [|c1 [|c2 [|c3 [|c4 [|? ?]]]]]]; try discriminate.
  reflexivity.
Qed.

(** Gravity settles every column of the grid. *)
Lemma applyGravity_settles s :
  well_shaped (well s) ->
  wp applyGravity
     (fun _ s' =>
        well_shaped (well s') /\ well_settled (well s') /\
        score s' = score s /\ level s' = level s /\ rack s' = rack s /\
        catcherColumn s' = catcherColumn s)
     (fun _ => False) s.
Proof.
  intros [Hlen Hcols]. unfold applyGravity. wp_step.
  rewrite gravity_columns by done. simpl.
  repeat split; try done.
  - by rewrite length_fmap.
  - apply Forall_fmap. eapply Forall_impl; [exact Hcols|].
    intros column Hc. simpl. by apply gravity_column_settled.
  - apply Forall_fmap. eapply Forall_impl; [exact Hcols|].
    intros column Hc. simpl. by apply gravity_column_settled.
Qed.

Lemma checkMatches_Inv : preserves Inv checkMatches.
Proof.
  intros s Hs. unfold checkMatches. wp_step.
  destruct (0 <? _); [|done].
  wp_steps.
  wp_call applyGravity_settles as s1 Hs1.
  - simpl. apply clearMatches_shaped, (inv_shape _ Hs).
  - simpl in Hs1. destruct Hs1 as (Hsh & Hse & Hsc & Hlv & Hrk & Hcc).
    wp_call checkLevelUp_spec as s2 Hs2.
    + unfold level_lags. rewrite Hsc, Hlv.
      apply (level_lags_add s); [apply (inv_level _ Hs) | apply totalPoints_nonneg].
    + destruct Hs2 as (? & ? & Hrk2 & Hw2 & Hc2). destruct Hs.
      constructor; rewrite ?Hw2, ?Hrk2, ?Hc2, ?Hrk, ?Hcc; done.
    + done.
  - done.
Qed.

Lemma update_Inv : preserves Inv update.
Proof.
  intros s Hs. unfold update. wp_step. destruct (_ || _); [done|].
  wp_steps.
  wp_call updateSpawning_Inv as s1 Hs1; [by inv_frame Hs | | done].
  wp_call updateConveyor_Inv as s2 Hs2; [done | | done].
  by apply checkMatches_Inv.
Qed.

Lemma perform_Inv c s : Inv s -> Inv (perform c s).
Proof.
  intros Hs. destruct c; simpl; apply preserves_exec; try done.
  - apply update_Inv.
  - apply moveLeft_Inv.
  - apply moveRight_Inv.
  - apply dropFromRack_Inv.
  - apply togglePause_Inv.
  - apply reset_Inv.
Qed.

Lemma reachable_Inv s : reachable s -> Inv s.
Proof.
  induction 1 as [seed _ | c s _ IH]; [apply initial_Inv | by apply perform_Inv].
Qed.

Lemma reachable_performAll cs s : reachable s -> reachable (performAll cs s).
Proof.
  unfold performAll. revert s.
  induction cs as [|c cs IH]; intros s Hs; simpl; [done|].
  apply IH. by apply reachable_call.
Qed.

(* ===================================================================== *)
(** ** The claims *)
(* ===================================================================== *)

Lemma settled_no_floating w :
  well_shaped w -> well_settled w -> no_floating_cells w.
Proof.
  intros Hshape Hset col row row' Hcol H0 Hlt H5. unfold cellAt.
  destruct (JS.index w col) as [column|] eqn:Hc; [|done].
  apply columnSettled_cells; try done.
  - by eapply well_shaped_column.
  - by eapply well_settled_column.
Qed.

Lemma idleGame_reachable seed ticks :
  finiteSeed seed = true -> reachable (idleGame seed ticks).
Proof. intros Hseed. by apply reachable_performAll, reachable_new. Qed.

Lemma play_reachable ticks s : reachable s -> reachable (play ticks s).
Proof.
  revert s. induction ticks as [|ticks IH]; intros s Hs; simpl; [done|].
  by apply IH, reachable_performAll.
Qed.

Lemma script_reachable ticks plan s :
  reachable s -> reachable (script ticks plan s).
Proof.
  revert plan s. induction ticks as [|ticks IH]; intros plan s Hs; simpl; [done|].
  destruct (placeFront plan s) as [s' plan'] eqn:Hplace.
  apply IH. unfold placeFront in Hplace.
  assert (Hs' : reachable s').
  { destruct (rack s), plan; inversion Hplace; subst; try done.
    by apply reachable_performAll. }
  unfold catchNext. destruct (conveyorTiles s').
  - by apply reachable_call.
  - by apply reachable_performAll.
Qed.

(** *** C1: the well scan *)

(** What the scan does get right: a horizontal run of four and a vertical
    run of three are each reported once, over their full length, and are
    worth 300 + 100. *)
Example straight_runs_are_reported_once :
  findMatches straightRuns =
    [ mkWellMatch horizontal [(0, 4); (1, 4); (2, 4); (3, 4)] 3;
      mkWellMatch vertical [(2, 0); (2, 1); (2, 2)] 4 ] /\
  totalPoints (findMatches straightRuns) = 400.
Proof. split; reflexivity. Qed.

(** C1.  The claim: every maximal run is reported once, with no overlapping
    sub-run, so that an isolated run of four is worth 300 and one of five
    600.  The code: the diagonal scans do not skip past a run they have
    found (the horizontal and vertical scans do), so a diagonal run is
    reported again from each later start.  In the game of seed 5 played to
    the plan above, moveRight() and dropFromRack() put the tenth tile at
    (2,3) and complete the down-right diagonal (0,1), (1,2), (2,3), (3,4),
    the only run on the board: the scan reports the run of four and its
    sub-run of three, and the next update() adds 300 + 100 = 400 (the four
    cells are cleared).  A down-left diagonal of four is reported twice as
    well, and a diagonal of five three times, for
    600 + 300 + 100 = 1000. *)
Theorem diagonal_runs_are_reported_again :
  let s := performAll [CallMoveRight; CallDropFromRack] beforeDiagonalFour in
  reachable s /\
  (findMatches (well beforeDiagonalFour) = [] /\
   well s =
     [ [None; Some 0; Some 2; Some 1; Some 1];
       [None; None;   Some 0; Some 1; Some 1];
       [None; None;   None;   Some 0; Some 2];
       [None; None;   None;   None;   Some 0];
       [None; None;   None;   None;   None] ] /\
   findMatches (well s) =
     [ mkWellMatch diagonal_dr [(0, 1); (1, 2); (2, 3); (3, 4)] 0;
       mkWellMatch diagonal_dr [(1, 2); (2, 3); (3, 4)] 0 ] /\
   score s = 0 /\
   score (perform CallUpdate s) = 400 /\
   well (perform CallUpdate s) =
     [ [None; None; Some 2; Some 1; Some 1];
       [None; None; None;   Some 1; Some 1];
       [None; None; None;   None;   Some 2];
       [None; None; None;   None;   None];
       [None; None; None;   None;   None] ] /\
   findMatches antiDiagonalFour =
     [ mkWellMatch diagonal_dl [(3, 1); (2, 2); (1, 3)] 1;
       mkWellMatch diagonal_dl [(4, 0); (3, 1); (2, 2); (1, 3)] 1 ] /\
   map (fun m => JS.len (match_tiles m)) (findMatches diagonalFive) = [5; 4; 3] /\
   totalPoints (findMatches diagonalFive) = 1000).
Proof.
  split.
  - apply reachable_performAll, script_reachable, reachable_new. reflexivity.
  - vm_compute. repeat split.
Qed.

(** *** C2: the level *)

(** C2. In every state reached from a fresh or reset engine through the
    public interface (update, moveLeft, moveRight, dropFromRack,
    togglePause, reset), the stored level is floor(score / 1000) + 1. *)
Theorem level_follows_score s :
  reachable s -> level s = score s / LEVEL_UP_THRESHOLD + 1.
Proof. intros Hs. apply (inv_level s), reachable_Inv, Hs. Qed.

(** The level does rise: the player of the examples scores 900 points in
    3305 ticks, and the catch of tick 3306 completes a rack run that brings
    the score to 1000 and the level to 2. *)
Example player_reaches_level_two :
  score (play 3305 (newGame 5)) = 900 /\ level (play 3305 (newGame 5)) = 1 /\
  score levelTwoGame = 1000 /\ level levelTwoGame = 2 /\
  events levelTwoGame = [CATCH 1; MATCH [InRack [1; 1; 1] 1] 100; LEVEL_UP 2].
Proof. vm_compute. repeat split. Qed.

Lemma level_follows_score_witness :
  reachable levelTwoGame /\
  level levelTwoGame = score levelTwoGame / LEVEL_UP_THRESHOLD + 1.
Proof.
  assert (Hr : reachable levelTwoGame) by (apply play_reachable, reachable_new; reflexivity).
  split; [exact Hr | exact (level_follows_score _ Hr)].
Defined.

(** *** C3: gravity *)

(** C3. After any update() call on a reachable engine, no empty cell lies
    below a filled cell in any column of the well. *)
Theorem update_leaves_no_floating_cells s :
  reachable s -> no_floating_cells (well (exec update s)).
Proof.
  intros Hs.
  assert (Hs' : Inv (exec update s)).
  { apply (reachable_Inv (perform CallUpdate s)). by apply reachable_call. }
  apply settled_no_floating; [apply (inv_shape _ Hs') | apply (inv_settled _ Hs')].
Qed.

(** Gravity at work: the update() of tick 2946 clears the bottom row under
    columns 0 to 3, and the tiles of columns 1 and 3 that lay on it come
    down. *)
Example update_clears_and_settles :
  well beforeHorizontalFour =
    [ [None; None; None; None; Some 0];
      [None; None; None; Some 0; Some 0];
      [None; None; None; None; None];
      [None; None; None; Some 2; Some 0];
      [None; None; None; None; None] ] /\
  events (exec update beforeHorizontalFour) =
    [ TILE_FALL 2 0;
      MATCH [InWell (mkWellMatch horizontal [(0, 4); (1, 4); (2, 4); (3, 4)] 0)] 300 ] /\
  well (exec update beforeHorizontalFour) =
    [ [None; None; None; None; None];
      [None; None; None; None; Some 0];
      [None; None; None; None; None];
      [None; None; None; None; Some 2];
      [None; None; None; None; None] ].
Proof. vm_compute. repeat split. Qed.

Lemma update_leaves_no_floating_cells_witness :
  reachable beforeHorizontalFour /\
  no_floating_cells (well (exec update beforeHorizontalFour)).
Proof.
  assert (Hr : reachable beforeHorizontalFour) by (apply play_reachable, reachable_new; reflexivity).
  split; [exact Hr | exact (update_leaves_no_floating_cells _ Hr)].
Defined.

(** *** C4 and C5: overflow *)

Lemma loseLife_exec reason s :
  loseLife reason s =
  (Normal tt,
   let s1 := set_events (events s ++ [LIFE_LOST (lives s - 1) reason])
               (set_lives (lives s - 1) s) in
   if lives s - 1 <=? 0
   then set_events (events s1 ++ [GAME_OVER (score s) (level s)])
          (set_gameOver true s1)
   else s1).
Proof.
  unfold loseLife, bind, modify, get, emit, ret. simpl.
  destruct (lives s - 1 <=? 0); reflexivity.
Qed.

(** [loseLife], followed by one more event. *)
Lemma loseLife_then_emit reason e s :
  life_lost reason [e] s (exec (bind (loseLife reason) (fun _ => emit e)) s) /\
  completion (bind (loseLife reason) (fun _ => emit e)) s = Normal tt /\
  rack (exec (bind (loseLife reason) (fun _ => emit e)) s) = rack s.
Proof.
  unfold life_lost, exec, completion, bind. rewrite loseLife_exec. simpl.
  destruct (lives s - 1 <=? 0); simpl; repeat split; try done.
  all: by rewrite <- ?app_assoc.
Qed.

Lemma rows_bottom_up : reverse (seqZ 0 WELL_ROWS) = [4; 3; 2; 1; 0].
Proof. reflexivity. Qed.

Ltac split_cells column :=
  repeat match goal with
  | |- context [match JS.index column ?k with _ => _ end] =>
      destruct (JS.index column k) as [[?|]|] eqn:?; try done
  end.

(** The search of [dropTileIntoWell] fails exactly on a column without an
    empty cell, and otherwise finds the lowest empty cell. *)
Lemma firstEmptyRow_None column :
  firstEmptyRow column (reverse (seqZ 0 WELL_ROWS)) = None <->
  (forall row, 0 <= row < WELL_ROWS -> JS.index column row <> Some None).
Proof.
  rewrite rows_bottom_up. unfold WELL_ROWS. split.
  - intros Hnone row Hrow.
    assert (Hr : row = 0 \/ row = 1 \/ row = 2 \/ row = 3 \/ row = 4) by lia.
    simpl in Hnone. revert Hnone. split_cells column; intros _;
      destruct Hr as [->|[->|[->|[->| ->]]]]; congruence.
  - intros Hfull. simpl.
    pose proof (Hfull 0 ltac:(lia)). pose proof (Hfull 1 ltac:(lia)).
    pose proof (Hfull 2 ltac:(lia)). pose proof (Hfull 3 ltac:(lia)).
    pose proof (Hfull 4 ltac:(lia)).
    by split_cells column.
Qed.

Lemma firstEmptyRow_Some column row :
  firstEmptyRow column (reverse (seqZ 0 WELL_ROWS)) = Some row <->
  lowest_empty_row column row.
Proof.
  rewrite rows_bottom_up. unfold lowest_empty_row, WELL_ROWS. split.
  - simpl. split_cells column; intros [= <-]; (split; [lia|]); (split; [done|]);
      intros row' Hrow';
      assert (Hr : row' = 1 \/ row' = 2 \/ row' = 3 \/ row' = 4) by lia;
      destruct Hr as [->|[->|[->| ->]]]; try lia; congruence.
  - intros (Hrow & Hempty & Hbelow).
    assert (Hr : row = 0 \/ row = 1 \/ row = 2 \/ row = 3 \/ row = 4) by lia.
    assert (H4 : row < 4 -> JS.index column 4 <> Some None)
      by (intros; apply Hbelow; lia).
    assert (H3 : row < 3 -> JS.index column 3 <> Some None)
      by (intros; apply Hbelow; lia).
    assert (H2 : row < 2 -> JS.index column 2 <> Some None)
      by (intros; apply Hbelow; lia).
    assert (H1 : row < 1 -> JS.index column 1 <> Some None)
      by (intros; apply Hbelow; lia).
    clear Hbelow Hrow. simpl.
    destruct Hr as [->|[->|[->|[->| ->]]]];
      repeat match goal with
      | H : _ < _ -> _ |- _ => first [ specialize (H ltac:(lia)) | clear H ]
      end;
      by split_cells column.
Qed.

Lemma dropTileIntoWell_full col colorIndex s :
  column_full (well s) col ->
  dropTileIntoWell col colorIndex s = loseLife "Well column full" s.
Proof.
  intros (column & Hcol & Hfull). unfold dropTileIntoWell, bind at 1, get.
  by rewrite Hcol, (proj2 (firstEmptyRow_None _) Hfull).
Qed.

Lemma dropTileIntoWell_place col colorIndex s column row :
  JS.index (well s) col = Some column ->
  lowest_empty_row column row ->
  dropTileIntoWell col colorIndex s =
    (Normal tt, set_well (setCell (well s) col row (Some colorIndex)) s).
Proof.
  intros Hcol Hrow. unfold dropTileIntoWell, bind at 1, get.
  by rewrite Hcol, (proj2 (firstEmptyRow_Some _ _) Hrow).
Qed.

(** Deciding the hypotheses of the overflow theorems on a given well. *)
Lemma column_full_by_search w col column :
  JS.index w col = Some column ->
  firstEmptyRow column (reverse (seqZ 0 WELL_ROWS)) = None ->
  column_full w col.
Proof.
  intros Hcol Hnone. exists column. split; [done|]. by apply firstEmptyRow_None.
Qed.

(** C4. A tile routed into a well column that has no empty cell, be it a
    conveyor tile falling at its own column or the rack's front entry
    dropped at the catcher's column, costs exactly one life, pushes a
    life-lost event with the reason of the source, 'Well column full'
    (followed by the game-over event when no life is left) and leaves the
    well as it was; and a falling tile whose colour is placed into the
    lowest empty cell of its column pushes a tile-fall event. *)
Theorem full_column_costs_a_life :
  (forall s tile,
     tile_column tile <> catcherColumn s ->
     column_full (well s) (tile_column tile) ->
     let s' := exec (handleTileReachedEnd tile) s in
     completion (handleTileReachedEnd tile) s = Normal tt /\
     life_lost "Well column full"
       [TILE_FALL (tile_column tile) (tile_colorIndex tile)] s s' /\
     rack s' = rack s) /\
  (forall s colorIndex rest,
     running s = true ->
     rack s = colorIndex :: rest ->
     column_full (well s) (catcherColumn s) ->
     let s' := exec dropFromRack s in
     completion dropFromRack s = Normal true /\
     life_lost "Well column full" [DROP (catcherColumn s) colorIndex] s s' /\
     rack s' = rest) /\
  (forall s tile column row,
     tile_column tile <> catcherColumn s ->
     JS.index (well s) (tile_column tile) = Some column ->
     lowest_empty_row column row ->
     let s' := exec (handleTileReachedEnd tile) s in
     completion (handleTileReachedEnd tile) s = Normal tt /\
     well s' = setCell (well s) (tile_column tile) row (Some (tile_colorIndex tile)) /\
     lives s' = lives s /\
     events s' = events s ++ [TILE_FALL (tile_column tile) (tile_colorIndex tile)]).
Proof.
  split; [|split].
  - intros s tile Hcol Hfull s'. subst s'.
    assert (Heq : handleTileReachedEnd tile s =
                  bind (loseLife "Well column full")
                    (fun _ => emit (TILE_FALL (tile_column tile) (tile_colorIndex tile))) s).
    { unfold handleTileReachedEnd, bind at 1, get.
      rewrite (proj2 (Z.eqb_neq _ _) Hcol).
      unfold bind. by rewrite dropTileIntoWell_full. }
    unfold exec, completion. rewrite Heq.
    destruct (loseLife_then_emit "Well column full"
                (TILE_FALL (tile_column tile) (tile_colorIndex tile)) s)
      as (? & ? & ?).
    done.
  - intros s colorIndex rest Hrun Hrack Hfull s'. subst s'.
    assert (Heq : dropFromRack s =
                  bind (loseLife "Well column full")
                    (fun _ => bind get (fun s' =>
                       bind (emit (DROP (catcherColumn s') colorIndex))
                         (fun _ => ret true)))
                    (set_rack rest s)).
    { unfold running in Hrun. unfold dropFromRack, bind at 1, get at 1.
      rewrite Hrun, Hrack. simpl. unfold bind at 1, modify.
      unfold bind at 1. by rewrite dropTileIntoWell_full. }
    unfold life_lost, exec, completion. rewrite Heq. unfold bind.
    rewrite loseLife_exec.
    simpl. destruct (lives s - 1 <=? 0); simpl; repeat split; try done.
    all: by rewrite <- ?app_assoc.
  - intros s tile column row Hcol Hcolumn Hrow s'. subst s'.
    assert (Heq : handleTileReachedEnd tile s =
                  bind (dropTileIntoWell (tile_column tile) (tile_colorIndex tile))
                    (fun _ => emit (TILE_FALL (tile_column tile) (tile_colorIndex tile))) s).
    { unfold handleTileReachedEnd, bind at 1, get.
      by rewrite (proj2 (Z.eqb_neq _ _) Hcol). }
    unfold exec, completion. rewrite Heq. unfold bind.
    by rewrite (dropTileIntoWell_place _ _ _ _ _ Hcolumn Hrow).
Qed.

Lemma handleTileReachedEnd_overflow tile s :
  tile_column tile = catcherColumn s ->
  RACK_CAPACITY <= JS.len (rack s) ->
  handleTileReachedEnd tile s = loseLife "Rack overflow" s.
Proof.
  intros Hcol Hfull. unfold handleTileReachedEnd, bind at 1, get.
  by rewrite (proj2 (Z.eqb_eq _ _) Hcol), (proj2 (Z.ltb_ge _ _) Hfull).
Qed.

(** C5. When a tile reaches the end of the conveyor at the catcher's column
    while the rack is full, the rack and the well are unchanged, lives drop
    by exactly one and a life-lost event with the reason of the source,
    'Rack overflow', is pushed (followed by the game-over event when no life
    is left); and in every reachable state the rack holds at most
    RACK_CAPACITY = 5 entries. *)
Theorem rack_overflow_costs_a_life :
  (forall s tile,
     tile_column tile = catcherColumn s ->
     RACK_CAPACITY <= JS.len (rack s) ->
     let s' := exec (handleTileReachedEnd tile) s in
     completion (handleTileReachedEnd tile) s = Normal tt /\
     life_lost "Rack overflow" [] s s' /\
     rack s' = rack s) /\
  (forall s, reachable s -> JS.len (rack s) <= RACK_CAPACITY).
Proof.
  split.
  - intros s tile Hcol Hfull s'. subst s'. unfold life_lost, exec, completion.
    rewrite handleTileReachedEnd_overflow, loseLife_exec by done. simpl.
    destruct (lives s - 1 <=? 0); simpl; repeat split; try done.
    all: by rewrite <- ?app_assoc, ?app_nil_r.
  - intros s Hs. apply (inv_rack_length s), reachable_Inv, Hs.
Qed.

(** *** C9: the catcher *)

(** C9. The catcher starts at column 2 on a fresh or reset engine.
    moveLeft / moveRight on a running engine whose catcher is off the
    bound on that side return true, bring the catcher column to the old
    one minus / plus one and leave every other field as it was;
    otherwise (paused, over, or at the bound) they return false and
    change nothing.  In every reachable state the catcher column lies in
    [0, 4]. *)
Theorem catcher_moves_within_the_well :
  (forall seed, catcherColumn (newGame seed) = 2) /\
  (forall s, catcherColumn (exec reset s) = 2) /\
  (forall s,
     running s = true -> 0 < catcherColumn s ->
     completion moveLeft s = Normal true /\
     catcherColumn (exec moveLeft s) = catcherColumn s - 1 /\
     besidesCatcher (exec moveLeft s) = besidesCatcher s) /\
  (forall s,
     running s = false \/ catcherColumn s <= 0 ->
     moveLeft s = (Normal false, s)) /\
  (forall s,
     running s = true -> catcherColumn s < WELL_COLS - 1 ->
     completion moveRight s = Normal true /\
     catcherColumn (exec moveRight s) = catcherColumn s + 1 /\
     besidesCatcher (exec moveRight s) = besidesCatcher s) /\
  (forall s,
     running s = false \/ WELL_COLS - 1 <= catcherColumn s ->
     moveRight s = (Normal false, s)) /\
  (forall s, reachable s -> 0 <= catcherColumn s <= 4).
Proof.
  split; [done|]. split; [done|].
  split; [|split; [|split; [|split]]].
  - intros s Hrun Hcol. unfold running in Hrun.
    apply Z.ltb_lt in Hcol.
    unfold completion, exec, moveLeft, bind, get, modify, ret.
    rewrite Hrun, Hcol. done.
  - intros s Hhalt. unfold moveLeft, bind, get, ret.
    destruct Hhalt as [Hrun | Hcol].
    + unfold running in Hrun. by rewrite Hrun.
    + apply Z.ltb_ge in Hcol. by rewrite Hcol, andb_false_r.
  - intros s Hrun Hcol. unfold running in Hrun.
    apply Z.ltb_lt in Hcol.
    unfold completion, exec, moveRight, bind, get, modify, ret.
    rewrite Hrun, Hcol. done.
  - intros s Hhalt. unfold moveRight, bind, get, ret.
    destruct Hhalt as [Hrun | Hcol].
    + unfold running in Hrun. by rewrite Hrun.
    + apply Z.ltb_ge in Hcol. by rewrite Hcol, andb_false_r.
  - intros s Hs. pose proof (inv_catcher s (reachable_Inv s Hs)).
    unfold WELL_COLS in *. lia.
Qed.

Lemma catcher_moves_within_the_well_witness :
  catcherColumn (newGame 1) = 2 /\
  (completion moveRight (newGame 1) = Normal true /\
   catcherColumn (exec moveRight (newGame 1)) = 3 /\
   besidesCatcher (exec moveRight (newGame 1)) = besidesCatcher (newGame 1)) /\
  catcherColumn (performAll [CallMoveRight; CallMoveRight] (newGame 1)) = 4 /\
  moveRight (performAll [CallMoveRight; CallMoveRight] (newGame 1)) =
    (Normal false, performAll [CallMoveRight; CallMoveRight] (newGame 1)) /\
  (completion moveLeft (newGame 1) = Normal true /\
   catcherColumn (exec moveLeft (newGame 1)) = 1 /\
   besidesCatcher (exec moveLeft (newGame 1)) = besidesCatcher (newGame 1)) /\
  moveLeft pausedAfterSpawn = (Normal false, pausedAfterSpawn) /\
  reachable (performAll [CallMoveRight; CallMoveRight; CallMoveRight] (newGame 1)) /\
  0 <= catcherColumn (performAll [CallMoveRight; CallMoveRight; CallMoveRight] (newGame 1)) <= 4.
Proof.
  destruct catcher_moves_within_the_well
    as (Hnew & _ & Hleft & Hleft' & Hright & Hright' & Hrange).
  assert (Hr : reachable (performAll [CallMoveRight; CallMoveRight; CallMoveRight] (newGame 1)))
    by (apply reachable_performAll, reachable_new; reflexivity).
  split; [exact (Hnew 1%float)|].
  split; [exact (Hright (newGame 1) eq_refl eq_refl)|].
  split; [reflexivity|].
  split; [apply Hright'; right; vm_compute; discriminate|].
  split; [exact (Hleft (newGame 1) eq_refl eq_refl)|].
  split; [apply Hleft'; left; vm_compute; reflexivity|].
  split; [exact Hr | exact (Hrange _ Hr)].
Defined.

(** *** C7 and C10: the rack *)

Lemma checkLevelUp_exec s :
  checkLevelUp s =
  (Normal tt,
   let newLevel := score s / LEVEL_UP_THRESHOLD + 1 in
   if level s <? newLevel
   then set_events (events s ++ [LEVEL_UP newLevel]) (set_level newLevel s)
   else s).
Proof.
  unfold checkLevelUp, bind, get, modify, emit, ret. simpl.
  by destruct (level s <? _).
Qed.

(** The events of one [checkLevelUp]: at most a level-up. *)
Lemma checkLevelUp_events s :
  exists ups : list Z,
    events (exec checkLevelUp s) = events s ++ (LEVEL_UP <$> ups) /\
    rack (exec checkLevelUp s) = rack s /\
    score (exec checkLevelUp s) = score s.
Proof.
  unfold exec. rewrite checkLevelUp_exec. simpl.
  destruct (level s <? _).
  - by exists [score s / LEVEL_UP_THRESHOLD + 1].
  - exists []. by rewrite app_nil_r.
Qed.

(** One round of [checkRackMatches] that finds a run. *)
Lemma checkRackMatches_rec_found fuel s start runLen color :
  3 <= JS.len (rack s) ->
  firstRackRun (rack s) (seqZ 0 (JS.len (rack s) - 3 + 1)) = Some (start, runLen, color) ->
  checkRackMatches_rec (S fuel) s =
  checkRackMatches_rec fuel
    (exec checkLevelUp
       (set_events
          (events s ++ [MATCH [InRack (JS.splice_removed (rack s) start runLen) color]
                          (matchPoints runLen)])
          (set_score (score s + matchPoints runLen)
             (set_rack (JS.splice_rest (rack s) start runLen) s)))).
Proof.
  intros Hlen Hscan. simpl. unfold bind at 1, get at 1.
  rewrite (proj2 (Z.ltb_ge _ _) Hlen), Hscan.
  unfold exec, bind, modify, emit. simpl. by rewrite checkLevelUp_exec.
Qed.

Lemma firstRackRun_two_triples A B :
  A <> B ->
  firstRackRun [A; A; A; B; B; B] (seqZ 0 (6 - 3 + 1)) = Some (0, 3, A).
Proof.
  intros HAB. cbv -[bool_decide].
  repeat (case_bool_decide; try congruence).
Qed.

Lemma firstRackRun_one_triple B :
  firstRackRun [B; B; B] (seqZ 0 (3 - 3 + 1)) = Some (0, 3, B).
Proof.
  cbv -[bool_decide].
  repeat (case_bool_decide; try congruence).
Qed.

(** C7. Rack matches cascade within one call: on a rack [A,A,A,B,B,B] with
    A <> B, checkRackMatches returns with the rack empty and the score
    raised by 100 + 100, having pushed one rack-match event of 100 points
    for each run (each possibly followed by a level-up event). *)
Theorem rack_matches_cascade s A B :
  A <> B ->
  rack s = [A; A; A; B; B; B] ->
  let s' := exec checkRackMatches s in
  completion checkRackMatches s = Normal tt /\
  rack s' = [] /\
  score s' = score s + (matchPoints 3 + matchPoints 3) /\
  matchPoints 3 = 100 /\
  exists ups1 ups2 : list Z,
    events s' =
      events s ++ MATCH [InRack [A; A; A] A] 100 :: (LEVEL_UP <$> ups1)
               ++ MATCH [InRack [B; B; B] B] 100 :: (LEVEL_UP <$> ups2).
Proof.
  intros HAB Hrack s'.
  (* first round: the run of A's *)
  set (s1 := exec checkLevelUp
               (set_events (events s ++ [MATCH [InRack [A; A; A] A] 100])
                  (set_score (score s + 100) (set_rack [B; B; B] s)))).
  assert (H1 : checkRackMatches s = checkRackMatches_rec 6 s1).
  { unfold checkRackMatches, bind, get. rewrite Hrack. cbn [length].
    rewrite (checkRackMatches_rec_found _ s 0 3 A);
      [ | by rewrite Hrack | by rewrite Hrack; apply firstRackRun_two_triples ].
    by rewrite Hrack. }
  destruct (checkLevelUp_events
              (set_events (events s ++ [MATCH [InRack [A; A; A] A] 100])
                 (set_score (score s + 100) (set_rack [B; B; B] s))))
    as (ups1 & Hev1 & Hrack1 & Hscore1).
  fold s1 in Hev1, Hrack1, Hscore1. simpl in Hev1, Hrack1, Hscore1.
  (* second round: the run of B's *)
  set (s2 := exec checkLevelUp
               (set_events (events s1 ++ [MATCH [InRack [B; B; B] B] 100])
                  (set_score (score s1 + 100) (set_rack [] s1)))).
  assert (H2 : checkRackMatches_rec 6 s1 = checkRackMatches_rec 5 s2).
  { rewrite (checkRackMatches_rec_found _ s1 0 3 B);
      [ | by rewrite Hrack1 | by rewrite Hrack1; apply firstRackRun_one_triple ].
    by rewrite Hrack1. }
  destruct (checkLevelUp_events
              (set_events (events s1 ++ [MATCH [InRack [B; B; B] B] 100])
                 (set_score (score s1 + 100) (set_rack [] s1))))
    as (ups2 & Hev2 & Hrack2 & Hscore2).
  fold s2 in Hev2, Hrack2, Hscore2. simpl in Hev2, Hrack2, Hscore2.
  (* third round: nothing is left *)
  assert (H3 : checkRackMatches_rec 5 s2 = (Normal tt, s2)).
  { simpl. unfold bind, get. by rewrite Hrack2. }
  subst s'. unfold exec, completion. rewrite H1, H2, H3. simpl.
  repeat split; try done.
  - rewrite Hscore2, Hscore1. change (matchPoints 3) with 100. lia.
  - exists ups1, ups2. rewrite Hev2, Hev1.
    by rewrite <- !app_assoc.
Qed.

(** C10. In every state reached through the public interface the rack
    contains no three adjacent entries of one colour, hence no run of
    three or more. *)
Theorem rack_has_no_run s : reachable s -> no_rack_run (rack s).
Proof. intros Hs. apply (inv_rack_runs s), reachable_Inv, Hs. Qed.

Lemma rack_has_no_run_witness :
  reachable beforeRackOverflow /\ no_rack_run (rack beforeRackOverflow).
Proof.
  split; [apply idleGame_reachable | apply rack_has_no_run, idleGame_reachable];
    reflexivity.
Defined.

Lemma rack_matches_cascade_witness :
  let s := set_rack [1; 1; 1; 2; 2; 2] (newGame 42) in
  1 <> 2 /\
  rack s = [1; 1; 1; 2; 2; 2] /\
  completion checkRackMatches s = Normal tt /\
  rack (exec checkRackMatches s) = [] /\
  score (exec checkRackMatches s) = score s + (matchPoints 3 + matchPoints 3).
Proof.
  cbv zeta.
  assert (H12 : 1 <> 2) by lia.
  assert (Hr : rack (set_rack [1; 1; 1; 2; 2; 2] (newGame 42)) = [1; 1; 1; 2; 2; 2])
    by reflexivity.
  destruct (rack_matches_cascade _ 1 2 H12 Hr) as (Hc & Hrack & Hscore & _).
  repeat split; assumption.
Defined.

Lemma rack_overflow_costs_a_life_witness :
  (tile_column tileAtCatcher = catcherColumn beforeRackOverflow /\
   RACK_CAPACITY <= JS.len (rack beforeRackOverflow) /\
   life_lost "Rack overflow" []
     beforeRackOverflow (exec (handleTileReachedEnd tileAtCatcher) beforeRackOverflow)) /\
  (reachable beforeRackOverflow /\ JS.len (rack beforeRackOverflow) <= RACK_CAPACITY).
Proof.
  destruct rack_overflow_costs_a_life as [Hover Hlen].
  assert (Hcol : tile_column tileAtCatcher = catcherColumn beforeRackOverflow)
    by (vm_compute; reflexivity).
  assert (Hfull : RACK_CAPACITY <= JS.len (rack beforeRackOverflow))
    by (vm_compute; discriminate).
  split.
  - split; [exact Hcol|]. split; [exact Hfull|].
    destruct (Hover _ _ Hcol Hfull) as (_ & Hlost & _). exact Hlost.
  - split; [apply idleGame_reachable | apply Hlen, idleGame_reachable]; reflexivity.
Defined.

Lemma beforeWellOverflow_column0_full :
  column_full (well beforeWellOverflow) 0.
Proof.
  apply column_full_by_search
    with (column := [Some 2; Some 1; Some 2; Some 0; Some 1]);
    vm_compute; reflexivity.
Qed.

Lemma catcherOverFullColumn_full :
  column_full (well catcherOverFullColumn) (catcherColumn catcherOverFullColumn).
Proof.
  apply column_full_by_search
    with (column := [Some 2; Some 1; Some 2; Some 0; Some 1]);
    vm_compute; reflexivity.
Qed.

Lemma full_column_costs_a_life_witness :
  (tile_column tileAtColumn0 <> catcherColumn beforeWellOverflow /\
   column_full (well beforeWellOverflow) (tile_column tileAtColumn0) /\
   life_lost "Well column full" [TILE_FALL 0 2]
     beforeWellOverflow (exec (handleTileReachedEnd tileAtColumn0) beforeWellOverflow)) /\
  (running catcherOverFullColumn = true /\
   rack catcherOverFullColumn = [0; 0] /\
   column_full (well catcherOverFullColumn) (catcherColumn catcherOverFullColumn) /\
   life_lost "Well column full" [DROP (catcherColumn catcherOverFullColumn) 0]
     catcherOverFullColumn (exec dropFromRack catcherOverFullColumn)) /\
  (tile_column tileAtColumn0 <> catcherColumn (newGame 42) /\
   JS.index (well (newGame 42)) 0 = Some [None; None; None; None; None] /\
   lowest_empty_row [None; None; None; None; None] 4 /\
   events (exec (handleTileReachedEnd tileAtColumn0) (newGame 42)) = [TILE_FALL 0 2]).
Proof.
  destruct full_column_costs_a_life as (Hfall & Hdrop & Hplace).
  split; [|split].
  - assert (Hcol : tile_column tileAtColumn0 <> catcherColumn beforeWellOverflow)
      by (vm_compute; discriminate).
    split; [exact Hcol|]. split; [exact beforeWellOverflow_column0_full|].
    destruct (Hfall _ _ Hcol beforeWellOverflow_column0_full) as (_ & Hlost & _).
    exact Hlost.
  - assert (Hrun : running catcherOverFullColumn = true) by (vm_compute; reflexivity).
    assert (Hrack : rack catcherOverFullColumn = [0; 0]) by (vm_compute; reflexivity).
    split; [exact Hrun|]. split; [exact Hrack|].
    split; [exact catcherOverFullColumn_full|].
    destruct (Hdrop _ _ _ Hrun Hrack catcherOverFullColumn_full) as (_ & Hlost & _).
    exact Hlost.
  - assert (Hcol : tile_column tileAtColumn0 <> catcherColumn (newGame 42))
      by (vm_compute; discriminate).
    assert (Hcolumn : JS.index (well (newGame 42)) 0 = Some [None; None; None; None; None])
      by reflexivity.
    assert (Hrow : lowest_empty_row [None; None; None; None; None] 4)
      by (apply firstEmptyRow_Some; reflexivity).
    split; [exact Hcol|]. split; [exact Hcolumn|]. split; [exact Hrow|].
    destruct (Hplace _ _ _ _ Hcol Hcolumn Hrow) as (_ & _ & _ & Hev). exact Hev.
Defined.

(** *** C6 and C8: the event buffer *)

Lemma update_unfold s :
  update s =
    if paused s || gameOver s then (Normal tt, s)
    else bind updateSpawning (fun _ => bind updateConveyor (fun _ => checkMatches))
           (set_events [] (set_frameCount (frameCount s + 1) s)).
Proof.
  unfold update, bind at 1 2 3, get, modify, ret.
  by destruct (paused s || gameOver s).
Qed.

Lemma running_false s : running s = false <-> paused s || gameOver s = true.
Proof. unfold running. by destruct (paused s), (gameOver s). Qed.

Lemma running_true s : running s = true <-> paused s || gameOver s = false.
Proof. unfold running. by destruct (paused s), (gameOver s). Qed.

Lemma update_halted s : running s = false -> update s = (Normal tt, s).
Proof. intros Hrun%running_false. by rewrite update_unfold, Hrun. Qed.

Lemma update_forgets_events old s :
  running s = true -> update (set_events old s) = update s.
Proof.
  intros Hrun%running_true. rewrite !update_unfold. simpl. by rewrite Hrun.
Qed.

Lemma pausedAfterSpawn_reachable : reachable pausedAfterSpawn.
Proof. apply reachable_performAll, reachable_new. reflexivity. Qed.

(** C6, as stated, fails: a call of update() on a paused engine leaves in
    the buffer the spawn event of an earlier tick, though the call itself
    generated no event. *)
Lemma paused_update_keeps_earlier_events :
  ~ (forall s, reachable s -> events (exec update s) = generatedBy update s).
Proof.
  intros Hall. specialize (Hall pausedAfterSpawn pausedAfterSpawn_reachable).
  vm_compute in Hall. discriminate Hall.
Qed.

(** C6, amended.  A call of update() on an engine that is neither paused
    nor over clears the event buffer and rebuilds it: afterwards the buffer
    holds exactly the events generated during that call, whatever it held
    before.  A call on a paused or finished engine returns at once and
    leaves the buffer, like every other field, as it was. *)
Theorem update_rebuilds_events_when_running s :
  (running s = true ->
     events (exec update s) = generatedBy update s /\
     forall old, exec update (set_events old s) = exec update s) /\
  (running s = false ->
     exec update s = s /\ generatedBy update s = []).
Proof.
  split; intros Hrun.
  - split.
    + unfold generatedBy, exec. by rewrite update_forgets_events.
    + intros old. unfold exec. by rewrite update_forgets_events.
  - split.
    + unfold exec. by rewrite update_halted.
    + unfold generatedBy, exec. by rewrite update_halted.
Qed.

Lemma update_rebuilds_events_when_running_witness :
  (running (idleGame 42 120) = true /\
   events (idleGame 42 120) = [TILE_SPAWN 0 2 4] /\
   events (exec update (idleGame 42 120)) = generatedBy update (idleGame 42 120) /\
   exec update (set_events [] (idleGame 42 120)) = exec update (idleGame 42 120) /\
   exec update (set_events [CATCH 1] (idleGame 42 120)) = exec update (idleGame 42 120)) /\
  (running pausedAfterSpawn = false /\ exec update pausedAfterSpawn = pausedAfterSpawn).
Proof.
  split.
  - assert (Hrun : running (idleGame 42 120) = true) by (vm_compute; reflexivity).
    split; [exact Hrun|].
    split; [vm_compute; reflexivity|].
    destruct (update_rebuilds_events_when_running (idleGame 42 120)) as [Hon _].
    destruct (Hon Hrun) as [Hev Hold].
    split; [exact Hev|]. split; [exact (Hold []) | exact (Hold [CATCH 1])].
  - assert (Hrun : running pausedAfterSpawn = false) by (vm_compute; reflexivity).
    split; [exact Hrun|].
    destruct (update_rebuilds_events_when_running pausedAfterSpawn) as [_ Hoff].
    destruct (Hoff Hrun) as [Hsame _]. exact Hsame.
Defined.

(** C8, as stated, fails: its only condition is that no update() comes
    between the two reads, but dropFromRack() writes the buffer too.  In
    the game of seed 7, right after the update that catches the first
    tile, the first read is the catch alone and the read after a
    dropFromRack() has the drop as well. *)
Lemma dropFromRack_between_two_reads :
  ~ (forall s0 c,
       reachable s0 -> c <> CallUpdate ->
       completion getEvents (perform c (exec update s0)) =
         completion getEvents (exec update s0)).
Proof.
  intros Hall.
  specialize (Hall (idleGame 7 185) CallDropFromRack).
  assert (Hr : reachable (idleGame 7 185)) by (apply idleGame_reachable; reflexivity).
  specialize (Hall Hr ltac:(discriminate)).
  vm_compute in Hall. discriminate Hall.
Qed.

(** C8, amended.  getEvents() is a pure read: it returns the contents of
    the event buffer and leaves the engine as it was, so a second read
    right after it returns an equal list, and so does a read after
    moveLeft(), moveRight() or togglePause(), which leave the buffer
    alone.  The other calls that write the buffer between two updates
    are dropFromRack() and reset(): a dropFromRack() that returns true
    appends its drop event (after the life-lost events of a full
    column), one that returns false changes nothing, and reset() empties
    the buffer. *)
Theorem getEvents_is_a_pure_read s :
  getEvents s = (Normal (events s), s) /\
  getEvents (exec getEvents s) = getEvents s /\
  events (exec moveLeft s) = events s /\
  events (exec moveRight s) = events s /\
  events (exec togglePause s) = events s /\
  (forall c rest column,
     running s = true -> rack s = c :: rest ->
     JS.index (well s) (catcherColumn s) = Some column ->
     exists lost,
       completion dropFromRack s = Normal true /\
       events (exec dropFromRack s) = events s ++ lost ++ [DROP (catcherColumn s) c]) /\
  (running s = false \/ rack s = [] -> dropFromRack s = (Normal false, s)) /\
  events (exec reset s) = [].
Proof.
  split; [done|]. split; [done|].
  split; [|split; [|split; [|split; [|split]]]].
  - unfold exec, moveLeft, bind, get, modify, ret. simpl. by destruct (_ && _).
  - unfold exec, moveRight, bind, get, modify, ret. simpl. by destruct (_ && _).
  - unfold exec, togglePause, bind, get, modify, ret. simpl. by destruct (negb _).
  - intros c rest column Hrun Hrack Hcol. unfold running in Hrun.
    assert (Hstart : dropFromRack s =
              bind (dropTileIntoWell (catcherColumn s) c)
                (fun _ => bind get (fun s' =>
                   bind (emit (DROP (catcherColumn s') c)) (fun _ => ret true)))
                (set_rack rest s)).
    { unfold dropFromRack, bind at 1, get at 1. rewrite Hrun, Hrack. simpl.
      unfold bind at 1, modify. reflexivity. }
    unfold completion, exec. rewrite Hstart. unfold bind.
    destruct (firstEmptyRow column (reverse (seqZ 0 WELL_ROWS))) as [row|] eqn:Hrow.
    + exists [].
      rewrite (dropTileIntoWell_place _ _ _ column row)
        by (done || by apply firstEmptyRow_Some).
      done.
    + rewrite dropTileIntoWell_full
        by (by apply (column_full_by_search _ _ column)).
      rewrite loseLife_exec. unfold modify, get, emit, ret.
      destruct (lives (set_rack rest s) - 1 <=? 0) eqn:Hlast; simpl.
      * exists [LIFE_LOST (lives s - 1) "Well column full"; GAME_OVER (score s) (level s)].
        split; [done|]. simpl. by rewrite <- !app_assoc.
      * exists [LIFE_LOST (lives s - 1) "Well column full"].
        split; [done|]. simpl. by rewrite <- !app_assoc.
  - intros [Hrun | Hrack].
    + unfold running in Hrun. unfold dropFromRack, bind, get, ret. by rewrite Hrun.
    + unfold dropFromRack, bind, get, ret. rewrite Hrack. by destruct (_ && _).
  - done.
Qed.

Lemma getEvents_is_a_pure_read_witness :
  completion getEvents afterFirstCatch = Normal [CATCH 1] /\
  getEvents (exec getEvents afterFirstCatch) = getEvents afterFirstCatch /\
  events (exec moveLeft afterFirstCatch) = [CATCH 1] /\
  (exists lost,
     completion dropFromRack afterFirstCatch = Normal true /\
     events (exec dropFromRack afterFirstCatch) = [CATCH 1] ++ lost ++ [DROP 2 1]) /\
  events (exec reset afterFirstCatch) = [].
Proof.
  destruct (getEvents_is_a_pure_read afterFirstCatch)
    as (Hread & Htwice & Hleft & _ & _ & Hdrop & _ & Hreset).
  assert (Hev : events afterFirstCatch = [CATCH 1]) by (vm_compute; reflexivity).
  assert (Hc : catcherColumn afterFirstCatch = 2) by (vm_compute; reflexivity).
  split; [unfold completion; rewrite Hread, Hev; reflexivity|].
  split; [exact Htwice|].
  split; [rewrite Hleft; exact Hev|].
  split; [|exact Hreset].
  destruct (Hdrop 1 [] [None; None; None; None; None]) as (lost & Hret & Hevents);
    [vm_compute; reflexivity..|].
  exists lost. split; [exact Hret|]. rewrite Hevents, Hev, Hc. reflexivity.
Defined.

(** The scenario of the specification: from column 2, moveRight() reaches
    column 3 and returns true; at column 4 it returns false and the catcher
    stays. *)
Example moveRight_scenario :
  moveRight (newGame 1) = (Normal true, set_catcherColumn 3 (newGame 1)) /\
  catcherColumn (performAll [CallMoveRight; CallMoveRight] (newGame 1)) = 4 /\
  moveRight (performAll [CallMoveRight; CallMoveRight] (newGame 1)) =
    (Normal false, performAll [CallMoveRight; CallMoveRight] (newGame 1)).
Proof. repeat split. Qed.

(* ===================================================================== *)
(** ** The loop bounds are never reached *)

(** A [while] loop whose condition fails from [bound] on stops by its
    condition within [bound - n] rounds: more fuel changes nothing. *)
Lemma count_while_enough fuel fuel' cond n bound :
  (forall k, bound <= k -> cond k = false) ->
  (Z.to_nat (bound - n) <= fuel)%nat -> (Z.to_nat (bound - n) <= fuel')%nat ->
  JS.count_while fuel cond n = JS.count_while fuel' cond n /\
  cond (JS.count_while fuel cond n) = false.
Proof.
  intros Hbound. revert fuel' n.
  induction fuel as [|fuel IH]; intros fuel' n Hfuel Hfuel'.
  - assert (Hn : cond n = false) by (apply Hbound; lia).
    destruct fuel'; simpl; rewrite ?Hn; done.
  - simpl. destruct (cond n) eqn:Hn.
    + assert (n < bound).
      { destruct (Z.lt_ge_cases n bound); [done|]. rewrite Hbound in Hn; [done|lia]. }
      destruct fuel' as [|fuel']; [lia|]. simpl. rewrite Hn.
      apply IH; lia.
    + destruct fuel'; simpl; rewrite ?Hn; done.
Qed.

Lemma rackRunLength_enough rack start color fuel :
  0 <= start -> (length rack <= fuel)%nat ->
  JS.count_while fuel
    (fun n => (start + n <? JS.len rack)
              && bool_decide (JS.index rack (start + n) = Some color)) 1
  = rackRunLength rack start color.
Proof.
  intros Hstart Hfuel. unfold rackRunLength.
  apply (count_while_enough _ _ _ _ (JS.len rack)).
  - intros k Hk. rewrite (proj2 (Z.ltb_ge _ _)); [done | lia].
  - unfold JS.len. lia.
  - unfold JS.len. lia.
Qed.

Lemma scanHorizontal_enough fuel fuel' w row col matches :
  (Z.to_nat (WELL_COLS - 2 - col) <= fuel)%nat ->
  (Z.to_nat (WELL_COLS - 2 - col) <= fuel')%nat ->
  scanHorizontal fuel w row col matches = scanHorizontal fuel' w row col matches.
Proof.
  revert fuel' col matches.
  induction fuel as [|fuel IH]; intros fuel' col matches Hfuel Hfuel'.
  - assert (Hcol : (col <=? WELL_COLS - 3) = false)
      by (apply Z.leb_gt; unfold WELL_COLS in *; lia).
    destruct fuel'; simpl; rewrite ?Hcol; done.
  - destruct fuel' as [|fuel'].
    + assert (Hcol : (col <=? WELL_COLS - 3) = false)
        by (apply Z.leb_gt; unfold WELL_COLS in *; lia).
      simpl. by rewrite Hcol.
    + simpl. destruct (col <=? WELL_COLS - 3) eqn:Hcol; [|done].
      apply Z.leb_le in Hcol.
      destruct (cellAt w col row) as [color|]; [|apply IH; unfold WELL_COLS in *; lia].
      destruct (3 <=? _) eqn:Hrun; [|apply IH; unfold WELL_COLS in *; lia].
      apply Z.leb_le in Hrun. apply IH; unfold WELL_COLS in *; lia.
Qed.

Lemma scanVertical_enough fuel fuel' w col row matches :
  (Z.to_nat (WELL_ROWS - 2 - row) <= fuel)%nat ->
  (Z.to_nat (WELL_ROWS - 2 - row) <= fuel')%nat ->
  scanVertical fuel w col row matches = scanVertical fuel' w col row matches.
Proof.
  revert fuel' row matches.
  induction fuel as [|fuel IH]; intros fuel' row matches Hfuel Hfuel'.
  - assert (Hrow : (row <=? WELL_ROWS - 3) = false)
      by (apply Z.leb_gt; unfold WELL_ROWS in *; lia).
    destruct fuel'; simpl; rewrite ?Hrow; done.
  - destruct fuel' as [|fuel'].
    + assert (Hrow : (row <=? WELL_ROWS - 3) = false)
        by (apply Z.leb_gt; unfold WELL_ROWS in *; lia).
      simpl. by rewrite Hrow.
    + simpl. destruct (row <=? WELL_ROWS - 3) eqn:Hrow; [|done].
      apply Z.leb_le in Hrow.
      destruct (cellAt w col row) as [color|]; [|apply IH; unfold WELL_ROWS in *; lia].
      destruct (3 <=? _) eqn:Hrun; [|apply IH; unfold WELL_ROWS in *; lia].
      apply Z.leb_le in Hrun. apply IH; unfold WELL_ROWS in *; lia.
Qed.

(** The recursion of [checkRackMatches] ends before its bound: any bound
    above the length of the rack gives the same run. *)
Lemma checkRackMatches_rec_enough fuel fuel' s :
  (length (rack s) < fuel)%nat -> (length (rack s) < fuel')%nat ->
  checkRackMatches_rec fuel s = checkRackMatches_rec fuel' s.
Proof.
  revert fuel' s.
  induction fuel as [|fuel IH]; intros fuel' s Hfuel Hfuel'; [lia|].
  destruct fuel' as [|fuel']; [lia|].
  destruct (JS.len (rack s) <? 3) eqn:Hshort.
  { simpl. unfold bind, get. by rewrite Hshort. }
  apply Z.ltb_ge in Hshort.
  destruct (firstRackRun (rack s) (seqZ 0 (JS.len (rack s) - 3 + 1)))
    as [[[start runLen] color]|] eqn:Hscan.
  2:{ simpl. unfold bind, get. by rewrite (proj2 (Z.ltb_ge _ _) Hshort), Hscan. }
  rewrite !(checkRackMatches_rec_found _ s start runLen color) by done.
  apply firstRackRun_Some in Hscan as [[Hstart Hstart']%elem_of_seqZ Hrun].
  pose proof (splice_rest_length (rack s) start runLen ltac:(lia) ltac:(lia) Hrun) as Hsp.
  destruct (checkLevelUp_events
              (set_events
                 (events s ++ [MATCH [InRack (JS.splice_removed (rack s) start runLen) color]
                                 (matchPoints runLen)])
                 (set_score (score s + matchPoints runLen)
                    (set_rack (JS.splice_rest (rack s) start runLen) s))))
    as (ups & _ & Hrack & _).
  simpl in Hrack. unfold JS.len in Hsp.
  apply IH; rewrite Hrack; lia.
Qed.

(** The run-length loops of the well scans: the condition of each has a
    bounds test that fails from [WELL_COLS] on (for columns and rows of the
    grid), so five rounds are enough. *)
Lemma well_run_enough fuel (inGrid sameColor : Z -> bool) :
  (forall k, WELL_COLS <= k -> inGrid k = false) ->
  (Z.to_nat WELL_COLS <= fuel)%nat ->
  JS.count_while fuel (fun n => inGrid n && sameColor n) 1
  = JS.count_while (Z.to_nat WELL_COLS) (fun n => inGrid n && sameColor n) 1.
Proof.
  intros Hgrid Hfuel.
  apply (count_while_enough _ _ _ _ WELL_COLS).
  - intros k Hk. by rewrite Hgrid.
  - unfold WELL_COLS in *. lia.
  - unfold WELL_COLS. lia.
Qed.

(* ===================================================================== *)
(** ** The horizontal and the vertical scan *)
(* ===================================================================== *)

Lemma scanHorizontal_scanLine fuel w row col matches :
  scanHorizontal fuel w row col matches =
  scanLine fuel (fun col => cellAt w col row) (horizontalMatch row) col matches.
Proof.
  revert col matches. induction fuel as [|fuel IH]; intros col matches; simpl; [done|].
  change (WELL_COLS - 3) with (5 - 3). destruct (col <=? 5 - 3); [|done].
  destruct (cellAt w col row) as [color|]; [|apply IH].
  change (Z.to_nat WELL_COLS) with 5%nat. change WELL_COLS with 5.
  destruct (3 <=? _); apply IH.
Qed.

Lemma scanVertical_scanLine fuel w col row matches :
  scanVertical fuel w col row matches =
  scanLine fuel (fun row => cellAt w col row) (verticalMatch col) row matches.
Proof.
  revert row matches. induction fuel as [|fuel IH]; intros row matches; simpl; [done|].
  change (WELL_ROWS - 3) with (5 - 3). destruct (row <=? 5 - 3); [|done].
  destruct (cellAt w col row) as [color|]; [|apply IH].
  change (Z.to_nat WELL_ROWS) with 5%nat. change WELL_ROWS with 5.
  destruct (3 <=? _); apply IH.
Qed.

Lemma scanLine_app fuel cell report pos matches :
  scanLine fuel cell report pos matches =
  matches ++ scanLine fuel cell report pos [].
Proof.
  revert pos matches. induction fuel as [|fuel IH]; intros pos matches; simpl.
  - by rewrite app_nil_r.
  - destruct (pos <=? 5 - 3); [|by rewrite app_nil_r].
    destruct (cell pos) as [color|]; [|apply IH].
    destruct (3 <=? _); [|apply IH].
    rewrite (IH _ (matches ++ _)), (IH _ [_]). by rewrite <- app_assoc.
Qed.

(** The cells the [while] loop has passed satisfy its condition. *)
Lemma count_while_passed fuel cond n k :
  n <= k < JS.count_while fuel cond n -> cond k = true.
Proof.
  revert n. induction fuel as [|fuel IH]; intros n Hk; simpl in Hk; [lia|].
  destruct (cond n) eqn:Hn; [|lia].
  destruct (Z.eq_dec k n) as [->|]; [done|]. apply (IH (n + 1)). lia.
Qed.

(** The run the scans measure from [pos]: it extends as far as the colour
    does. *)
Lemma run_from (cell : Z -> Cell) pos (color : Z) :
  0 <= pos < 5 ->
  cell pos = Some color ->
  let runLen :=
    JS.count_while 5
      (fun n => (pos + n <? 5) && bool_decide (cell (pos + n) = Some color)) 1 in
  1 <= runLen /\ pos + runLen <= 5 /\
  (forall i, pos <= i < pos + runLen -> cell i = Some color) /\
  (pos + runLen < 5 -> cell (pos + runLen) <> Some color).
Proof.
  intros Hpos Hcell runLen.
  set (cond := fun n => (pos + n <? 5) && bool_decide (cell (pos + n) = Some color)) in *.
  assert (Hge : 1 <= runLen) by apply count_while_ge.
  assert (Hpassed : forall k, 1 <= k < runLen -> cond k = true)
    by (intros k Hk; by apply (count_while_passed 5 cond 1)).
  destruct (count_while_enough 5 5 cond 1 5) as [_ Hstop].
  { intros k Hk. unfold cond. rewrite (proj2 (Z.ltb_ge _ _)); [done|lia]. }
  { lia. } { lia. }
  fold runLen in Hstop.
  assert (Hle : pos + runLen <= 5).
  { destruct (Z.le_gt_cases runLen 1) as [|Hgt]; [lia|].
    specialize (Hpassed (runLen - 1) ltac:(lia)). unfold cond in Hpassed.
    apply andb_true_iff in Hpassed as [?%Z.ltb_lt _]. lia. }
  repeat split; try done.
  - intros i Hi. destruct (Z.eq_dec i pos) as [->|]; [done|].
    specialize (Hpassed (i - pos) ltac:(lia)). unfold cond in Hpassed.
    apply andb_true_iff in Hpassed as [_ Hc%bool_decide_eq_true].
    by replace (pos + (i - pos)) with i in Hc by lia.
  - intros Hlt Hc. unfold cond in Hstop.
    rewrite (proj2 (Z.ltb_lt _ _) Hlt), bool_decide_eq_true_2 in Hstop; done.
Qed.

Section LineScan.
Variable cell : Z -> Cell.
Variable report : Z -> Z -> Z -> WellMatch.

Lemma left_end pos color :
  0 <= pos -> cell pos = Some color ->
  exists start,
    0 <= start <= pos /\
    (forall i, start <= i <= pos -> cell i = Some color) /\
    (0 < start -> cell (start - 1) <> Some color).
Proof.
  intros Hpos. remember (Z.to_nat pos) as n eqn:Hn. revert pos Hpos Hn.
  induction n as [|n IH]; intros pos Hpos Hn Hcell.
  - exists pos. repeat split; try lia.
    intros i Hi. by replace i with pos by lia.
  - destruct (decide (cell (pos - 1) = Some color)) as [Hprev|Hprev].
    + destruct (IH (pos - 1) ltac:(lia) ltac:(lia) Hprev) as (start & Hs & Hcells & Hleft).
      exists start. repeat split; try lia; [|done].
      intros i Hi. destruct (Z.eq_dec i pos) as [->|]; [done|]. apply Hcells. lia.
    + exists pos. repeat split; try lia; [|done].
      intros i Hi. by replace i with pos by lia.
Qed.

(** A run found at a position no run reaches across is a maximal run. *)
Lemma found_run_maximal pos color runLen :
  0 <= pos < 5 -> no_run_across cell pos ->
  cell pos = Some color ->
  runLen = JS.count_while 5
             (fun n => (pos + n <? 5) && bool_decide (cell (pos + n) = Some color)) 1 ->
  3 <= runLen ->
  maximal_run cell 5 pos runLen color.
Proof.
  intros Hpos Hinv Hcell -> Hlen.
  destruct (run_from cell pos color Hpos Hcell) as (H1 & Hle & Hcells & Hright).
  set (runLen := JS.count_while _ _ _) in *.
  repeat split; try lia; try done.
  intros Hpos0 Hprev.
  destruct (left_end (pos - 1) color ltac:(lia) Hprev) as (start & Hs & Hl & Hleft).
  assert (Hmax : maximal_run cell 5 start (pos + runLen - start) color).
  { repeat split; try lia; try done.
    - intros i Hi. destruct (Z.lt_ge_cases i pos); [apply Hl | apply Hcells]; lia.
    - replace (start + (pos + runLen - start)) with (pos + runLen) by lia. done. }
  assert (Hthree : 3 <= pos + runLen - start) by lia.
  specialize (Hinv start _ color Hthree Hmax ltac:(lia)). lia.
Qed.

(** A maximal run that begins inside a found run is that run. *)
Lemma run_inside pos color runLen start len color' :
  0 <= pos < 5 ->
  cell pos = Some color ->
  runLen = JS.count_while 5
             (fun n => (pos + n <? 5) && bool_decide (cell (pos + n) = Some color)) 1 ->
  maximal_run cell 5 start len color' ->
  pos <= start < pos + runLen ->
  start = pos /\ len = runLen /\ color' = color.
Proof.
  intros Hpos Hcell -> (Hs0 & Hlen0 & Hle & Hcells' & Hleft & Hright') Hin.
  destruct (run_from cell pos color Hpos Hcell) as (H1 & Hle' & Hcells & Hright).
  set (runLen := JS.count_while _ _ _) in *.
  assert (color' = color) as ->.
  { pose proof (Hcells' start ltac:(lia)). pose proof (Hcells start ltac:(lia)).
    congruence. }
  assert (start = pos) as ->.
  { destruct (Z.eq_dec start pos); [done|].
    exfalso. apply Hleft; [lia|]. apply Hcells. lia. }
  repeat split.
  destruct (Z.lt_trichotomy len runLen) as [Hlt|[Heq|Hgt]]; [|done|].
  - exfalso. apply Hright'; [lia|]. apply Hcells. lia.
  - exfalso. apply Hright; [lia|]. apply Hcells'. lia.
Qed.

Lemma scanLine_S fuel pos matches :
  scanLine (S fuel) cell report pos matches =
  if pos <=? 5 - 3 then
    match cell pos with
    | None => scanLine fuel cell report (pos + 1) matches
    | Some color =>
        let runLen :=
          JS.count_while 5
            (fun n => (pos + n <? 5) && bool_decide (cell (pos + n) = Some color))
            1 in
        if 3 <=? runLen then
          scanLine fuel cell report (pos + (runLen - 1) + 1)
            (matches ++ [report pos runLen color])
        else scanLine fuel cell report (pos + 1) matches
    end
  else matches.
Proof. done. Qed.

(** From a position no run reaches across, the scan reports the maximal
    runs of three or more that begin there or later, each one once. *)
Lemma scanLine_runs fuel pos :
  0 <= pos -> (Z.to_nat (3 - pos) <= fuel)%nat -> no_run_across cell pos ->
  exists runs,
    scanLine fuel cell report pos [] = reportRuns report runs /\
    NoDup runs /\
    forall start len color,
      (start, len, color) ∈ runs <->
      pos <= start /\ 3 <= len /\ maximal_run cell 5 start len color.
Proof.
  revert pos. induction fuel as [|fuel IH]; intros pos Hpos Hfuel Hinv.
  - exists []. split; [done|]. split; [constructor|].
    intros start len color. rewrite elem_of_nil.
    split; [done|]. intros (? & ? & ? & ? & ? & _). lia.
  - rewrite scanLine_S. destruct (Z.leb_spec pos (5 - 3)) as [Hle|Hgt]; cycle 1.
    { exists []. split; [done|]. split; [constructor|].
      intros start len color. rewrite elem_of_nil.
      split; [done|]. intros (? & ? & ? & ? & ? & _). lia. }
    destruct (cell pos) as [color|] eqn:Hcell.
    + pose proof (run_from cell pos color ltac:(lia) Hcell) as Hrun.
      cbv zeta in Hrun |- *.
      remember (JS.count_while 5 _ 1) as runLen eqn:HrunLen.
      destruct Hrun as (H1 & Hend & Hcells & Hright).
      destruct (Z.leb_spec 3 runLen) as [Hthree|Hshort].
      * assert (Hmax : maximal_run cell 5 pos runLen color)
          by (apply found_run_maximal; [lia|done..]).
        destruct (IH (pos + (runLen - 1) + 1)) as (runs & Hscan & Hnodup & Hruns).
        { lia. } { lia. }
        { intros start len color' Hlen Hrun Hstart.
          destruct (Z.lt_ge_cases start pos) as [Hlt|Hge].
          { specialize (Hinv start len color' Hlen Hrun Hlt). lia. }
          destruct (run_inside pos color runLen start len color'
                      ltac:(lia) Hcell HrunLen Hrun ltac:(lia))
            as (-> & -> & _).
          lia. }
        exists ((pos, runLen, color) :: runs).
        rewrite scanLine_app, Hscan. split; [done|]. split.
        { constructor; [|done]. rewrite Hruns. lia. }
        intros start len color'. rewrite elem_of_cons, Hruns. split.
        { intros [[= -> -> ->]|(? & ? & ?)]; [split; [lia|done] | split; [lia|done]]. }
        intros (Hstart & Hlen & Hrun).
        destruct (Z.lt_ge_cases start (pos + runLen)) as [Hlt|Hge];
          [left | right; split; [lia|done]].
        by destruct (run_inside pos color runLen start len color'
                       ltac:(lia) Hcell HrunLen Hrun ltac:(lia))
          as (-> & -> & ->).
      * assert (Hnone : forall start len color',
                  3 <= len -> maximal_run cell 5 start len color' -> start <> pos).
        { intros start len color' Hlen Hrun ->.
          destruct (run_inside pos color runLen pos len color'
                      ltac:(lia) Hcell HrunLen Hrun ltac:(lia))
            as (_ & Hsame & _).
          lia. }
        destruct (IH (pos + 1)) as (runs & Hscan & Hnodup & Hruns).
        { lia. } { lia. }
        { intros start len color' Hlen Hrun Hstart.
          pose proof (Hnone _ _ _ Hlen Hrun).
          specialize (Hinv start len color' Hlen Hrun ltac:(lia)). lia. }
        exists runs. split; [done|]. split; [done|].
        intros start len color'. rewrite Hruns. split.
        { intros (? & ? & ?). split; [lia|done]. }
        intros (? & Hlen & Hrun). pose proof (Hnone _ _ _ Hlen Hrun).
        split; [lia|done].
    + assert (Hnone : forall start len color',
                maximal_run cell 5 start len color' -> start <> pos).
      { intros start len color' (? & ? & ? & Hcells & _) ->.
        specialize (Hcells pos ltac:(lia)). congruence. }
      destruct (IH (pos + 1)) as (runs & Hscan & Hnodup & Hruns).
      { lia. } { lia. }
      { intros start len color' Hlen Hrun Hstart.
        pose proof (Hnone _ _ _ Hrun).
        specialize (Hinv start len color' Hlen Hrun ltac:(lia)). lia. }
      exists runs. split; [done|]. split; [done|].
      intros start len color'. rewrite Hruns. split.
      { intros (? & ? & ?). split; [lia|done]. }
      intros (? & Hlen & Hrun). pose proof (Hnone _ _ _ Hrun).
      split; [lia|done].
Qed.

(** The scan of a whole line reports exactly its maximal runs of three or
    more, each one once. *)
Lemma scanLine_exact :
  exists runs,
    scanLine 5 cell report 0 [] = reportRuns report runs /\
    NoDup runs /\
    forall start len color,
      (start, len, color) ∈ runs <->
      3 <= len /\ maximal_run cell 5 start len color.
Proof.
  destruct (scanLine_runs 5 0) as (runs & Hscan & Hnodup & Hruns); [lia|simpl; lia| |].
  { intros start len color _ (? & _) ?. lia. }
  exists runs. split; [done|]. split; [done|].
  intros start len color. rewrite Hruns. split; [tauto|].
  intros (? & Hrun). split; [|done]. destruct Hrun as (? & _). lia.
Qed.
End LineScan.

(** X1.  The horizontal scan of a row reports exactly the maximal runs of
    three or more of that row, each one once and over its full length. *)
Theorem horizontal_scan_exact (w : Well) (row : Z) :
  exists runs,
    scanHorizontal (Z.to_nat WELL_COLS) w row 0 [] =
      reportRuns (horizontalMatch row) runs /\
    NoDup runs /\
    forall start len color,
      (start, len, color) ∈ runs <->
      3 <= len /\
      maximal_run (fun col => cellAt w col row) WELL_COLS start len color.
Proof. rewrite scanHorizontal_scanLine. apply scanLine_exact. Qed.

(** X2.  The vertical scan of a column reports exactly the maximal runs of
    three or more of that column, each one once and over its full length. *)
Theorem vertical_scan_exact (w : Well) (col : Z) :
  exists runs,
    scanVertical (Z.to_nat WELL_ROWS) w col 0 [] =
      reportRuns (verticalMatch col) runs /\
    NoDup runs /\
    forall start len color,
      (start, len, color) ∈ runs <->
      3 <= len /\
      maximal_run (fun row => cellAt w col row) WELL_ROWS start len color.
Proof. rewrite scanVertical_scanLine. apply scanLine_exact. Qed.

(* ===================================================================== *)
(** ** Gravity *)
(* ===================================================================== *)

Lemma gravity_column_tiles column :
  length column = Z.to_nat WELL_ROWS ->
  columnTiles (rebuildColumn (compactColumn column) column) = columnTiles column.
Proof.
  intros Hlen. five column.
  destruct c, c0, c1, c2, c3; reflexivity.
Qed.

Lemma gravity_column_fixed column :
  length column = Z.to_nat WELL_ROWS -> columnSettled column = true ->
  rebuildColumn (compactColumn column) column = column.
Proof.
  intros Hlen Hset. five column.
  destruct c, c0, c1, c2, c3; try discriminate Hset; reflexivity.
Qed.

Lemma set_well_same s : set_well (well s) s = s.
Proof. by destruct s. Qed.

(** X3.  [applyGravity()] on a 5 x 5 well changes nothing but the well; it
    leaves every column settled (its tiles at the bottom) and with the same
    tiles in the same order from top to bottom. *)
Theorem gravity_keeps_the_tiles_of_each_column s :
  well_shaped (well s) ->
  exists w',
    applyGravity s = (Normal tt, set_well w' s) /\
    well_shaped w' /\ well_settled w' /\
    columnTiles <$> w' = columnTiles <$> well s.
Proof.
  intros [Hlen Hcols].
  exists ((fun column => rebuildColumn (compactColumn column) column) <$> well s).
  split; [|split; [|split]].
  - unfold applyGravity, modify. by rewrite gravity_columns.
  - split; [by rewrite length_fmap|].
    apply Forall_fmap. eapply Forall_impl; [exact Hcols|].
    intros column Hc. simpl. by apply gravity_column_settled.
  - apply Forall_fmap. eapply Forall_impl; [exact Hcols|].
    intros column Hc. simpl. by apply gravity_column_settled.
  - rewrite <- list_fmap_compose. apply Forall_fmap_ext.
    eapply Forall_impl; [exact Hcols|].
    intros column Hc. simpl. by apply gravity_column_tiles.
Qed.

Lemma gravity_keeps_the_tiles_of_each_column_witness :
  exists w',
    applyGravity (set_well floatingWell (newGame 5)) =
      (Normal tt, set_well w' (set_well floatingWell (newGame 5))) /\
    well_shaped w' /\ well_settled w' /\
    columnTiles <$> w' = [[1; 0]; []; [4]; [2; 2; 3]; []].
Proof.
  apply (gravity_keeps_the_tiles_of_each_column (set_well floatingWell (newGame 5))).
  split; [reflexivity | repeat constructor].
Defined.

(** X4.  On a 5 x 5 well without floating cells [applyGravity()] changes
    nothing at all; so applying it twice is the same as applying it once. *)
Theorem gravity_leaves_a_settled_well s :
  well_shaped (well s) ->
  (well_settled (well s) -> applyGravity s = (Normal tt, s)) /\
  exec applyGravity (exec applyGravity s) = exec applyGravity s.
Proof.
  intros [Hlen Hcols].
  assert (Hfix : forall s, well_shaped (well s) -> well_settled (well s) ->
                           applyGravity s = (Normal tt, s)).
  { clear. intros s [Hlen Hcols] Hset.
    unfold applyGravity, modify. rewrite gravity_columns by done.
    rewrite <- (set_well_same s) at 3. do 2 f_equal.
    rewrite <- (list_fmap_id (well s)) at 2. apply Forall_fmap_ext.
    unfold well_settled in Hset. rewrite Forall_forall in *. intros column Hin.
    simpl. by apply gravity_column_fixed; [apply Hcols | apply Hset]. }
  split; [by apply Hfix|].
  pose proof (applyGravity_settles s (conj Hlen Hcols)) as Hs.
  unfold wp in Hs. unfold exec at 2 3.
  destruct (applyGravity s) as [[[]|] s1]; [|done]. simpl.
  destruct Hs as (Hsh & Hse & _). unfold exec. by rewrite Hfix.
Qed.

Lemma gravity_leaves_a_settled_well_witness :
  applyGravity beforeDiagonalFour = (Normal tt, beforeDiagonalFour) /\
  exec applyGravity (exec applyGravity beforeDiagonalFour) =
    exec applyGravity beforeDiagonalFour.
Proof.
  destruct (gravity_leaves_a_settled_well beforeDiagonalFour) as [Hfix Htwice].
  - vm_compute. split; [reflexivity | repeat constructor].
  - split; [apply Hfix | exact Htwice]. vm_compute. repeat constructor.
Defined.

(* ===================================================================== *)
(** ** The engine as a state machine *)
(* ===================================================================== *)

(** X5.  Once the game is over, every public call but [reset()] leaves the
    engine exactly as it is, and the player actions return [false]. *)
Theorem game_over_is_final s c :
  gameOver s = true -> c <> CallReset ->
  perform c s = s /\
  callResult c s = Some (if isAction c then Some false else None).
Proof.
  intros Hover Hc.
  destruct c; try done; cbv [perform callResult isAction exec completion];
    cbv [update moveLeft moveRight dropFromRack togglePause bind get ret];
    rewrite Hover, ?orb_true_r, ?andb_false_r; done.
Qed.

Lemma game_over_is_final_witness :
  perform CallDropFromRack finishedGame = finishedGame /\
  callResult CallDropFromRack finishedGame = Some (Some false).
Proof.
  apply (game_over_is_final finishedGame CallDropFromRack); [by vm_compute | done].
Defined.

(** X6.  While the engine is paused, [update()] and the player actions
    leave it exactly as it is, and the actions return [false]: only
    [togglePause()] and [reset()] have an effect. *)
Theorem paused_engine_is_frozen s c :
  paused s = true -> c <> CallTogglePause -> c <> CallReset ->
  perform c s = s /\
  callResult c s = Some (if isAction c then Some false else None).
Proof.
  intros Hpaused Hc Hc'.
  destruct c; try done; cbv [perform callResult isAction exec completion];
    cbv [update moveLeft moveRight dropFromRack bind get ret];
    rewrite Hpaused; done.
Qed.

Lemma paused_engine_is_frozen_witness :
  perform CallMoveLeft pausedAfterSpawn = pausedAfterSpawn /\
  callResult CallMoveLeft pausedAfterSpawn = Some (Some false).
Proof.
  apply (paused_engine_is_frozen pausedAfterSpawn CallMoveLeft); [by vm_compute | done..].
Defined.

(** X7.  [togglePause()] called twice leaves the engine as it was (after
    game over it does nothing at all). *)
Theorem togglePause_twice s :
  exec togglePause (exec togglePause s) = s /\
  (gameOver s = false -> paused (exec togglePause s) = negb (paused s)).
Proof.
  destruct s as [r sc lv li p g ct ni st cc rk w ev fc].
  cbv [exec togglePause bind get ret modify set_paused]; simpl.
  destruct g; simpl; [done|]. by rewrite negb_involutive.
Qed.

(** X8.  In a reachable state, a [moveLeft()] that returned [true] is
    undone by [moveRight()], which returns [true] as well; and the other
    way round. *)
Theorem moves_undo_each_other s :
  reachable s ->
  (completion moveLeft s = Normal true ->
   moveRight (exec moveLeft s) = (Normal true, s)) /\
  (completion moveRight s = Normal true ->
   moveLeft (exec moveRight s) = (Normal true, s)).
Proof.
  intros Hs%reachable_Inv. destruct Hs as [_ _ _ Hcatcher _ _].
  destruct s as [r sc lv li p g ct ni st cc rk w ev fc]. simpl in Hcatcher.
  unfold WELL_COLS in *.
  split; cbv [completion exec moveLeft moveRight bind get ret modify set_catcherColumn];
    simpl; destruct p, g; simpl; try done.
  - destruct (Z.ltb_spec 0 cc); [|done]. simpl. intros _.
    unfold WELL_COLS. destruct (Z.ltb_spec (cc - 1) (5 - 1)); [|lia].
    do 3 f_equal. lia.
  - unfold WELL_COLS. destruct (Z.ltb_spec cc (5 - 1)); [|done]. simpl. intros _.
    destruct (Z.ltb_spec 0 (cc + 1)); [|lia].
    do 3 f_equal. lia.
Qed.

Lemma moves_undo_each_other_witness :
  moveRight (exec moveLeft beforeDiagonalFour) = (Normal true, beforeDiagonalFour) /\
  moveLeft (exec moveRight beforeDiagonalFour) = (Normal true, beforeDiagonalFour).
Proof.
  destruct (moves_undo_each_other beforeDiagonalFour) as [Hleft Hright].
  - unfold beforeDiagonalFour. apply script_reachable, reachable_new. reflexivity.
  - split; [apply Hleft | apply Hright]; by vm_compute.
Defined.
(* ===================================================================== *)
(** ** Catching and dropping *)
(* ===================================================================== *)

Lemma catch_scan_pair pre c :
  JS.len (pre ++ [c; c]) < RACK_CAPACITY -> no_rack_run (pre ++ [c; c]) ->
  firstRackRun (pre ++ [c; c; c]) (seqZ 0 (JS.len (pre ++ [c; c; c]) - 3 + 1))
    = Some (JS.len pre, 3, c).
Proof.
  intros Hlen Hrun.
  assert (length pre <= 2)%nat
    by (unfold JS.len, RACK_CAPACITY in Hlen; rewrite length_app in Hlen; simpl in Hlen; lia).
  destruct pre as [|a [|b [|? ?]]]; [..|simpl in *; lia].
  - cbv -[bool_decide]. repeat (case_bool_decide; try congruence).
  - pose proof (Hrun 0 c) as H0. cbv -[bool_decide] in H0 |- *.
    repeat (case_bool_decide; simplify_eq; try done). all: exfalso; auto.
  - pose proof (Hrun 0 c) as H0. pose proof (Hrun 1 c) as H1.
    cbv -[bool_decide] in H0, H1 |- *.
    repeat (case_bool_decide; simplify_eq; try done). all: exfalso; auto.
Qed.

Lemma catch_scan_none rack c :
  JS.len rack < RACK_CAPACITY -> no_rack_run rack ->
  (forall pre, rack <> pre ++ [c; c]) ->
  firstRackRun (rack ++ [c]) (seqZ 0 (JS.len (rack ++ [c]) - 3 + 1)) = None.
Proof.
  intros Hlen Hrun Hpair.
  assert (length rack <= 4)%nat by (unfold JS.len, RACK_CAPACITY in Hlen; lia).
  destruct rack as [|x0 [|x1 [|x2 [|x3 [|? ?]]]]]; [..|simpl in *; lia].
  - reflexivity.
  - reflexivity.
  - pose proof (Hpair []) as Hp. cbv -[bool_decide].
    repeat (case_bool_decide; simplify_eq; try done).
  - pose proof (Hpair [x0]) as Hp. pose proof (Hrun 0 x0) as H0.
    cbv -[bool_decide] in H0 |- *.
    repeat (case_bool_decide; simplify_eq; try done). all: exfalso; auto.
  - pose proof (Hpair [x0; x1]) as Hp.
    pose proof (Hrun 0 x0) as H0. pose proof (Hrun 1 x1) as H1.
    cbv -[bool_decide] in H0, H1 |- *.
    repeat (case_bool_decide; simplify_eq; try done). all: exfalso; auto.
Qed.

Lemma checkRackMatches_rec_short fuel s :
  JS.len (rack s) < 3 -> checkRackMatches_rec fuel s = (Normal tt, s).
Proof.
  intros Hlen. destruct fuel; [done|]. simpl. unfold bind, get.
  by rewrite (proj2 (Z.ltb_lt _ _) Hlen).
Qed.

Lemma checkRackMatches_rec_none fuel s :
  firstRackRun (rack s) (seqZ 0 (JS.len (rack s) - 3 + 1)) = None ->
  checkRackMatches_rec fuel s = (Normal tt, s).
Proof.
  intros Hnone. destruct fuel; [done|]. simpl. unfold bind, get.
  rewrite Hnone. by destruct (_ <? 3).
Qed.

Lemma checkRackMatches_unfold s :
  checkRackMatches s = checkRackMatches_rec (S (length (rack s))) s.
Proof. reflexivity. Qed.

Lemma splice_run_at_end (pre : list Z) c :
  JS.splice_rest (pre ++ [c; c; c]) (JS.len pre) 3 = pre /\
  JS.splice_removed (pre ++ [c; c; c]) (JS.len pre) 3 = [c; c; c].
Proof.
  unfold JS.splice_rest, JS.splice_removed, JS.len.
  rewrite Z2Nat.inj_add, !Nat2Z.id by lia.
  rewrite take_app_length, drop_app_length, drop_app_add'; [|done].
  simpl. by rewrite app_nil_r.
Qed.

(** X9.  A tile that arrives at the catcher's column while the rack has
    room and holds no run of three (as the rack of every reachable state)
    joins the back of the rack.  If the two entries at the back already
    have its colour, the three are removed at once for 100 points, so that
    such a rack match is never longer than three, and the rest of the rack
    is left as it was; otherwise the rack just grows by the tile. *)
Theorem catch_outcome s tile :
  no_rack_run (rack s) ->
  tile_column tile = catcherColumn s ->
  JS.len (rack s) < RACK_CAPACITY ->
  let c := tile_colorIndex tile in
  (forall pre, rack s = pre ++ [c; c] ->
     handleTileReachedEnd tile s =
       (Normal tt, exec checkLevelUp (afterRackMatch pre c s))) /\
  ((forall pre, rack s <> pre ++ [c; c]) ->
     handleTileReachedEnd tile s = (Normal tt, afterCatch c s)).
Proof.
  intros Hrun Hcol Hroom c.
  assert (Heq : handleTileReachedEnd tile s = checkRackMatches (afterCatch c s)).
  { unfold handleTileReachedEnd, bind at 1, get.
    by rewrite (proj2 (Z.eqb_eq _ _) Hcol), (proj2 (Z.ltb_lt _ _) Hroom). }
  rewrite Heq, checkRackMatches_unfold.
  change (rack (afterCatch c s)) with (rack s ++ [c]).
  split.
  - intros pre Hpre. rewrite Hpre in Hrun, Hroom.
    destruct (splice_run_at_end pre c) as [Hrest Hremoved].
    assert (Hshort : JS.len pre < 3).
    { unfold JS.len, RACK_CAPACITY in *. rewrite length_app in Hroom.
      simpl in Hroom. lia. }
    rewrite (checkRackMatches_rec_found _ _ (JS.len pre) 3 c);
      change (rack (afterCatch c s)) with (rack s ++ [c]);
      rewrite Hpre, <- app_assoc; simpl ((_ :: _) ++ _).
    + rewrite Hrest, Hremoved. rewrite checkRackMatches_rec_short.
      * do 2 f_equal. unfold afterRackMatch, afterCatch. simpl.
        rewrite <- app_assoc. by destruct s.
      * unfold exec. rewrite checkLevelUp_exec. simpl.
        by destruct (_ <? _).
    + unfold JS.len. rewrite length_app. simpl. lia.
    + by apply catch_scan_pair.
  - intros Hpair. apply checkRackMatches_rec_none.
    change (rack (afterCatch c s)) with (rack s ++ [c]).
    by apply catch_scan_none.
Qed.

Lemma catch_outcome_witness :
  handleTileReachedEnd (mkTile 3 10 1 2) rackWithPair =
    (Normal tt, exec checkLevelUp (afterRackMatch [] 1 rackWithPair)) /\
  handleTileReachedEnd (mkTile 3 10 0 2) rackWithPair =
    (Normal tt, afterCatch 0 rackWithPair).
Proof.
  assert (Hrun : no_rack_run (rack rackWithPair))
    by (apply inv_rack_runs, reachable_Inv, idleGame_reachable; reflexivity).
  destruct (catch_outcome rackWithPair (mkTile 3 10 1 2) Hrun) as [Hpair _];
    [by vm_compute.. |].
  destruct (catch_outcome rackWithPair (mkTile 3 10 0 2) Hrun) as [_ Hnone];
    [by vm_compute.. |].
  split.
  - apply (Hpair []). by vm_compute.
  - apply Hnone. intros pre Heq. apply (f_equal reverse) in Heq.
    rewrite reverse_app in Heq. vm_compute in Heq. discriminate Heq.
Defined.



(* ===================================================================== *)
(** ** What the well scan reports *)
(* ===================================================================== *)

Lemma for_each_acc {A B} (body : A -> list B -> list B) (f : A -> list B) xs acc :
  (forall x acc, body x acc = acc ++ f x) ->
  JS.for_each xs body acc = acc ++ JS.for_each xs body [].
Proof.
  intros body_app. unfold JS.for_each. revert acc.
  induction xs as [|x xs IH]; intros acc; simpl; [by rewrite app_nil_r|].
  rewrite (IH (body x acc)), (IH (body x [])), !body_app.
  simpl. by rewrite app_assoc.
Qed.

Lemma elem_of_for_each {A B} (body : A -> list B -> list B) (f : A -> list B)
    xs acc m :
  (forall x acc, body x acc = acc ++ f x) ->
  m ∈ JS.for_each xs body acc <-> m ∈ acc \/ exists x, x ∈ xs /\ m ∈ f x.
Proof.
  intros body_app. unfold JS.for_each. revert acc.
  induction xs as [|x xs IH]; intros acc; simpl.
  - split; [by left|]. intros [?|(x & Hx%elem_of_nil & _)]; done.
  - rewrite IH, body_app, elem_of_app. split.
    + intros [[?|?]|(y & ? & ?)]; [by left | right | right].
      * exists x. split; [by left | done].
      * exists y. split; [by right | done].
    + intros [?|(y & [->|?]%elem_of_cons & ?)]; [by left; left | by left; right |].
      right. by exists y.
Qed.

Lemma scanHorizontal_acc w row matches :
  scanHorizontal (Z.to_nat WELL_COLS) w row 0 matches =
  matches ++ scanHorizontal (Z.to_nat WELL_COLS) w row 0 [].
Proof. rewrite !scanHorizontal_scanLine. apply scanLine_app. Qed.

Lemma scanVertical_acc w col matches :
  scanVertical (Z.to_nat WELL_ROWS) w col 0 matches =
  matches ++ scanVertical (Z.to_nat WELL_ROWS) w col 0 [].
Proof. rewrite !scanVertical_scanLine. apply scanLine_app. Qed.

Lemma scanDiagonalDR_acc w col row matches :
  scanDiagonalDR w col row matches = matches ++ scanDiagonalDR w col row [].
Proof.
  unfold scanDiagonalDR. destruct (cellAt w col row); [|by rewrite app_nil_r].
  cbv zeta. destruct (3 <=? _); [done | by rewrite app_nil_r].
Qed.

Lemma scanDiagonalDL_acc w col row matches :
  scanDiagonalDL w col row matches = matches ++ scanDiagonalDL w col row [].
Proof.
  unfold scanDiagonalDL. destruct (cellAt w col row); [|by rewrite app_nil_r].
  cbv zeta. destruct (3 <=? _); [done | by rewrite app_nil_r].
Qed.

(** The matches of [findMatches] are those of its four scans. *)
Lemma elem_of_findMatches w m :
  m ∈ findMatches w <->
  (exists row, 0 <= row < WELL_ROWS /\
     m ∈ scanHorizontal (Z.to_nat WELL_COLS) w row 0 []) \/
  (exists col, 0 <= col < WELL_COLS /\
     m ∈ scanVertical (Z.to_nat WELL_ROWS) w col 0 []) \/
  (exists col row, 0 <= col <= WELL_COLS - 3 /\ 0 <= row <= WELL_ROWS - 3 /\
     m ∈ scanDiagonalDR w col row []) \/
  (exists col row, 2 <= col < WELL_COLS /\ 0 <= row <= WELL_ROWS - 3 /\
     m ∈ scanDiagonalDL w col row []).
Proof.
  assert (Hdr : forall col rows acc,
            m ∈ JS.for_each rows (fun row matches => scanDiagonalDR w col row matches) acc
            <-> m ∈ acc \/ exists row, row ∈ rows /\ m ∈ scanDiagonalDR w col row []).
  { intros. apply elem_of_for_each. intros. apply scanDiagonalDR_acc. }
  assert (Hdl : forall col rows acc,
            m ∈ JS.for_each rows (fun row matches => scanDiagonalDL w col row matches) acc
            <-> m ∈ acc \/ exists row, row ∈ rows /\ m ∈ scanDiagonalDL w col row []).
  { intros. apply elem_of_for_each. intros. apply scanDiagonalDL_acc. }
  unfold findMatches. cbv zeta.
  rewrite (elem_of_for_each _
             (fun col => JS.for_each (seqZ 0 (WELL_ROWS - 3 + 1))
                           (fun row matches => scanDiagonalDL w col row matches) []));
    [|intros; apply (for_each_acc _ (fun row => scanDiagonalDL w x row []));
      intros; apply scanDiagonalDL_acc].
  rewrite (elem_of_for_each _
             (fun col => JS.for_each (seqZ 0 (WELL_ROWS - 3 + 1))
                           (fun row matches => scanDiagonalDR w col row matches) []));
    [|intros; apply (for_each_acc _ (fun row => scanDiagonalDR w x row []));
      intros; apply scanDiagonalDR_acc].
  rewrite (elem_of_for_each _ (fun col => scanVertical (Z.to_nat WELL_ROWS) w col 0 []));
    [|intros; apply scanVertical_acc].
  rewrite (elem_of_for_each _ (fun row => scanHorizontal (Z.to_nat WELL_COLS) w row 0 []));
    [|intros; apply scanHorizontal_acc].
  rewrite elem_of_nil.
  setoid_rewrite Hdr. setoid_rewrite Hdl.
  setoid_rewrite elem_of_seqZ. setoid_rewrite elem_of_nil.
  unfold WELL_COLS, WELL_ROWS. split.
  - intros [[[[[]|(row & ? & ?)]|(col & ? & ?)]|(col & ? & [[]|(row & ? & ?)])]
            |(col & ? & [[]|(row & ? & ?)])].
    + left. exists row. split; [lia|done].
    + right; left. exists col. split; [lia|done].
    + right; right; left. exists col, row. repeat split; try lia; done.
    + right; right; right. exists col, row. repeat split; try lia; done.
  - intros [(row & ? & ?)|[(col & ? & ?)|[(col & row & ? & ? & ?)|(col & row & ? & ? & ?)]]].
    + left; left; left; right. exists row. split; [lia|done].
    + left; left; right. exists col. split; [lia|done].
    + left; right. exists col. split; [lia|]. right. exists row. split; [lia|done].
    + right. exists col. split; [lia|]. right. exists row. split; [lia|done].
Qed.

Lemma elem_of_scanLine cell report m :
  m ∈ scanLine 5 cell report 0 [] <->
  exists start len color,
    3 <= len /\ maximal_run cell 5 start len color /\ m = report start len color.
Proof.
  destruct (scanLine_exact cell report) as (runs & -> & _ & Hruns).
  unfold reportRuns. rewrite list_elem_of_fmap. split.
  - intros ([[start len] color] & -> & Hin%Hruns). exists start, len, color. tauto.
  - intros (start & len & color & Hlen & Hrun & ->).
    exists (start, len, color). split; [done|]. by apply Hruns.
Qed.

Lemma runTiles_ext runLen (f g : Z -> Z * Z) :
  (forall i, f i = g i) -> runTiles runLen f = runTiles runLen g.
Proof. intros Hfg. unfold runTiles. apply list_fmap_ext. intros _ i _. apply Hfg. Qed.

Lemma runTiles_len runLen f : 0 <= runLen -> JS.len (runTiles runLen f) = runLen.
Proof.
  intros Hlen. unfold JS.len, runTiles. rewrite length_fmap, length_seqZ. lia.
Qed.

Lemma count_while_le fuel cond n : JS.count_while fuel cond n <= n + Z.of_nat fuel.
Proof.
  revert n. induction fuel as [|fuel IH]; intros n; simpl JS.count_while; [lia|].
  destruct (cond n); [|lia]. specialize (IH (n + 1)). lia.
Qed.

(** The run a diagonal scan measures from a cell of the grid: its cells
    are in the grid and hold the colour, and it has at most five cells. *)
Lemma diagonal_run (inGrid sameColor : Z -> bool) :
  (forall k, WELL_COLS <= k -> inGrid k = false) ->
  let runLen :=
    JS.count_while (Z.to_nat WELL_COLS) (fun n => inGrid n && sameColor n) 1 in
  1 <= runLen <= 5 /\
  forall i, 1 <= i < runLen -> inGrid i = true /\ sameColor i = true.
Proof.
  intros Hgrid runLen.
  assert (Hcells : forall i, 1 <= i < runLen -> inGrid i = true /\ sameColor i = true).
  { intros i Hi. apply andb_true_iff.
    apply (count_while_passed (Z.to_nat WELL_COLS) (fun n => inGrid n && sameColor n) 1).
    done. }
  split; [|done]. split; [apply count_while_ge|].
  pose proof (count_while_le (Z.to_nat WELL_COLS) (fun n => inGrid n && sameColor n) 1).
  fold runLen in H. unfold WELL_COLS in *.
  destruct (Z.le_gt_cases runLen 5) as [|Hgt]; [done|].
  destruct (Hcells 5) as [Hin _]; [lia|]. rewrite Hgrid in Hin; [done|lia].
Qed.

Lemma line_of_horizontal w row start len color :
  0 <= row < WELL_ROWS ->
  maximal_run (fun col => cellAt w col row) WELL_COLS start len color ->
  line_of w start row (direction horizontal) len color.
Proof.
  intros Hrow (H0 & Hlen & Hend & Hcells & _) i Hi. simpl.
  replace (row + i * 0) with row by lia. replace (start + i * 1) with (start + i) by lia.
  repeat split; try lia. apply Hcells. lia.
Qed.

Lemma line_of_vertical w col start len color :
  0 <= col < WELL_COLS ->
  maximal_run (fun row => cellAt w col row) WELL_ROWS start len color ->
  line_of w col start (direction vertical) len color.
Proof.
  intros Hrow (H0 & Hlen & Hend & Hcells & _) i Hi. simpl.
  replace (col + i * 0) with col by lia. replace (start + i * 1) with (start + i) by lia.
  repeat split; try lia. apply Hcells. lia.
Qed.

(** What a diagonal scan reports at a cell. *)
Lemma elem_of_scanDiagonalDR w col row m :
  0 <= col -> 0 <= row ->
  m ∈ scanDiagonalDR w col row [] ->
  exists len color,
    3 <= len <= 5 /\
    m = mkWellMatch diagonal_dr (runTiles len (fun i => (col + i, row + i))) color /\
    cellAt w col row = Some color /\
    forall i, 1 <= i < len ->
      col + i < WELL_COLS /\ row + i < WELL_ROWS /\
      cellAt w (col + i) (row + i) = Some color.
Proof.
  intros Hcol Hrow. unfold scanDiagonalDR.
  destruct (cellAt w col row) as [color|] eqn:Hcell; [|by intros ?%elem_of_nil].
  cbv zeta.
  destruct (diagonal_run
              (fun n => (col + n <? WELL_COLS) && (row + n <? WELL_ROWS))
              (fun n => bool_decide (cellAt w (col + n) (row + n) = Some color)))
    as [Hlen Hcells].
  { intros k Hk. rewrite (proj2 (Z.ltb_ge _ _)); [done | lia]. }
  match goal with
  | |- context [3 <=? ?runLen] => destruct (Z.leb_spec 3 runLen) as [Hthree|]
  end; [|by intros ?%elem_of_nil].
  intros ->%list_elem_of_singleton. eexists _, color.
  split; [|split; [done|split; [done|]]]; [lia|].
  intros i Hi. destruct (Hcells i Hi) as [[? ?]%andb_true_iff ?%bool_decide_eq_true].
  repeat split; try done; by apply Z.ltb_lt.
Qed.

Lemma elem_of_scanDiagonalDL w col row m :
  col < WELL_COLS -> 0 <= row ->
  m ∈ scanDiagonalDL w col row [] ->
  exists len color,
    3 <= len <= 5 /\
    m = mkWellMatch diagonal_dl (runTiles len (fun i => (col - i, row + i))) color /\
    cellAt w col row = Some color /\
    forall i, 1 <= i < len ->
      0 <= col - i /\ row + i < WELL_ROWS /\
      cellAt w (col - i) (row + i) = Some color.
Proof.
  intros Hcol Hrow. unfold scanDiagonalDL.
  destruct (cellAt w col row) as [color|] eqn:Hcell; [|by intros ?%elem_of_nil].
  cbv zeta.
  destruct (diagonal_run
              (fun n => (0 <=? col - n) && (row + n <? WELL_ROWS))
              (fun n => bool_decide (cellAt w (col - n) (row + n) = Some color)))
    as [Hlen Hcells].
  { intros k Hk. rewrite (proj2 (Z.leb_gt _ _)); [done | lia]. }
  match goal with
  | |- context [3 <=? ?runLen] => destruct (Z.leb_spec 3 runLen) as [Hthree|]
  end; [|by intros ?%elem_of_nil].
  intros ->%list_elem_of_singleton. eexists _, color.
  split; [|split; [done|split; [done|]]]; [lia|].
  intros i Hi. destruct (Hcells i Hi) as [[? ?]%andb_true_iff ?%bool_decide_eq_true].
  repeat split; try done; [by apply Z.leb_le | by apply Z.ltb_lt].
Qed.

Lemma findMatches_sound w m :
  m ∈ findMatches w ->
  exists col row len,
    3 <= len <= 5 /\
    match_tiles m =
      runTiles len (fun i => (col + i * (direction (match_type m)).1,
                              row + i * (direction (match_type m)).2)) /\
    line_of w col row (direction (match_type m)) len (match_colorIndex m).
Proof.
  intros [(row & Hrow & Hin)|[(col & Hcol & Hin)
          |[(col & row & Hcol & Hrow & Hin)|(col & row & Hcol & Hrow & Hin)]]]%elem_of_findMatches.
  - rewrite scanHorizontal_scanLine in Hin.
    apply elem_of_scanLine in Hin as (start & len & color & Hlen & Hrun & ->).
    exists start, row, len. simpl. split; [|split].
    + destruct Hrun as (? & ? & ? & _). lia.
    + apply runTiles_ext. intros i. f_equal; lia.
    + by apply line_of_horizontal.
  - rewrite scanVertical_scanLine in Hin.
    apply elem_of_scanLine in Hin as (start & len & color & Hlen & Hrun & ->).
    exists col, start, len. simpl. split; [|split].
    + destruct Hrun as (? & ? & ? & _). lia.
    + apply runTiles_ext. intros i. f_equal; lia.
    + by apply line_of_vertical.
  - apply elem_of_scanDiagonalDR in Hin as (len & color & Hlen & -> & Hcell & Hcells);
      [|lia..].
    exists col, row, len. simpl. split; [done|]. split.
    + apply runTiles_ext. intros i. f_equal; lia.
    + intros i Hi. simpl. replace (col + i * 1) with (col + i) by lia.
      replace (row + i * 1) with (row + i) by lia.
      destruct (Z.eq_dec i 0) as [->|].
      * rewrite !Z.add_0_r. unfold WELL_COLS, WELL_ROWS in *. repeat split; try lia; done.
      * destruct (Hcells i) as (? & ? & ?); [lia|]. repeat split; try lia; done.
  - apply elem_of_scanDiagonalDL in Hin as (len & color & Hlen & -> & Hcell & Hcells);
      [|lia..].
    exists col, row, len. simpl. split; [done|]. split.
    + apply runTiles_ext. intros i. f_equal; lia.
    + intros i Hi. simpl. replace (col + i * -1) with (col - i) by lia.
      replace (row + i * 1) with (row + i) by lia.
      destruct (Z.eq_dec i 0) as [->|].
      * rewrite Z.sub_0_r, Z.add_0_r. unfold WELL_COLS, WELL_ROWS in *.
        repeat split; try lia; done.
      * destruct (Hcells i) as (? & ? & ?); [lia|]. repeat split; try lia; done.
Qed.

(** X11.  Every match that [findMatches()] reports is a real run: three to
    five cells of the 5 x 5 grid in a line of the reported kind, which all
    hold the reported colour; its tiles are those cells in order. *)
Theorem findMatches_reports_real_runs w m :
  m ∈ findMatches w ->
  exists col row len,
    3 <= len <= 5 /\
    match_tiles m =
      runTiles len (fun i => (col + i * (direction (match_type m)).1,
                              row + i * (direction (match_type m)).2)) /\
    line_of w col row (direction (match_type m)) len (match_colorIndex m).
Proof. apply findMatches_sound. Qed.

Lemma findMatches_reports_real_runs_witness :
  exists col row len,
    3 <= len <= 5 /\
    [(1, 1); (2, 2); (3, 3); (4, 4)] =
      runTiles len (fun i => (col + i * 1, row + i * 1)) /\
    line_of diagonalFive col row (1, 1) len 0.
Proof.
  apply (findMatches_reports_real_runs diagonalFive
           (mkWellMatch diagonal_dr [(1, 1); (2, 2); (3, 3); (4, 4)] 0)).
  vm_compute. right. left.
Defined.

(** Three cells of one colour in a line of five lie in a maximal run. *)
Lemma run_around (cell : Z -> Cell) pos color :
  0 <= pos -> pos + 2 < 5 ->
  cell pos = Some color -> cell (pos + 1) = Some color -> cell (pos + 2) = Some color ->
  exists start len, 3 <= len /\ maximal_run cell 5 start len color.
Proof.
  intros Hpos Hend H0 H1 H2.
  destruct (left_end cell pos color Hpos H0) as (start & Hstart & Hleft & Hmax).
  pose proof (run_from cell start color ltac:(lia) (Hleft start ltac:(lia))) as Hrun.
  cbv zeta in Hrun. destruct Hrun as (Hone & Hlast & Hcells & Hright).
  set (runLen := JS.count_while _ _ _) in *.
  assert (Hall : forall i, start <= i <= pos + 2 -> cell i = Some color).
  { intros i Hi. destruct (Z.le_gt_cases i pos); [apply Hleft; lia|].
    destruct (Z.eq_dec i (pos + 1)) as [->|]; [done|].
    by replace i with (pos + 2) by lia. }
  assert (Hlen : pos + 3 <= start + runLen).
  { destruct (Z.le_gt_cases (pos + 3) (start + runLen)) as [|Hshort]; [done|].
    exfalso. apply Hright; [lia|]. apply Hall. lia. }
  exists start, runLen. split; [lia|]. repeat split; try lia; done.
Qed.

Lemma findMatches_complete w :
  three_in_line w -> exists m, m ∈ findMatches w.
Proof.
  intros (t & col & row & color & Hline).
  destruct (Hline 0) as (Hc0 & Hr0 & H0); [lia|].
  destruct (Hline 1) as (Hc1 & Hr1 & H1); [lia|].
  destruct (Hline 2) as (Hc2 & Hr2 & H2); [lia|].
  unfold WELL_COLS, WELL_ROWS in *.
  destruct t; simpl in *;
    rewrite ?Z.mul_0_l, ?Z.mul_0_r, ?Z.mul_1_l, ?Z.mul_1_r, ?Z.add_0_r in *.
  - destruct (run_around (fun col => cellAt w col row) col color)
      as (start & len & Hlen & Hrun); try done; try lia.
    exists (horizontalMatch row start len color).
    apply elem_of_findMatches. left. exists row. split; [done|].
    rewrite scanHorizontal_scanLine. apply elem_of_scanLine.
    by exists start, len, color.
  - destruct (run_around (fun row => cellAt w col row) row color)
      as (start & len & Hlen & Hrun); try done; try lia.
    exists (verticalMatch col start len color).
    apply elem_of_findMatches. right; left. exists col. split; [done|].
    rewrite scanVertical_scanLine. apply elem_of_scanLine.
    by exists start, len, color.
  - eexists. apply elem_of_findMatches. right; right; left.
    exists col, row. unfold WELL_COLS, WELL_ROWS.
    split; [lia|]. split; [lia|].
    unfold scanDiagonalDR. rewrite H0. cbv zeta.
    rewrite (proj2 (Z.leb_le 3 _)); [apply list_elem_of_singleton; reflexivity|].
    change 3 with (1 + 2). apply count_while_two; [unfold WELL_COLS; lia|..].
    + rewrite H1, bool_decide_eq_true_2 by done.
      unfold WELL_COLS, WELL_ROWS.
      by rewrite !(proj2 (Z.ltb_lt _ _)) by lia.
    + replace (col + (1 + 1)) with (col + 2) by lia.
      replace (row + (1 + 1)) with (row + 2) by lia.
      rewrite H2, bool_decide_eq_true_2 by done.
      unfold WELL_COLS, WELL_ROWS.
      by rewrite !(proj2 (Z.ltb_lt _ _)) by lia.
  - replace (col + -1) with (col - 1) in * by lia.
    replace (col + 2 * -1) with (col - 2) in * by lia.
    eexists. apply elem_of_findMatches. right; right; right.
    exists col, row. unfold WELL_COLS, WELL_ROWS.
    split; [lia|]. split; [lia|].
    unfold scanDiagonalDL. rewrite H0. cbv zeta.
    rewrite (proj2 (Z.leb_le 3 _)); [apply list_elem_of_singleton; reflexivity|].
    change 3 with (1 + 2). apply count_while_two; [unfold WELL_COLS; lia|..].
    + rewrite H1, bool_decide_eq_true_2 by done.
      unfold WELL_COLS, WELL_ROWS.
      by rewrite (proj2 (Z.leb_le _ _)), (proj2 (Z.ltb_lt _ _)) by lia.
    + replace (col - (1 + 1)) with (col - 2) by lia.
      replace (row + (1 + 1)) with (row + 2) by lia.
      rewrite H2, bool_decide_eq_true_2 by done.
      unfold WELL_COLS, WELL_ROWS.
      by rewrite (proj2 (Z.leb_le _ _)), (proj2 (Z.ltb_lt _ _)) by lia.
Qed.

Lemma findMatches_nonempty_iff w : findMatches w <> [] <-> three_in_line w.
Proof.
  split.
  - destruct (findMatches w) as [|m rest] eqn:Hfound; [done|]. intros _.
    destruct (findMatches_sound w m) as (col & row & len & Hlen & _ & Hline).
    { rewrite Hfound. by left. }
    exists (match_type m), col, row, (match_colorIndex m).
    intros i Hi. apply Hline. lia.
  - intros (m & Hin)%findMatches_complete Hnone. rewrite Hnone in Hin.
    by apply elem_of_nil in Hin.
Qed.

(** X12.  [findMatches()] reports nothing exactly when the grid has no
    three cells of one colour next to each other in a row, a column or a
    diagonal: no such line is ever missed, in any of the four
    directions. *)
Theorem findMatches_is_empty_iff_no_line w :
  findMatches w = [] <-> ~ three_in_line w.
Proof.
  rewrite <- findMatches_nonempty_iff.
  destruct (findMatches w) as [|m rest]; split; try done.
  - intros _ Hnot. by apply Hnot.
  - intros Hnot. exfalso. by apply Hnot.
Qed.

Lemma totalPoints_cons m matches :
  totalPoints (m :: matches) = matchPoints (JS.len (match_tiles m)) + totalPoints matches.
Proof.
  unfold totalPoints, JS.for_each. simpl.
  generalize (matchPoints (JS.len (match_tiles m))). generalize 0.
  induction matches as [|m' matches IH]; intros a b; simpl; [lia|].
  replace (a + b + matchPoints (JS.len (match_tiles m')))
    with (a + matchPoints (JS.len (match_tiles m')) + b) by lia.
  apply IH.
Qed.

Lemma matchPoints_three size : 3 <= size -> 100 <= matchPoints size.
Proof.
  intros Hsize. unfold matchPoints.
  destruct (Z.eqb_spec size 3); [lia|]. destruct (Z.eqb_spec size 4); [lia|].
  rewrite (proj2 (Z.leb_le 5 size)); lia.
Qed.

Lemma applyGravity_score s : score (exec applyGravity s) = score s.
Proof. done. Qed.

Lemma applyGravity_events s : events (exec applyGravity s) = events s.
Proof. done. Qed.

Lemma checkMatches_found s :
  findMatches (well s) <> [] ->
  completion checkMatches s = Normal tt /\
  score (exec checkMatches s) = score s + totalPoints (findMatches (well s)) /\
  exists rest,
    events (exec checkMatches s) =
      events s ++
      [MATCH (InWell <$> findMatches (well s)) (totalPoints (findMatches (well s)))]
      ++ rest.
Proof.
  intros Hfound.
  assert (Hlen : (0 <? JS.len (findMatches (well s))) = true).
  { apply Z.ltb_lt. unfold JS.len. destruct (findMatches (well s)); [done|simpl; lia]. }
  assert (Heq : checkMatches s =
            checkLevelUp
              (exec applyGravity
                 (set_events
                    (events s ++ [MATCH (InWell <$> findMatches (well s))
                                    (totalPoints (findMatches (well s)))])
                    (set_score (score s + totalPoints (findMatches (well s)))
                       (set_well
                          (JS.for_each (findMatches (well s))
                             (fun m w => clearTiles (match_tiles m) w) (well s)) s))))).
  { unfold checkMatches, bind at 1, get. rewrite Hlen. reflexivity. }
  unfold completion, exec. rewrite Heq, checkLevelUp_exec.
  cbv zeta. cbn [fst snd]. split; [done|].
  destruct (level _ <? _);
    cbn [score events set_events set_level];
    rewrite applyGravity_score, applyGravity_events;
    cbn [score events set_events set_score]; (split; [done|]).
  - eexists. by rewrite <- app_assoc.
  - exists []. by rewrite app_nil_r.
Qed.

(** X13.  [checkMatches()] does nothing at all on a grid without three
    cells of one colour in a line.  On a grid with such a line it returns
    normally, pushes one match event and raises the score by the points of
    the reported matches, which are at least 100. *)
Theorem checkMatches_scores_exactly_on_a_line s :
  (~ three_in_line (well s) -> checkMatches s = (Normal tt, s)) /\
  (three_in_line (well s) ->
   let matches := findMatches (well s) in
   completion checkMatches s = Normal tt /\
   score (exec checkMatches s) = score s + totalPoints matches /\
   100 <= totalPoints matches /\
   exists rest,
     events (exec checkMatches s) =
       events s ++ [MATCH (InWell <$> matches) (totalPoints matches)] ++ rest).
Proof.
  split.
  - intros Hnone. unfold checkMatches, bind, get.
    destruct (findMatches (well s)) as [|m rest] eqn:Hfound; [done|].
    exfalso. apply Hnone, findMatches_nonempty_iff. by rewrite Hfound.
  - intros Hline%findMatches_nonempty_iff matches.
    destruct (checkMatches_found s Hline) as (Hdone & Hscore & Hevents).
    repeat split; try done. subst matches.
    destruct (findMatches (well s)) as [|m rest] eqn:Hfound; [done|].
    destruct (findMatches_sound (well s) m) as (col & row & len & Hlen & Htiles & _).
    { rewrite Hfound. by left. }
    rewrite totalPoints_cons, Htiles, runTiles_len by lia.
    pose proof (matchPoints_three len ltac:(lia)).
    pose proof (totalPoints_nonneg rest). lia.
Qed.

Lemma checkMatches_scores_exactly_on_a_line_witness :
  checkMatches beforeDiagonalFour = (Normal tt, beforeDiagonalFour) /\
  score (exec checkMatches diagonalCompleted) = score diagonalCompleted + 400.
Proof.
  destruct (checkMatches_scores_exactly_on_a_line beforeDiagonalFour) as [Hnone _].
  destruct (checkMatches_scores_exactly_on_a_line diagonalCompleted) as [_ Hline].
  split.
  - apply Hnone. intros Hline'%findMatches_nonempty_iff. apply Hline'.
    vm_compute. reflexivity.
  - destruct Hline as (_ & Hscore & _); [|exact Hscore].
    exists diagonal_dr, 0, 1, 0. intros i Hi.
    assert (Hcases : i = 0 \/ i = 1 \/ i = 2) by lia.
    destruct Hcases as [->|[->| ->]]; vm_compute; repeat split; discriminate.
Defined.

(* ===================================================================== *)
(** ** The bookkeeping of the engine *)
(* ===================================================================== *)

Ltac books_frame Hs := destruct Hs; constructor; simpl; try assumption.

Lemma matchPoints_hundreds size : (100 | matchPoints size).
Proof.
  unfold matchPoints.
  destruct (size =? 3); [by exists 1|]. destruct (size =? 4); [by exists 3|].
  destruct (5 <=? size); [by exists 6 | by exists 0].
Qed.

Lemma totalPoints_hundreds matches : (100 | totalPoints matches).
Proof.
  induction matches as [|m matches IH]; [by exists 0|].
  rewrite totalPoints_cons. apply Z.divide_add_r; [apply matchPoints_hundreds | done].
Qed.

Lemma loseLife_Books reason : preserves Books (loseLife reason).
Proof.
  intros s Hs. unfold loseLife.
  wp_steps; books_frame Hs; simpl in *; try lia;
    first [apply Z.leb_le in Heqb | apply Z.leb_gt in Heqb];
    (split; [intros Hover; try apply books_over0 in Hover; lia | done || lia]).
Qed.

Lemma checkLevelUp_Books : preserves Books checkLevelUp.
Proof.
  intros s Hs. unfold checkLevelUp. wp_steps; [|done].
  apply Z.ltb_lt in Heqb. books_frame Hs. lia.
Qed.

Lemma checkRackMatches_rec_Books fuel : preserves Books (checkRackMatches_rec fuel).
Proof.
  induction fuel as [|fuel IH]; intros s Hs; simpl; [done|].
  wp_step. destruct (_ <? 3); [done|].
  destruct (firstRackRun _ _) as [[[start runLen] color]|]; [|done].
  wp_steps.
  wp_call checkLevelUp_Books as s1 Hs1; [|by apply IH|done].
  books_frame Hs.
  - pose proof (matchPoints_nonneg runLen). lia.
  - apply Z.divide_add_r; [done | apply matchPoints_hundreds].
Qed.

Lemma checkRackMatches_Books : preserves Books checkRackMatches.
Proof.
  intros s Hs. unfold checkRackMatches. wp_step. by apply checkRackMatches_rec_Books.
Qed.

Lemma dropTileIntoWell_Books col colorIndex :
  preserves Books (dropTileIntoWell col colorIndex).
Proof.
  intros s Hs. unfold dropTileIntoWell. wp_steps; try done.
  - by books_frame Hs.
  - by apply loseLife_Books.
Qed.

Lemma handleTileReachedEnd_Books tile : preserves Books (handleTileReachedEnd tile).
Proof.
  intros s Hs. unfold handleTileReachedEnd. wp_step.
  destruct (tile_column tile =? catcherColumn s).
  - destruct (JS.len (rack s) <? RACK_CAPACITY).
    + wp_steps. apply checkRackMatches_Books. by books_frame Hs.
    + by apply loseLife_Books.
  - wp_call dropTileIntoWell_Books as s1 Hs1; [done | | done].
    wp_steps. by books_frame Hs1.
Qed.

Lemma moveLeft_Books : preserves Books moveLeft.
Proof. intros s Hs. unfold moveLeft. wp_steps; [by books_frame Hs | done]. Qed.

Lemma moveRight_Books : preserves Books moveRight.
Proof. intros s Hs. unfold moveRight. wp_steps; [by books_frame Hs | done]. Qed.

Lemma togglePause_Books : preserves Books togglePause.
Proof. intros s Hs. unfold togglePause. wp_steps; [by books_frame Hs | done]. Qed.

Lemma initial_Books r : Books (initial r).
Proof.
  constructor; simpl; try done; try (unfold INITIAL_LIVES, BASE_SPAWN_INTERVAL; lia).
  - by exists 0.
  - constructor.
Qed.

Lemma reset_Books : preserves Books reset.
Proof. intros s _. apply initial_Books. Qed.

Lemma dropFromRack_Books : preserves Books dropFromRack.
Proof.
  intros s Hs. unfold dropFromRack. wp_step.
  destruct (_ && _); [|done]. destruct (rack s) as [|c rest]; [done|].
  wp_step.
  wp_call dropTileIntoWell_Books as s1 Hs1; [by books_frame Hs | | done].
  wp_steps. by books_frame Hs1.
Qed.

Lemma rng_nextInt_Books min max : preserves Books (rng_nextInt min max).
Proof.
  intros s Hs. unfold wp, rng_nextInt.
  destruct (SeededRNG_nextInt min max (rng s)) as [v r']. by books_frame Hs.
Qed.

Lemma spawnTile_Books : preserves Books spawnTile.
Proof.
  intros s Hs. unfold spawnTile. wp_step.
  wp_call rng_nextInt_Books as s1 Hs1; [done | | done].
  wp_call rng_nextInt_Books as s2 Hs2; [done | | done].
  wp_steps. books_frame Hs2; [| |lia|].
  - unfold conveyorIds in *. simpl. rewrite fmap_app. apply NoDup_app.
    split; [done|]. split; [|apply NoDup_singleton].
    intros id (tile & -> & Hin)%list_elem_of_fmap Hnew%list_elem_of_singleton.
    rewrite Forall_forall in books_next0. specialize (books_next0 tile Hin).
    simpl in *. lia.
  - apply Forall_app. split.
    + eapply Forall_impl; [exact books_next0|]. simpl. lia.
    + apply Forall_singleton. simpl. lia.
  - apply Forall_app. split; [done|]. by apply Forall_singleton.
Qed.

Lemma getSpawnInterval_bounds s :
  1 <= level s -> MIN_SPAWN_INTERVAL <= getSpawnInterval s <= BASE_SPAWN_INTERVAL.
Proof. unfold getSpawnInterval, MIN_SPAWN_INTERVAL, BASE_SPAWN_INTERVAL. lia. Qed.

Lemma updateSpawning_Books : preserves Books updateSpawning.
Proof.
  intros s Hs. unfold updateSpawning. wp_steps.
  - eapply wp_mono; [apply spawnTile_Books | done | done].
    books_frame Hs. unfold BASE_SPAWN_INTERVAL. lia.
  - apply Z.leb_gt in Heqb. simpl in Heqb.
    pose proof (getSpawnInterval_bounds (set_spawnTimer (spawnTimer s + 1) s)) as Hb.
    books_frame Hs. simpl in Hb. lia.
Qed.

Lemma conveyorIds_insert s i tile tile' :
  conveyorTiles s !! i = Some tile -> tile_id tile' = tile_id tile ->
  tile_id <$> <[i := tile']> (conveyorTiles s) = conveyorIds s.
Proof.
  intros Hi Hid. unfold conveyorIds. rewrite list_fmap_insert, Hid.
  apply list_insert_id. by rewrite list_lookup_fmap, Hi.
Qed.

Lemma delete_insert_same {A} (l : list A) i x : delete i (<[i := x]> l) = delete i l.
Proof.
  revert i. induction l as [|y l IH]; intros [|i]; simpl; try done.
  by rewrite IH.
Qed.

Lemma updateConveyor_loop_Books speed n : preserves Books (updateConveyor_loop speed n).
Proof.
  induction n as [|i IH]; intros s Hs; simpl; [done|].
  wp_step. destruct (conveyorTiles s !! i) as [tile|] eqn:Hi; [|done].
  pose proof (books_next _ Hs) as Hnext. rewrite Forall_forall in Hnext.
  pose proof (Hnext tile (list_elem_of_lookup_2 _ _ _ Hi)) as Htile.
  wp_steps.
  - wp_call handleTileReachedEnd_Books as s1 Hs2; [ | by apply IH | done].
    books_frame Hs; rewrite delete_insert_same.
    + unfold conveyorIds in *. simpl. rewrite list_fmap_delete.
      eapply sublist_NoDup; [|apply sublist_delete]. done.
    + by apply Forall_delete.
    + by apply Forall_delete.
  - apply IH. books_frame Hs.
    + unfold conveyorIds. simpl. by rewrite (conveyorIds_insert s i tile).
    + by apply Forall_insert.
    + by apply Forall_insert.
Qed.

Lemma updateConveyor_Books : preserves Books updateConveyor.
Proof.
  intros s Hs. unfold updateConveyor. wp_steps. by apply updateConveyor_loop_Books.
Qed.

Lemma checkMatches_Books : preserves Books checkMatches.
Proof.
  intros s Hs. unfold checkMatches. wp_step.
  destruct (0 <? _); [|done].
  wp_steps. unfold applyGravity. wp_step.
  apply checkLevelUp_Books. books_frame Hs.
  - pose proof (totalPoints_nonneg (findMatches (well s))). lia.
  - apply Z.divide_add_r; [done | apply totalPoints_hundreds].
Qed.

Lemma update_Books : preserves Books update.
Proof.
  intros s Hs. unfold update. wp_step. destruct (_ || _); [done|].
  wp_steps.
  wp_call updateSpawning_Books as s1 Hs1; [books_frame Hs; lia | | done].
  wp_call updateConveyor_Books as s2 Hs2; [done | | done].
  by apply checkMatches_Books.
Qed.

Lemma perform_Books c s : Books s -> Books (perform c s).
Proof.
  intros Hs. destruct c; simpl; apply preserves_exec; try done.
  - apply update_Books.
  - apply moveLeft_Books.
  - apply moveRight_Books.
  - apply dropFromRack_Books.
  - apply togglePause_Books.
  - apply reset_Books.
Qed.

Lemma reachable_Books s : reachable s -> Books s.
Proof.
  induction 1 as [seed _ | c s _ IH]; [apply initial_Books | by apply perform_Books].
Qed.

(* ===================================================================== *)
(** ** The counters only go one way *)
(* ===================================================================== *)

Ltac onward_frame Hs := destruct Hs; constructor; simpl in *; try assumption; try lia.

Lemma Onward_refl s : Onward s s.
Proof. constructor; done || lia. Qed.

Lemma loseLife_Onward s0 reason : preserves (Onward s0) (loseLife reason).
Proof. intros s Hs. unfold loseLife. wp_steps; by onward_frame Hs. Qed.

Lemma checkLevelUp_Onward s0 : preserves (Onward s0) checkLevelUp.
Proof.
  intros s Hs. unfold checkLevelUp. wp_steps; [|done].
  apply Z.ltb_lt in Heqb. by onward_frame Hs.
Qed.

Lemma checkRackMatches_rec_Onward s0 fuel :
  preserves (Onward s0) (checkRackMatches_rec fuel).
Proof.
  induction fuel as [|fuel IH]; intros s Hs; simpl; [done|].
  wp_step. destruct (_ <? 3); [done|].
  destruct (firstRackRun _ _) as [[[start runLen] color]|]; [|done].
  wp_steps.
  wp_call (checkLevelUp_Onward s0) as s1 Hs1; [|by apply IH|done].
  pose proof (matchPoints_nonneg runLen). by onward_frame Hs.
Qed.

Lemma dropTileIntoWell_Onward s0 col colorIndex :
  preserves (Onward s0) (dropTileIntoWell col colorIndex).
Proof.
  intros s Hs. unfold dropTileIntoWell. wp_steps; try done.
  - by onward_frame Hs.
  - by apply loseLife_Onward.
Qed.

Lemma handleTileReachedEnd_Onward s0 tile :
  preserves (Onward s0) (handleTileReachedEnd tile).
Proof.
  intros s Hs. unfold handleTileReachedEnd. wp_step.
  destruct (tile_column tile =? catcherColumn s).
  - destruct (JS.len (rack s) <? RACK_CAPACITY).
    + wp_steps. unfold checkRackMatches. wp_step.
      apply checkRackMatches_rec_Onward. by onward_frame Hs.
    + by apply loseLife_Onward.
  - wp_call (dropTileIntoWell_Onward s0) as s1 Hs1; [done | | done].
    wp_steps. by onward_frame Hs1.
Qed.

Lemma dropFromRack_Onward s0 : preserves (Onward s0) dropFromRack.
Proof.
  intros s Hs. unfold dropFromRack. wp_step.
  destruct (_ && _); [|done]. destruct (rack s) as [|c rest]; [done|].
  wp_step.
  wp_call (dropTileIntoWell_Onward s0) as s1 Hs1; [by onward_frame Hs | | done].
  wp_steps. by onward_frame Hs1.
Qed.

Lemma rng_nextInt_Onward s0 min max : preserves (Onward s0) (rng_nextInt min max).
Proof.
  intros s Hs. unfold wp, rng_nextInt.
  destruct (SeededRNG_nextInt min max (rng s)) as [v r']. by onward_frame Hs.
Qed.

Lemma updateSpawning_Onward s0 : preserves (Onward s0) updateSpawning.
Proof.
  intros s Hs. unfold updateSpawning. wp_steps; [|by onward_frame Hs].
  unfold spawnTile. wp_step.
  wp_call (rng_nextInt_Onward s0) as s1 Hs1; [by onward_frame Hs | | done].
  wp_call (rng_nextInt_Onward s0) as s2 Hs2; [done | | done].
  wp_steps. by onward_frame Hs2.
Qed.

Lemma updateConveyor_loop_Onward s0 speed n :
  preserves (Onward s0) (updateConveyor_loop speed n).
Proof.
  induction n as [|i IH]; intros s Hs; simpl; [done|].
  wp_step. destruct (conveyorTiles s !! i) as [tile|]; [|done].
  wp_steps.
  - wp_call (handleTileReachedEnd_Onward s0) as s1 Hs1; [by onward_frame Hs | | done].
    by apply IH.
  - apply IH. by onward_frame Hs.
Qed.

Lemma updateConveyor_Onward s0 : preserves (Onward s0) updateConveyor.
Proof.
  intros s Hs. unfold updateConveyor. wp_steps. by apply updateConveyor_loop_Onward.
Qed.

Lemma checkMatches_Onward s0 : preserves (Onward s0) checkMatches.
Proof.
  intros s Hs. unfold checkMatches. wp_step.
  destruct (0 <? _); [|done].
  wp_steps. unfold applyGravity. wp_step.
  apply checkLevelUp_Onward.
  pose proof (totalPoints_nonneg (findMatches (well s))). by onward_frame Hs.
Qed.

Lemma update_Onward s0 : preserves (Onward s0) update.
Proof.
  intros s Hs. unfold update. wp_step. destruct (_ || _); [done|].
  wp_steps.
  wp_call (updateSpawning_Onward s0) as s1 Hs1; [by onward_frame Hs | | done].
  wp_call (updateConveyor_Onward s0) as s2 Hs2; [done | | done].
  by apply checkMatches_Onward.
Qed.

Lemma perform_Onward c s : c <> CallReset -> Onward s (perform c s).
Proof.
  intros Hc. pose proof (Onward_refl s) as Hs.
  destruct c; try done; simpl; apply preserves_exec; try done.
  - apply update_Onward.
  - intros s1 Hs1. unfold moveLeft. wp_steps; [by onward_frame Hs1 | done].
  - intros s1 Hs1. unfold moveRight. wp_steps; [by onward_frame Hs1 | done].
  - apply dropFromRack_Onward.
  - intros s1 Hs1. unfold togglePause. wp_steps; [by onward_frame Hs1 | done].
Qed.

(* ===================================================================== *)
(** ** What a tick leaves alone *)
(* ===================================================================== *)

Ltac steady_frame Hs := destruct Hs; constructor; simpl in *; try assumption.

Lemma loseLife_Steady s0 reason : preserves (Steady s0) (loseLife reason).
Proof. intros s Hs. unfold loseLife. wp_steps; by steady_frame Hs. Qed.

Lemma checkLevelUp_Steady s0 : preserves (Steady s0) checkLevelUp.
Proof. intros s Hs. unfold checkLevelUp. wp_steps; [by steady_frame Hs | done]. Qed.

Lemma checkRackMatches_rec_Steady s0 fuel :
  preserves (Steady s0) (checkRackMatches_rec fuel).
Proof.
  induction fuel as [|fuel IH]; intros s Hs; simpl; [done|].
  wp_step. destruct (_ <? 3); [done|].
  destruct (firstRackRun _ _) as [[[start runLen] color]|]; [|done].
  wp_steps.
  wp_call (checkLevelUp_Steady s0) as s1 Hs1; [by steady_frame Hs | by apply IH | done].
Qed.

Lemma handleTileReachedEnd_Steady s0 tile :
  preserves (Steady s0) (handleTileReachedEnd tile).
Proof.
  intros s Hs. unfold handleTileReachedEnd. wp_step.
  destruct (tile_column tile =? catcherColumn s).
  - destruct (JS.len (rack s) <? RACK_CAPACITY).
    + wp_steps. unfold checkRackMatches. wp_step.
      apply checkRackMatches_rec_Steady. by steady_frame Hs.
    + by apply loseLife_Steady.
  - unfold dropTileIntoWell. wp_steps; try done; try by steady_frame Hs.
    wp_call (loseLife_Steady s0) as s1 Hs1; [done | | done].
    wp_steps. by steady_frame Hs1.
Qed.

Lemma rng_nextInt_Steady s0 min max : preserves (Steady s0) (rng_nextInt min max).
Proof.
  intros s Hs. unfold wp, rng_nextInt.
  destruct (SeededRNG_nextInt min max (rng s)) as [v r']. by steady_frame Hs.
Qed.

Lemma updateSpawning_Steady s0 : preserves (Steady s0) updateSpawning.
Proof.
  intros s Hs. unfold updateSpawning. wp_steps; [|by steady_frame Hs].
  unfold spawnTile. wp_step.
  wp_call (rng_nextInt_Steady s0) as s1 Hs1; [by steady_frame Hs | | done].
  wp_call (rng_nextInt_Steady s0) as s2 Hs2; [done | | done].
  wp_steps. by steady_frame Hs2.
Qed.

Lemma updateConveyor_loop_Steady s0 speed n :
  preserves (Steady s0) (updateConveyor_loop speed n).
Proof.
  induction n as [|i IH]; intros s Hs; simpl; [done|].
  wp_step. destruct (conveyorTiles s !! i) as [tile|]; [|done].
  wp_steps.
  - wp_call (handleTileReachedEnd_Steady s0) as s1 Hs1; [by steady_frame Hs | | done].
    by apply IH.
  - apply IH. by steady_frame Hs.
Qed.

Lemma checkMatches_Steady s0 : preserves (Steady s0) checkMatches.
Proof.
  intros s Hs. unfold checkMatches. wp_step.
  destruct (0 <? _); [|done].
  wp_steps. unfold applyGravity. wp_step.
  apply checkLevelUp_Steady. by steady_frame Hs.
Qed.

(** X14.  A tick of a running engine counts exactly one frame and leaves
    the catcher and the pause flag as they are (the catcher moves by the
    player's calls only). *)
Theorem update_counts_one_frame s :
  running s = true ->
  frameCount (exec update s) = frameCount s + 1 /\
  catcherColumn (exec update s) = catcherColumn s /\
  paused (exec update s) = false.
Proof.
  intros Hrun. pose proof Hrun as Hrun'. unfold running in Hrun'.
  apply andb_true_iff in Hrun' as [Hp%negb_true_iff _].
  cut (Steady (set_frameCount (frameCount s + 1) s) (exec update s)).
  { intros [? ? ?]. simpl in *. by rewrite <- Hp. }
  apply wp_exec. unfold update. wp_step.
  rewrite (proj1 (running_true s) Hrun). wp_steps.
  assert (Hs : Steady (set_frameCount (frameCount s + 1) s)
                 (set_events [] (set_frameCount (frameCount s + 1) s))) by done.
  revert Hs. generalize (set_events [] (set_frameCount (frameCount s + 1) s)).
  generalize (set_frameCount (frameCount s + 1) s). intros s0 s1 Hs.
  wp_call (updateSpawning_Steady s0) as s2 Hs2; [done | | done].
  unfold updateConveyor. apply wp_bind. wp_step.
  wp_call (updateConveyor_loop_Steady s0) as s3 Hs3; [done | | done].
  by apply checkMatches_Steady.
Qed.

Lemma update_counts_one_frame_witness :
  frameCount (exec update beforeDiagonalFour) = frameCount beforeDiagonalFour + 1 /\
  catcherColumn (exec update beforeDiagonalFour) = catcherColumn beforeDiagonalFour /\
  paused (exec update beforeDiagonalFour) = false.
Proof. apply (update_counts_one_frame beforeDiagonalFour). by vm_compute. Defined.

(* ===================================================================== *)
(** ** Invariants of the reachable states *)
(* ===================================================================== *)

(** X15.  In every reachable state the engine holds at most the three
    lives it starts with, and the game is over exactly when no life is
    left. *)
Theorem game_is_over_iff_no_life_is_left s :
  reachable s ->
  lives s <= INITIAL_LIVES /\ (gameOver s = true <-> lives s <= 0).
Proof. intros [? ? _ _ _ _ _ _ _ _ _]%reachable_Books. done. Qed.

Lemma game_is_over_iff_no_life_is_left_witness :
  lives finishedGame <= INITIAL_LIVES /\
  (gameOver finishedGame = true <-> lives finishedGame <= 0).
Proof.
  apply (game_is_over_iff_no_life_is_left finishedGame), idleGame_reachable.
  reflexivity.
Defined.

(** X16.  In every reachable state the score is a non-negative multiple of
    100 and the level is at least 1. *)
Theorem score_counts_in_hundreds s :
  reachable s -> 0 <= score s /\ (100 | score s) /\ 1 <= level s.
Proof. intros [_ _ ? ? ? _ _ _ _ _ _]%reachable_Books. done. Qed.

Lemma score_counts_in_hundreds_witness :
  0 <= score levelTwoGame /\ (100 | score levelTwoGame) /\ 1 <= level levelTwoGame.
Proof.
  apply (score_counts_in_hundreds levelTwoGame).
  unfold levelTwoGame. apply play_reachable, reachable_new. reflexivity.
Defined.

(** X17.  No public call but [reset()] ever lowers the score, the level,
    the frame count or the next tile id, raises the lives or revives a
    finished game. *)
Theorem counters_only_go_one_way s c :
  c <> CallReset ->
  score s <= score (perform c s) /\
  level s <= level (perform c s) /\
  lives (perform c s) <= lives s /\
  frameCount s <= frameCount (perform c s) /\
  nextTileId s <= nextTileId (perform c s) /\
  (gameOver s = true -> gameOver (perform c s) = true).
Proof. intros [? ? ? ? ? ?]%(perform_Onward c s). done. Qed.

Lemma counters_only_go_one_way_witness :
  score diagonalCompleted <= score (perform CallUpdate diagonalCompleted) /\
  level diagonalCompleted <= level (perform CallUpdate diagonalCompleted) /\
  lives (perform CallUpdate diagonalCompleted) <= lives diagonalCompleted /\
  frameCount diagonalCompleted <= frameCount (perform CallUpdate diagonalCompleted) /\
  nextTileId diagonalCompleted <= nextTileId (perform CallUpdate diagonalCompleted) /\
  (gameOver diagonalCompleted = true ->
   gameOver (perform CallUpdate diagonalCompleted) = true).
Proof. by apply (counters_only_go_one_way diagonalCompleted CallUpdate). Defined.

(** X18.  In every reachable state the spawn timer is below the base
    interval of 120 ticks, and the interval it is compared with lies
    between 30 and 120: a tile is spawned at least every 120 ticks of a
    running engine. *)
Theorem spawn_timer_stays_below_the_base_interval s :
  reachable s ->
  0 <= spawnTimer s < BASE_SPAWN_INTERVAL /\
  MIN_SPAWN_INTERVAL <= getSpawnInterval s <= BASE_SPAWN_INTERVAL.
Proof.
  intros Hs%reachable_Books. split; [apply (books_timer _ Hs)|].
  apply getSpawnInterval_bounds, (books_level _ Hs).
Qed.

Lemma spawn_timer_stays_below_the_base_interval_witness :
  0 <= spawnTimer levelTwoGame < BASE_SPAWN_INTERVAL /\
  MIN_SPAWN_INTERVAL <= getSpawnInterval levelTwoGame <= BASE_SPAWN_INTERVAL.
Proof.
  apply (spawn_timer_stays_below_the_base_interval levelTwoGame).
  unfold levelTwoGame. apply play_reachable, reachable_new. reflexivity.
Defined.

(** X19.  In every reachable state the tiles on the conveyor have distinct
    ids, all of them non-negative and below the id the next tile will
    get. *)
Theorem conveyor_ids_are_distinct s :
  reachable s ->
  NoDup (conveyorIds s) /\
  Forall (fun tile => 0 <= tile_id tile < nextTileId s) (conveyorTiles s).
Proof. intros Hs%reachable_Books. split; [apply (books_ids _ Hs) | apply (books_next _ Hs)]. Qed.

Lemma conveyor_ids_are_distinct_witness :
  NoDup (conveyorIds pausedAfterSpawn) /\
  Forall (fun tile => 0 <= tile_id tile < nextTileId pausedAfterSpawn)
    (conveyorTiles pausedAfterSpawn).
Proof.
  apply (conveyor_ids_are_distinct pausedAfterSpawn), pausedAfterSpawn_reachable.
Defined.

(** X20.  In every reachable state every tile on the conveyor is short of
    its near end: a tile whose position has reached [CONVEYOR_LENGTH] is
    taken off in the tick in which it got there. *)
Theorem conveyor_tiles_are_short_of_the_end s :
  reachable s -> Forall onConveyor (conveyorTiles s).
Proof. intros Hs%reachable_Books. apply (books_short _ Hs). Qed.

Lemma conveyor_tiles_are_short_of_the_end_witness :
  Forall onConveyor (conveyorTiles pausedAfterSpawn).
Proof.
  apply (conveyor_tiles_are_short_of_the_end pausedAfterSpawn),
    pausedAfterSpawn_reachable.
Defined.

(** X21.  The difficulty scaling, for levels from 1 on: the spawn interval
    lies between 30 and 120 ticks, never grows with the level and is 30
    from level 13 on; the number of colours lies between 3 and 6, never
    shrinks with the level and is 6 from level 9 on. *)
Theorem difficulty_scaling s s' :
  1 <= level s <= level s' ->
  MIN_SPAWN_INTERVAL <= getSpawnInterval s' <= getSpawnInterval s /\
  getSpawnInterval s <= BASE_SPAWN_INTERVAL /\
  (13 <= level s -> getSpawnInterval s = MIN_SPAWN_INTERVAL) /\
  3 <= getNumColors s <= getNumColors s' /\
  getNumColors s' <= COLORS_length /\
  (9 <= level s -> getNumColors s = COLORS_length).
Proof.
  unfold getSpawnInterval, getNumColors, MIN_SPAWN_INTERVAL, BASE_SPAWN_INTERVAL,
    COLORS_length. intros Hlevel.
  assert (0 <= level s / 3 <= level s' / 3).
  { split; [apply Z.div_pos; lia | apply Z.div_le_mono; lia]. }
  assert (9 <= level s -> 3 <= level s / 3).
  { intros. change 3 with (9 / 3) at 1. apply Z.div_le_mono; lia. }
  lia.
Qed.

Lemma difficulty_scaling_witness :
  MIN_SPAWN_INTERVAL <= getSpawnInterval levelTwoGame <= getSpawnInterval (newGame 5) /\
  getSpawnInterval (newGame 5) <= BASE_SPAWN_INTERVAL /\
  (13 <= level (newGame 5) -> getSpawnInterval (newGame 5) = MIN_SPAWN_INTERVAL) /\
  3 <= getNumColors (newGame 5) <= getNumColors levelTwoGame /\
  getNumColors levelTwoGame <= COLORS_length /\
  (9 <= level (newGame 5) -> getNumColors (newGame 5) = COLORS_length).
Proof. apply (difficulty_scaling (newGame 5) levelTwoGame). by vm_compute. Defined.

(* ===================================================================== *)
(** ** Whole numbers as binary64 values *)
(* ===================================================================== *)

(** The number of binary digits of [p]. *)
Lemma digits2_pos_spec p :
  2 ^ (Z.pos (digits2_pos p) - 1) <= Z.pos p < 2 ^ Z.pos (digits2_pos p).
Proof.
  induction p as [p IH|p IH|]; simpl digits2_pos; [| |by vm_compute].
  - rewrite Pos2Z.inj_succ, Pos2Z.inj_xI.
    replace (Z.succ (Z.pos (digits2_pos p)) - 1)
      with (Z.succ (Z.pos (digits2_pos p) - 1)) by lia.
    rewrite !Z.pow_succ_r by lia. lia.
  - rewrite Pos2Z.inj_succ. change (Z.pos p~0) with (2 * Z.pos p).
    replace (Z.succ (Z.pos (digits2_pos p)) - 1)
      with (Z.succ (Z.pos (digits2_pos p) - 1)) by lia.
    rewrite !Z.pow_succ_r by lia. lia.
Qed.

Lemma digits2_pos_unique p d :
  2 ^ (d - 1) <= Z.pos p < 2 ^ d -> Z.pos (digits2_pos p) = d.
Proof.
  intros [Hlo Hhi]. pose proof (digits2_pos_spec p) as [Hlo' Hhi'].
  assert (0 < d).
  { destruct (Z.lt_ge_cases 0 d); [done|].
    assert (2 ^ d <= 2 ^ 0) by (apply Z.pow_le_mono_r; lia). simpl in *. lia. }
  destruct (Z.lt_trichotomy (Z.pos (digits2_pos p)) d) as [Hlt|[Heq|Hgt]]; [|done|].
  - assert (2 ^ Z.pos (digits2_pos p) <= 2 ^ (d - 1)) by (apply Z.pow_le_mono_r; lia).
    lia.
  - assert (2 ^ d <= 2 ^ (Z.pos (digits2_pos p) - 1)) by (apply Z.pow_le_mono_r; lia).
    lia.
Qed.

(** A mantissa of 53 digits is left as it is by the rounding of the
    binary64 operations. *)
Lemma binary_round_aux_full m e :
  Z.pos (digits2_pos m) = 53 -> -1074 <= e <= 971 ->
  binary_round_aux prec emax false (Z.pos m) e loc_Exact = S754_finite false m e.
Proof.
  intros Hd He.
  unfold binary_round_aux, shr_fexp, Zdigits2, fexp, emin, prec, emax, shr_record_of_loc.
  rewrite Hd. replace (Z.max (53 + e - 53) (3 - 1024 - 53) - e) with 0 by lia.
  simpl. rewrite Hd. replace (Z.max (53 + e - 53) (3 - 1024 - 53) - e) with 0 by lia.
  simpl. destruct (Z.leb_spec e (1024 - 53)); [done|lia].
Qed.

(** The mantissa and exponent of a short positive number [p * 2 ^ e]: the
    number is representable, and rounding only aligns it. *)
Lemma binary_round_short p e :
  let d := Z.pos (digits2_pos p) in
  d <= 53 -> -1074 <= d + e - 53 <= 971 ->
  binary_round prec emax false p e =
    S754_finite false (Z.to_pos (Z.pos p * 2 ^ (53 - d))) (d + e - 53).
Proof.
  intros d Hd He. unfold binary_round, shl_align, fexp, emin, prec, emax.
  fold d. replace (Z.max (d + e - 53) (3 - 1024 - 53) - e) with (d - 53) by lia.
  pose proof (digits2_pos_spec p) as Hp. fold d in Hp.
  destruct (d - 53) as [|k|k] eqn:Hk; [|lia|].
  - replace (53 - d) with 0 by lia. rewrite Z.mul_1_r. simpl Z.to_pos.
    rewrite binary_round_aux_full; [f_equal; lia | fold d; lia | lia].
  - assert (Hshift : Z.pos (Pos.iter xO p k) = Z.pos p * 2 ^ (53 - d)).
    { replace (53 - d) with (Z.pos k) by lia.
      rewrite <- Z.shiftl_mul_pow2 by lia. unfold Z.shiftl.
      by apply (Pos.iter_swap_gen _ _ Z.pos xO (Z.mul 2)). }
    rewrite binary_round_aux_full.
    + f_equal; [|lia]. rewrite <- Hshift. reflexivity.
    + apply digits2_pos_unique. rewrite Hshift.
      assert (E1 : 2 ^ (53 - 1) = 2 ^ (d - 1) * 2 ^ (53 - d))
        by (rewrite <- Z.pow_add_r by lia; f_equal; lia).
      assert (E2 : 2 ^ 53 = 2 ^ d * 2 ^ (53 - d))
        by (rewrite <- Z.pow_add_r by lia; f_equal; lia).
      rewrite E1, E2.
      assert (0 < 2 ^ (53 - d)) by (apply Z.pow_pos_nonneg; lia).
      split; [apply Z.mul_le_mono_nonneg_r | apply Z.mul_lt_mono_pos_r]; lia.
    + lia.
Qed.

Lemma aligned_digits p :
  let d := Z.pos (digits2_pos p) in
  d <= 53 ->
  Z.pos (digits2_pos (Z.to_pos (Z.pos p * 2 ^ (53 - d)))) = 53.
Proof.
  intros d Hd. pose proof (digits2_pos_spec p) as Hp. fold d in Hp.
  assert (0 < 2 ^ (53 - d)) by (apply Z.pow_pos_nonneg; lia).
  apply digits2_pos_unique. rewrite Z2Pos.id by lia.
  assert (E1 : 2 ^ (53 - 1) = 2 ^ (d - 1) * 2 ^ (53 - d))
    by (rewrite <- Z.pow_add_r by lia; f_equal; lia).
  assert (E2 : 2 ^ 53 = 2 ^ d * 2 ^ (53 - d))
    by (rewrite <- Z.pow_add_r by lia; f_equal; lia).
  rewrite E1, E2.
  split; [apply Z.mul_le_mono_nonneg_r | apply Z.mul_lt_mono_pos_r]; lia.
Qed.

(** The binary64 value of a whole number below [2 ^ 53], as mantissa and
    exponent. *)
Lemma of_Z_finite p :
  let d := Z.pos (digits2_pos p) in
  d <= 53 ->
  Prim2SF (JS.of_Z (Z.pos p)) =
    S754_finite false (Z.to_pos (Z.pos p * 2 ^ (53 - d))) (d - 53).
Proof.
  intros d Hd. pose proof (aligned_digits p Hd) as Haligned. subst d.
  unfold JS.of_Z, binary_normalize.
  rewrite binary_round_short, Z.add_0_r by lia.
  apply Prim2SF_SF2Prim. unfold valid_binary, bounded, canonical_mantissa.
  rewrite Haligned. unfold fexp, emin, prec, emax.
  apply andb_true_iff. split; [apply Z.eqb_eq | apply Z.leb_le]; lia.
Qed.

(** [%] on whole numbers is the remainder of the integers. *)
Lemma rem_whole A B :
  0 <= A < 2 ^ 53 -> 0 < B < 2 ^ 53 ->
  JS.rem (JS.of_Z A) (JS.of_Z B) = JS.of_Z (A mod B).
Proof.
  intros HA HB. destruct B as [|pB|]; [lia| |lia].
  pose proof (digits2_pos_spec pB) as HdB.
  set (dB := Z.pos (digits2_pos pB)) in *.
  assert (HdB53 : dB <= 53).
  { destruct (Z.le_gt_cases dB 53); [done|].
    assert (2 ^ 53 <= 2 ^ (dB - 1)) by (apply Z.pow_le_mono_r; lia). lia. }
  destruct A as [|pA|]; [| |lia].
  { rewrite Z.mod_0_l by lia. unfold JS.rem. rewrite (of_Z_finite pB) by done.
    reflexivity. }
  pose proof (digits2_pos_spec pA) as HdA.
  set (dA := Z.pos (digits2_pos pA)) in *.
  assert (HdA53 : dA <= 53).
  { destruct (Z.le_gt_cases dA 53); [done|].
    assert (2 ^ 53 <= 2 ^ (dA - 1)) by (apply Z.pow_le_mono_r; lia). lia. }
  unfold JS.rem. rewrite (of_Z_finite pA), (of_Z_finite pB) by done.
  fold dA dB. cbv zeta.
  set (k := - Z.min (dA - 53) (dB - 53)).
  assert (Hk : 0 <= k) by (unfold k; lia).
  assert (0 < 2 ^ k) by (apply Z.pow_pos_nonneg; lia).
  assert (0 < 2 ^ (53 - dA)) by (apply Z.pow_pos_nonneg; lia).
  assert (0 < 2 ^ (53 - dB)) by (apply Z.pow_pos_nonneg; lia).
  replace (Z.min (dA - 53) (dB - 53)) with (- k) by (unfold k; lia).
  rewrite !Z2Pos.id by lia.
  assert (EA : Z.pos pA * 2 ^ (53 - dA) * 2 ^ (dA - 53 - - k) = Z.pos pA * 2 ^ k).
  { rewrite <- Z.mul_assoc, <- Z.pow_add_r by lia. do 2 f_equal. lia. }
  assert (EB : Z.pos pB * 2 ^ (53 - dB) * 2 ^ (dB - 53 - - k) = Z.pos pB * 2 ^ k).
  { rewrite <- Z.mul_assoc, <- Z.pow_add_r by lia. do 2 f_equal. lia. }
  rewrite EA, EB.
  rewrite Z.rem_mod_nonneg by lia.
  rewrite Z.mul_mod_distr_r by lia.
  pose proof (Z.mod_pos_bound (Z.pos pA) (Z.pos pB) ltac:(lia)) as HR.
  set (R := Z.pos pA mod Z.pos pB) in *.
  unfold JS.of_Z. f_equal.
  destruct R as [|pR|] eqn:HRpos; [done| |lia].
  pose proof (digits2_pos_spec pR) as HdR.
  set (dR := Z.pos (digits2_pos pR)) in *.
  assert (HdRk : dR + k <= 53).
  { assert (dR <= dB).
    { destruct (Z.le_gt_cases dR dB); [done|].
      assert (2 ^ dB <= 2 ^ (dR - 1)) by (apply Z.pow_le_mono_r; lia). lia. }
    destruct (Z.le_gt_cases dB dA); [unfold k; lia|].
    assert (Z.pos pA < Z.pos pB).
    { assert (2 ^ dA <= 2 ^ (dB - 1)) by (apply Z.pow_le_mono_r; lia). lia. }
    assert (Z.pos pR = Z.pos pA) as HRA.
    { rewrite <- HRpos. unfold R. apply Z.mod_small. lia. }
    assert (dR = dA) by (unfold dR, dA; congruence).
    unfold k. lia. }
  assert (Hdig : Z.pos (digits2_pos (Z.to_pos (Z.pos pR * 2 ^ k))) = dR + k).
  { apply digits2_pos_unique. rewrite Z2Pos.id by lia.
    replace (dR + k - 1) with (dR - 1 + k) by lia. rewrite !Z.pow_add_r by lia.
    split; [apply Z.mul_le_mono_nonneg_r | apply Z.mul_lt_mono_pos_r]; lia. }
  unfold binary_normalize.
  destruct (Z.pos pR * 2 ^ k) as [|pr|] eqn:Hpr; [lia| |lia].
  simpl Z.to_pos in Hdig.
  rewrite !binary_round_short; rewrite ?Hdig; fold dR; try lia.
  f_equal; [|lia]. f_equal. rewrite <- Hpr, <- Z.mul_assoc, <- Z.pow_add_r by lia.
  do 2 f_equal. lia.
Qed.

Lemma of_Z_prim n : 0 <= n < 2 ^ 63 -> JS.of_Z n = of_uint63 (Uint63.of_Z n).
Proof.
  intros Hn. unfold JS.of_Z. rewrite <- (SF2Prim_Prim2SF (of_uint63 _)).
  rewrite of_uint63_spec, Uint63.of_Z_spec, Z.mod_small; [done|].
  change wB with (2 ^ 63). done.
Qed.

(** A number that is at least 0 and below the whole number [k] has its
    floor among 0, ..., k - 1. *)
Lemma floor_below y k :
  0 < k < 2 ^ 53 ->
  (0 <=? y)%float = true -> (y <? JS.of_Z k)%float = true ->
  0 <= JS.floor y < k.
Proof.
  intros Hk. destruct k as [|pk|]; [lia| |lia].
  pose proof (digits2_pos_spec pk) as Hdk.
  set (dk := Z.pos (digits2_pos pk)) in *.
  assert (Hdk53 : dk <= 53).
  { destruct (Z.le_gt_cases dk 53); [done|].
    assert (2 ^ 53 <= 2 ^ (dk - 1)) by (apply Z.pow_le_mono_r; lia). lia. }
  assert (0 < 2 ^ (53 - dk)) by (apply Z.pow_pos_nonneg; lia).
  rewrite FloatAxioms.leb_spec, FloatAxioms.ltb_spec, (of_Z_finite pk) by done. fold dk.
  change (Prim2SF 0) with (S754_zero false).
  pose proof (Prim2SF_valid y) as Hvalid. unfold JS.floor.
  destruct (Prim2SF y) as [s|s| |s m e]; try done.
  destruct s; [done|]. intros _.
  unfold valid_binary, bounded, canonical_mantissa, fexp, emin, prec, emax in Hvalid.
  apply andb_true_iff in Hvalid as [Hcanon%Z.eqb_eq _].
  pose proof (digits2_pos_spec m) as Hdm.
  set (dm := Z.pos (digits2_pos m)) in *.
  assert (Hm : Z.pos m < 2 ^ 53).
  { assert (2 ^ dm <= 2 ^ 53) by (apply Z.pow_le_mono_r; lia). lia. }
  unfold SFltb, SFcompare. destruct (Z.compare_spec e (dk - 53)) as [->|Hlt|Hgt];
    [| |done].
  - match goal with
    | |- context [Pos.compare_cont Eq ?a ?b] =>
        change (Pos.compare_cont Eq a b) with (Pos.compare a b)
    end.
    destruct (Pos.compare_spec m (Z.to_pos (Z.pos pk * 2 ^ (53 - dk)))) as [|Hmk|];
      try done.
    intros _. apply Pos2Z.pos_lt_pos in Hmk. rewrite Z2Pos.id in Hmk by lia.
    destruct (Z.leb_spec 0 (dk - 53)).
    + replace dk with 53 in * by lia. simpl in *. lia.
    + replace (- (dk - 53)) with (53 - dk) by lia. split.
      * apply Z.div_pos; lia.
      * apply Z.div_lt_upper_bound; lia.
  - intros _. destruct (Z.leb_spec 0 e); [lia|].
    assert (0 < 2 ^ (- e)) by (apply Z.pow_pos_nonneg; lia).
    split; [apply Z.div_pos; lia|].
    apply Z.div_lt_upper_bound; [done|].
    assert (2 ^ (54 - dk) <= 2 ^ (- e)) by (apply Z.pow_le_mono_r; lia).
    assert (2 ^ 53 = 2 ^ (54 - dk) * 2 ^ (dk - 1))
      by (rewrite <- Z.pow_add_r by lia; f_equal; lia).
    assert (0 < 2 ^ (dk - 1)) by (apply Z.pow_pos_nonneg; lia).
    nia.
Qed.

Lemma allFrom_spec fuel z0 p :
  allFrom fuel z0 p = true ->
  forall z, z0 <= z < z0 + Z.of_nat fuel -> p z = true.
Proof.
  revert z0. induction fuel as [|fuel IH]; intros z0 Hall z Hz; [lia|].
  simpl in Hall. destruct (p z0) eqn:Hp; [|done].
  destruct (Z.eq_dec z z0) as [->|]; [done|]. apply (IH (z0 + 1)); [done|lia].
Qed.

(** Every seed below the modulus passes the checks (by running them). *)
Lemma all_seeds_checked : allFrom (Z.to_nat 233280) 0 seedChecks = true.
Proof. vm_compute. reflexivity. Qed.

Lemma seed_checked z : 0 <= z < 233280 -> seedChecks z = true.
Proof.
  intros Hz. apply (allFrom_spec _ _ _ all_seeds_checked).
  rewrite Z2Nat.id; lia.
Qed.

Lemma lcgStep_range z : 0 <= lcgStep z < 233280.
Proof. unfold lcgStep. apply Z.mod_pos_bound. lia. Qed.

(** On a whole seed below the modulus, [next()] is the generator on whole
    numbers, computed without any rounding. *)
Lemma next_whole z :
  0 <= z < 233280 ->
  SeededRNG_next (mkRNG (JS.of_Z z)) =
    ((JS.of_Z (lcgStep z) / 233280)%float, mkRNG (JS.of_Z (lcgStep z))).
Proof.
  intros Hz. pose proof (seed_checked z Hz) as Hchecked.
  unfold seedChecks in Hchecked. cbv zeta in Hchecked.
  apply andb_true_iff in Hchecked as [Hexact%Leibniz.eqb_spec _].
  rewrite <- !of_Z_prim in Hexact by lia.
  assert (Hseed : JS.rem (JS.of_Z z * 9301 + 49297)%float 233280%float
                  = JS.of_Z (lcgStep z)).
  { rewrite Hexact. change 233280%float with (JS.of_Z 233280).
    apply rem_whole; lia. }
  unfold SeededRNG_next. simpl seed. cbv zeta. by rewrite Hseed.
Qed.

(** The draws of the engine: [nextInt(0, k - 1)] for [k] from 3 to 6 on a
    whole seed below the modulus is a whole number from 0 to [k - 1]. *)
Lemma nextInt_whole z k :
  0 <= z < 233280 -> 3 <= k <= 6 ->
  exists v,
    SeededRNG_nextInt 0 (k - 1) (mkRNG (JS.of_Z z)) = (v, mkRNG (JS.of_Z (lcgStep z))) /\
    0 <= v <= k - 1.
Proof.
  intros Hz Hk. unfold SeededRNG_nextInt. rewrite next_whole by done.
  eexists. split; [reflexivity|].
  replace (k - 1 - 0 + 1) with k by lia.
  pose proof (seed_checked (lcgStep z) (lcgStep_range z)) as Hchecked.
  unfold seedChecks in Hchecked. cbv zeta in Hchecked.
  apply andb_true_iff in Hchecked as [_ Hdraws].
  rewrite <- of_Z_prim in Hdraws by (pose proof (lcgStep_range z); lia).
  simpl in Hdraws. rewrite !andb_true_iff in Hdraws.
  destruct Hdraws as ((H3 & H3') & (H4 & H4') & (H5 & H5') & (H6 & H6') & _).
  assert (Hcases : k = 3 \/ k = 4 \/ k = 5 \/ k = 6) by lia.
  cut (0 <= JS.floor (JS.of_Z (lcgStep z) / 233280 * JS.of_Z k)%float < k); [lia|].
  destruct Hcases as [->|[->|[->| ->]]]; (apply floor_below; [lia|done..]).
Qed.

(* ===================================================================== *)
(** ** Tiles over the grid, colours of the palette *)
(* ===================================================================== *)

Ltac palette_frame Hs := destruct Hs; constructor; simpl in *; try assumption.

Lemma loseLife_Palette reason : preserves Palette (loseLife reason).
Proof. intros s Hs. unfold loseLife. wp_steps; by palette_frame Hs. Qed.

Lemma checkLevelUp_Palette : preserves Palette checkLevelUp.
Proof.
  intros s Hs. unfold checkLevelUp. wp_steps; [|done].
  apply Z.ltb_lt in Heqb. palette_frame Hs. lia.
Qed.

Lemma checkRackMatches_rec_Palette fuel : preserves Palette (checkRackMatches_rec fuel).
Proof.
  induction fuel as [|fuel IH]; intros s Hs; simpl; [done|].
  wp_step. destruct (_ <? 3); [done|].
  destruct (firstRackRun _ _) as [[[start runLen] color]|]; [|done].
  wp_steps.
  wp_call checkLevelUp_Palette as s1 Hs1; [|by apply IH|done].
  palette_frame Hs. unfold JS.splice_rest.
  apply Forall_app. split; [by apply Forall_take | by apply Forall_drop].
Qed.

Lemma set_valid {A} (P : A -> Prop) (arr : list A) i v :
  Forall P arr -> P v -> Forall P (JS.set arr i v).
Proof.
  intros Harr Hv. unfold JS.set. destruct (i <? 0); [done|]. by apply Forall_insert.
Qed.

Lemma index_valid {A} (P : A -> Prop) (arr : list A) i x :
  Forall P arr -> JS.index arr i = Some x -> P x.
Proof.
  intros Harr [_ Hx]%index_Some. rewrite Forall_forall in Harr.
  eapply Harr, list_elem_of_lookup_2, Hx.
Qed.

Lemma setCell_valid w col row v :
  Forall (Forall validCell) w -> validCell v ->
  Forall (Forall validCell) (setCell w col row v).
Proof.
  intros Hw Hv. unfold setCell.
  destruct (JS.index w col) as [column|] eqn:Hcol; [|done].
  apply set_valid; [done|]. apply set_valid; [|done].
  by apply (index_valid _ w col).
Qed.

Lemma dropTileIntoWell_Palette col colorIndex :
  validColor colorIndex -> preserves Palette (dropTileIntoWell col colorIndex).
Proof.
  intros Hc s Hs. unfold dropTileIntoWell. wp_steps; try done.
  - palette_frame Hs. by apply setCell_valid.
  - by apply loseLife_Palette.
Qed.

Lemma handleTileReachedEnd_Palette tile :
  tileInGrid tile -> preserves Palette (handleTileReachedEnd tile).
Proof.
  intros [Hcol Hc] s Hs. unfold handleTileReachedEnd. wp_step.
  destruct (tile_column tile =? catcherColumn s).
  - destruct (JS.len (rack s) <? RACK_CAPACITY).
    + wp_steps. unfold checkRackMatches. wp_step.
      apply checkRackMatches_rec_Palette. palette_frame Hs.
      apply Forall_app. split; [done | by apply Forall_singleton].
    + by apply loseLife_Palette.
  - wp_call (dropTileIntoWell_Palette _ _ Hc) as s1 Hs1; [done | | done].
    wp_steps. by palette_frame Hs1.
Qed.

Lemma dropFromRack_Palette : preserves Palette dropFromRack.
Proof.
  intros s Hs. unfold dropFromRack. wp_step.
  destruct (_ && _); [|done]. destruct (rack s) as [|c rest] eqn:Hrack; [done|].
  pose proof (palette_rack _ Hs) as Hvalid. rewrite Hrack in Hvalid.
  apply Forall_cons in Hvalid as [Hc Hrest].
  wp_step.
  wp_call (dropTileIntoWell_Palette _ _ Hc) as s1 Hs1; [by palette_frame Hs | | done].
  wp_steps. by palette_frame Hs1.
Qed.

(** A draw of the engine on a whole seed. *)
Lemma rng_nextInt_Palette k s :
  3 <= k <= 6 -> Palette s ->
  wp (rng_nextInt 0 (k - 1)) (fun v s' => Palette s' /\ 0 <= v <= k - 1)
     (fun _ => False) s.
Proof.
  intros Hk Hs. unfold wp, rng_nextInt.
  destruct (palette_seed _ Hs) as (z & Hz & ->).
  destruct (nextInt_whole z k Hz Hk) as (v & -> & Hv).
  split; [|done]. palette_frame Hs. exists (lcgStep z).
  split; [apply lcgStep_range | done].
Qed.

Lemma getNumColors_range s : 1 <= level s -> 3 <= getNumColors s <= 6.
Proof.
  intros Hlevel. unfold getNumColors, COLORS_length.
  assert (0 <= level s / 3) by (apply Z.div_pos; lia). lia.
Qed.

Lemma spawnTile_Palette : preserves Palette spawnTile.
Proof.
  intros s Hs. unfold spawnTile. wp_step.
  pose proof (getNumColors_range s (palette_level _ Hs)) as Hcolors.
  wp_call (rng_nextInt_Palette (getNumColors s)) as s1 Hs1; [done.. | | done].
  destruct Hs1 as [Hs1 Hcolor].
  change (WELL_COLS - 1) with (5 - 1).
  wp_call (rng_nextInt_Palette 5) as s2 Hs2; [lia | done | | done].
  destruct Hs2 as [Hs2 Hcolumn].
  wp_steps. palette_frame Hs2.
  apply Forall_app. split; [done|]. apply Forall_singleton.
  unfold tileInGrid, validColor, WELL_COLS, COLORS_length. simpl. lia.
Qed.

Lemma updateSpawning_Palette : preserves Palette updateSpawning.
Proof.
  intros s Hs. unfold updateSpawning. wp_steps.
  - eapply wp_mono; [apply spawnTile_Palette | done | done]. by palette_frame Hs.
  - by palette_frame Hs.
Qed.

Lemma updateConveyor_loop_Palette speed n :
  preserves Palette (updateConveyor_loop speed n).
Proof.
  induction n as [|i IH]; intros s Hs; simpl; [done|].
  wp_step. destruct (conveyorTiles s !! i) as [tile|] eqn:Hi; [|done].
  pose proof (palette_tiles _ Hs) as Htiles. rewrite Forall_forall in Htiles.
  pose proof (Htiles tile (list_elem_of_lookup_2 _ _ _ Hi)) as Htile.
  wp_steps.
  - wp_call (handleTileReachedEnd_Palette _ Htile) as s1 Hs1; [ | by apply IH | done].
    palette_frame Hs. rewrite delete_insert_same. by apply Forall_delete.
  - apply IH. palette_frame Hs. by apply Forall_insert.
Qed.

Lemma updateConveyor_Palette : preserves Palette updateConveyor.
Proof.
  intros s Hs. unfold updateConveyor. wp_steps. by apply updateConveyor_loop_Palette.
Qed.

Lemma clearTiles_valid tiles w :
  Forall (Forall validCell) w -> Forall (Forall validCell) (clearTiles tiles w).
Proof.
  unfold clearTiles, JS.for_each. revert w.
  induction tiles as [|[col row] tiles IH]; intros w Hw; simpl; [done|].
  apply IH. by apply setCell_valid.
Qed.

Lemma clearMatches_valid (matches : list WellMatch) w :
  Forall (Forall validCell) w ->
  Forall (Forall validCell)
    (JS.for_each matches (fun m w => clearTiles (match_tiles m) w) w).
Proof.
  unfold JS.for_each. revert w.
  induction matches as [|m matches IH]; intros w Hw; simpl; [done|].
  apply IH. by apply clearTiles_valid.
Qed.

Lemma compactColumn_valid column :
  Forall validCell column -> Forall validColor (compactColumn column).
Proof.
  intros Hcolumn. unfold compactColumn, JS.for_each.
  cut (forall rows acc,
         Forall validColor acc ->
         Forall validColor
           (fold_left
              (fun compacted row =>
                 match JS.index column row with
                 | Some (Some c) => compacted ++ [c]
                 | _ => compacted
                 end) rows acc)).
  { intros Hfold. apply Hfold. constructor. }
  induction rows as [|row rows IH]; intros acc Hacc; simpl; [done|].
  apply IH. destruct (JS.index column row) as [[c|]|] eqn:Hrow; try done.
  apply Forall_app. split; [done|]. apply Forall_singleton.
  apply (index_valid _ _ _ _ Hcolumn Hrow).
Qed.

Lemma rebuildColumn_valid compacted column :
  Forall validColor compacted -> Forall validCell column ->
  Forall validCell (rebuildColumn compacted column).
Proof.
  intros Hcompacted. unfold rebuildColumn, JS.for_each.
  generalize (seqZ 0 WELL_ROWS). intros rows. revert column.
  induction rows as [|row rows IH]; intros column Hcolumn; simpl; [done|].
  apply IH. apply set_valid; [done|].
  destruct (_ <? _); [|done].
  destruct (JS.index compacted _) as [c|] eqn:Hc; [|done].
  apply (index_valid _ _ _ _ Hcompacted Hc).
Qed.

Lemma applyGravity_Palette : preserves Palette applyGravity.
Proof.
  intros s Hs. unfold applyGravity. wp_step.
  destruct Hs as [? ? ? ? Hwell]. constructor; try assumption.
  cbn [well set_well]. revert Hwell. generalize (well s).
  unfold JS.for_each. generalize (seqZ 0 WELL_COLS).
  cut (forall cols w,
         Forall (Forall validCell) w ->
         Forall (Forall validCell)
           (fold_left
              (fun w col =>
                 match JS.index w col with
                 | Some column =>
                     JS.set w col (rebuildColumn (compactColumn column) column)
                 | None => w
                 end) cols w)).
  { intros Hfold cols w. apply Hfold. }
  clear. induction cols as [|col cols IH]; intros w Hw; simpl; [done|].
  apply IH. destruct (JS.index w col) as [column|] eqn:Hcol; [|done].
  apply set_valid; [done|].
  pose proof (index_valid _ _ _ _ Hw Hcol) as Hcolumn.
  apply rebuildColumn_valid; [by apply compactColumn_valid | done].
Qed.

Lemma checkMatches_Palette : preserves Palette checkMatches.
Proof.
  intros s Hs. unfold checkMatches. wp_step.
  destruct (0 <? _); [|done].
  wp_steps.
  wp_call applyGravity_Palette as s1 Hs1; [ | by apply checkLevelUp_Palette | done].
  palette_frame Hs. by apply clearMatches_valid.
Qed.

Lemma update_Palette : preserves Palette update.
Proof.
  intros s Hs. unfold update. wp_step. destruct (_ || _); [done|].
  wp_steps.
  wp_call updateSpawning_Palette as s1 Hs1; [by palette_frame Hs | | done].
  wp_call updateConveyor_Palette as s2 Hs2; [done | | done].
  by apply checkMatches_Palette.
Qed.

Lemma initial_Palette r : wholeSeed r -> Palette (initial r).
Proof.
  intros Hr. constructor; simpl; try done.
  repeat constructor.
Qed.

Lemma perform_Palette c s : Palette s -> Palette (perform c s).
Proof.
  intros Hs. destruct c; simpl; apply preserves_exec; try done.
  - apply update_Palette.
  - intros s1 Hs1. unfold moveLeft. wp_steps; [by palette_frame Hs1 | done].
  - intros s1 Hs1. unfold moveRight. wp_steps; [by palette_frame Hs1 | done].
  - apply dropFromRack_Palette.
  - intros s1 Hs1. unfold togglePause. wp_steps; [by palette_frame Hs1 | done].
  - intros s1 Hs1. apply initial_Palette, (palette_seed _ Hs1).
Qed.

Lemma performAll_Palette cs s : Palette s -> Palette (performAll cs s).
Proof.
  unfold performAll. revert s.
  induction cs as [|c cs IH]; intros s Hs; simpl; [done|].
  by apply IH, perform_Palette.
Qed.

(* ===================================================================== *)
(** ** No public call throws *)
(* ===================================================================== *)

Lemma wp_conj {A} (m : M A) (Q1 Q2 : A -> Game -> Prop) (E1 E2 : Game -> Prop) s :
  wp m Q1 E1 s -> wp m Q2 E2 s ->
  wp m (fun a s' => Q1 a s' /\ Q2 a s') (fun s' => E1 s' /\ E2 s') s.
Proof. unfold wp. destruct (m s) as [[a|] s']; auto. Qed.

(** [m], run from a sound state, returns and leaves a sound state. *)
Lemma sound_total {A} (m : M A) (P : Game -> Prop) s :
  preserves Inv m -> preserves Palette m ->
  Sound s ->
  wp m (fun _ => P) (fun _ => False) s ->
  wp m (fun _ s' => Sound s' /\ P s') (fun _ => False) s.
Proof.
  intros HInv HPalette [Hs1 Hs2] Hreturns.
  eapply wp_mono;
    [exact (wp_conj _ _ _ _ _ _ (wp_conj _ _ _ _ _ _ (HInv s Hs1) (HPalette s Hs2))
              Hreturns) | |]; cbn beta.
  - intros _ s' [[? ?] ?]. by split.
  - intros s' [_ []].
Qed.

Lemma loseLife_returns reason l s :
  conveyorTiles s = l ->
  wp (loseLife reason) (fun _ s' => conveyorTiles s' = l) (fun _ => False) s.
Proof. intros Hl. unfold loseLife. by wp_steps. Qed.

Lemma checkLevelUp_returns l s :
  conveyorTiles s = l ->
  wp checkLevelUp (fun _ s' => conveyorTiles s' = l) (fun _ => False) s.
Proof. intros Hl. unfold checkLevelUp. by wp_steps. Qed.

Lemma checkRackMatches_rec_returns fuel l s :
  conveyorTiles s = l ->
  wp (checkRackMatches_rec fuel) (fun _ s' => conveyorTiles s' = l) (fun _ => False) s.
Proof.
  revert s. induction fuel as [|fuel IH]; intros s Hl; simpl; [done|].
  wp_step. destruct (_ <? 3); [done|].
  destruct (firstRackRun _ _) as [[[start runLen] color]|]; [|done].
  wp_steps.
  wp_call (checkLevelUp_returns l) as s1 Hs1; [done | by apply IH | done].
Qed.

Lemma handleTileReachedEnd_returns tile s :
  well_shaped (well s) -> 0 <= tile_column tile < WELL_COLS ->
  wp (handleTileReachedEnd tile) (fun _ s' => conveyorTiles s' = conveyorTiles s)
     (fun _ => False) s.
Proof.
  intros [Hlen _] Hcol. unfold handleTileReachedEnd. wp_step.
  destruct (tile_column tile =? catcherColumn s).
  - destruct (JS.len (rack s) <? RACK_CAPACITY).
    + wp_steps. unfold checkRackMatches. wp_step.
      by apply checkRackMatches_rec_returns.
    + by apply loseLife_returns.
  - unfold dropTileIntoWell. apply wp_bind. wp_step.
    destruct (index_in_range (well s) (tile_column tile)) as [column Hcolumn].
    { unfold JS.len. rewrite Hlen. unfold WELL_COLS in *. lia. }
    rewrite Hcolumn. destruct (firstEmptyRow _ _); [by wp_steps|].
    wp_call (loseLife_returns "Well column full" (conveyorTiles s)) as s1 Hs1;
      [done | by wp_steps | done].
Qed.

Lemma handleTileReachedEnd_total tile s :
  Sound s -> tileInGrid tile ->
  wp (handleTileReachedEnd tile)
     (fun _ s' => Sound s' /\ conveyorTiles s' = conveyorTiles s) (fun _ => False) s.
Proof.
  intros Hs Htile. apply sound_total; [| |done|].
  - apply handleTileReachedEnd_Inv.
  - by apply handleTileReachedEnd_Palette.
  - apply handleTileReachedEnd_returns; [apply (inv_shape _ (proj1 Hs)) | apply Htile].
Qed.

Lemma updateConveyor_loop_total speed n s :
  Sound s -> (n <= length (conveyorTiles s))%nat ->
  wp (updateConveyor_loop speed n) (fun _ => Sound) (fun _ => False) s.
Proof.
  revert s. induction n as [|i IH]; intros s Hs Hn; simpl; [done|].
  wp_step. destruct (lookup_lt_is_Some_2 (conveyorTiles s) i ltac:(lia)) as [tile Hi].
  rewrite Hi. destruct Hs as [HInv HPalette].
  pose proof (palette_tiles _ HPalette) as Htiles.
  pose proof Htiles as Htile. rewrite Forall_forall in Htile.
  specialize (Htile tile (list_elem_of_lookup_2 _ _ _ Hi)).
  wp_steps.
  - wp_call (handleTileReachedEnd_total
               (mkTile (tile_id tile) (tile_position tile + speed)%float
                  (tile_colorIndex tile) (tile_column tile))) as s1 Hs1.
    + split; [by inv_frame HInv|]. palette_frame HPalette.
      rewrite delete_insert_same. by apply Forall_delete.
    + done.
    + destruct Hs1 as [Hs1 Hsame]. apply IH; [done|]. simpl in Hsame.
      rewrite Hsame, delete_insert_same, length_delete by done. lia.
    + done.
  - apply IH.
    + split; [by inv_frame HInv|]. palette_frame HPalette. by apply Forall_insert.
    + simpl. rewrite length_insert. lia.
Qed.

Lemma update_total s :
  Sound s -> wp update (fun _ => Sound) (fun _ => False) s.
Proof.
  intros Hs. unfold update. wp_step. destruct (_ || _); [done|].
  wp_steps.
  assert (Hs1 : Sound (set_events [] (set_frameCount (frameCount s + 1) s))).
  { destruct Hs as [HInv HPalette]. split; [by inv_frame HInv | by palette_frame HPalette]. }
  revert Hs1. generalize (set_events [] (set_frameCount (frameCount s + 1) s)).
  clear s Hs. intros s Hs.
  apply wp_bind.
  eapply wp_mono;
    [apply (sound_total updateSpawning (fun _ => True));
       [apply updateSpawning_Inv | apply updateSpawning_Palette | done |] | |];
    cbn beta.
  - unfold updateSpawning, spawnTile, rng_nextInt. wp_steps; [|done].
    apply wp_bind. unfold wp at 1. cbn beta.
    destruct (SeededRNG_nextInt _ _ _) as [v r']. cbn iota beta.
    apply wp_bind. unfold wp at 1. cbn beta.
    destruct (SeededRNG_nextInt _ _ _) as [v' r'']. cbn iota beta.
    by wp_steps.
  - intros _ s1 [Hs1 _]. apply wp_bind. unfold updateConveyor. apply wp_bind, wp_get.
    wp_call (updateConveyor_loop_total (getTileSpeed s1)) as s2 Hs2; [done.. | | done].
    eapply wp_mono;
      [apply (sound_total checkMatches (fun _ => True));
         [apply checkMatches_Inv | apply checkMatches_Palette | done |] | |];
      cbn beta.
    + unfold checkMatches, applyGravity, checkLevelUp. by wp_steps.
    + by intros _ s3 [Hs3 _].
    + done.
  - done.
Qed.

Lemma dropFromRack_total s :
  Sound s -> wp dropFromRack (fun _ => Sound) (fun _ => False) s.
Proof.
  intros Hs.
  eapply wp_mono;
    [apply (sound_total dropFromRack (fun _ => True));
       [apply dropFromRack_Inv | apply dropFromRack_Palette | done |] | |];
    cbn beta; [|by intros _ s1 [? _] | done].
  destruct Hs as [HInv _]. unfold dropFromRack. wp_step.
  destruct (_ && _); [|done]. destruct (rack s) as [|c rest]; [done|].
  wp_step. unfold dropTileIntoWell. apply wp_bind. wp_step.
  cbn [well set_rack].
  destruct (index_in_range (well s) (catcherColumn s)) as [column Hcolumn].
  { pose proof (inv_catcher _ HInv). destruct (inv_shape _ HInv) as [Hlen _].
    unfold JS.len. rewrite Hlen. unfold WELL_COLS in *. lia. }
  rewrite Hcolumn. destruct (firstEmptyRow _ _); [by wp_steps|].
  wp_call (loseLife_returns "Well column full" (conveyorTiles s)) as s1 Hs1;
    [done | by wp_steps | done].
Qed.

Lemma initial_Sound r : wholeSeed r -> Sound (initial r).
Proof. intros Hr. split; [apply initial_Inv | by apply initial_Palette]. Qed.

Lemma perform_Sound c s : Sound s -> Sound (perform c s).
Proof. intros [? ?]. split; [by apply perform_Inv | by apply perform_Palette]. Qed.

Lemma performAll_Sound cs s : Sound s -> Sound (performAll cs s).
Proof.
  unfold performAll. revert s.
  induction cs as [|c cs IH]; intros s Hs; simpl; [done|].
  by apply IH, perform_Sound.
Qed.

Lemma call_returns c s : Sound s -> is_Some (callResult c s).
Proof.
  intros Hs. destruct c; unfold callResult, completion.
  - pose proof (update_total s Hs) as Hwp. unfold wp in Hwp.
    by destruct (update s) as [[[]|] s'].
  - unfold moveLeft, bind, get, modify, ret. by destruct (_ && _).
  - unfold moveRight, bind, get, modify, ret. by destruct (_ && _).
  - pose proof (dropFromRack_total s Hs) as Hwp. unfold wp in Hwp.
    by destruct (dropFromRack s) as [[b|] s'].
  - unfold togglePause, bind, get, modify, ret. by destruct (negb _).
  - done.
Qed.

(* ===================================================================== *)
(** ** Games with a whole seed *)
(* ===================================================================== *)

(** X22.  On a seed that is a whole number below 233280 the generator runs
    on whole numbers without any rounding: [next()] leaves the seed
    [(seed * 9301 + 49297) mod 233280] and returns it divided by 233280,
    and [nextInt(0, k - 1)], for the ranges [k] = 3, ..., 6 the engine
    draws from, returns a whole number from 0 to [k - 1]. *)
Theorem rng_runs_on_whole_numbers z :
  0 <= z < 233280 ->
  SeededRNG_next (mkRNG (JS.of_Z z)) =
    ((JS.of_Z (lcgStep z) / 233280)%float, mkRNG (JS.of_Z (lcgStep z))) /\
  0 <= lcgStep z < 233280 /\
  forall k, 3 <= k <= 6 ->
    exists v,
      SeededRNG_nextInt 0 (k - 1) (mkRNG (JS.of_Z z)) =
        (v, mkRNG (JS.of_Z (lcgStep z))) /\
      0 <= v <= k - 1.
Proof.
  intros Hz. split; [by apply next_whole|]. split; [apply lcgStep_range|].
  intros k Hk. by apply nextInt_whole.
Qed.

Lemma rng_runs_on_whole_numbers_witness :
  SeededRNG_next (mkRNG (JS.of_Z 42)) =
    ((JS.of_Z 206659 / 233280)%float, mkRNG (JS.of_Z 206659)) /\
  0 <= lcgStep 42 < 233280 /\
  forall k, 3 <= k <= 6 ->
    exists v,
      SeededRNG_nextInt 0 (k - 1) (mkRNG (JS.of_Z 42)) =
        (v, mkRNG (JS.of_Z (lcgStep 42))) /\
      0 <= v <= k - 1.
Proof. apply (rng_runs_on_whole_numbers 42). lia. Defined.

(** X23.  In a game created with a whole seed below 233280 every tile on
    the conveyor is over one of the five columns of the well, and every
    colour index on the conveyor, in the rack and in the well is one of the
    six of the palette, whatever public calls are made. *)
Theorem tiles_stay_over_the_grid z cs :
  0 <= z < 233280 ->
  wholeSeed (rng (performAll cs (newGame (JS.of_Z z)))) /\
  Forall tileInGrid (conveyorTiles (performAll cs (newGame (JS.of_Z z)))) /\
  Forall validColor (rack (performAll cs (newGame (JS.of_Z z)))) /\
  Forall (Forall validCell) (well (performAll cs (newGame (JS.of_Z z)))).
Proof.
  intros Hz.
  destruct (performAll_Palette cs (newGame (JS.of_Z z))) as [? _ ? ? ?]; [|done].
  apply initial_Palette. by exists z.
Qed.

Lemma tiles_stay_over_the_grid_witness :
  wholeSeed (rng pausedAfterSpawn) /\
  Forall tileInGrid (conveyorTiles pausedAfterSpawn) /\
  Forall validColor (rack pausedAfterSpawn) /\
  Forall (Forall validCell) (well pausedAfterSpawn).
Proof.
  apply (tiles_stay_over_the_grid 42 (replicate 120 CallUpdate ++ [CallTogglePause])).
  lia.
Defined.

(** X24.  In a game created with a whole seed below 233280 no public call
    ever throws: every [update()], move, drop, pause toggle and reset
    returns normally. *)
Theorem no_call_throws z cs c :
  0 <= z < 233280 ->
  callResult c (performAll cs (newGame (JS.of_Z z))) <> None.
Proof.
  intros Hz Hnone.
  destruct (call_returns c (performAll cs (newGame (JS.of_Z z)))) as [r Hr];
    [|congruence].
  apply performAll_Sound, initial_Sound. by exists z.
Qed.

Lemma no_call_throws_witness :
  callResult CallUpdate (performAll (replicate 2585 CallUpdate) (newGame (JS.of_Z 42)))
  <> None.
Proof. apply (no_call_throws 42 (replicate 2585 CallUpdate) CallUpdate). lia. Defined.

(** X25.  [getColorRGBA] returns the palette entry for each of the six
    colour indices and white for any other whole number; in both cases
    four components between 0 and 1, the last of them (alpha) 1. *)
Theorem getColorRGBA_is_a_colour c :
  (validColor c -> JS.index COLORS c = Some (getColorRGBA c)) /\
  (~ validColor c -> getColorRGBA c = [1; 1; 1; 1]%float) /\
  length (getColorRGBA c) = 4%nat /\
  Forall unitInterval (getColorRGBA c) /\
  getColorRGBA c !! 3%nat = Some 1%float.
Proof.
  unfold validColor, COLORS_length.
  destruct (Z.lt_ge_cases c 0) as [Hneg|Hpos].
  { assert (Hc : getColorRGBA c = [1; 1; 1; 1]%float).
    { unfold getColorRGBA, JS.index. by rewrite (proj2 (Z.ltb_lt _ _) Hneg). }
    rewrite Hc. repeat split; try done; try lia. repeat constructor. }
  destruct (Z.lt_ge_cases c 6) as [Hlt|Hge].
  - assert (Hcases : c = 0 \/ c = 1 \/ c = 2 \/ c = 3 \/ c = 4 \/ c = 5) by lia.
    destruct Hcases as [->|[->|[->|[->|[->| ->]]]]];
      (split; [done|]); (split; [lia|]); (split; [done|]);
      (split; [repeat constructor | done]).
  - assert (Hc : getColorRGBA c = [1; 1; 1; 1]%float).
    { unfold getColorRGBA, JS.index. rewrite (proj2 (Z.ltb_ge _ _) Hpos).
      rewrite lookup_ge_None_2; [done|]. simpl. lia. }
    rewrite Hc. repeat split; try done; try lia. repeat constructor.
Qed.

(* ===================================================================== *)
(** ** The rack check settles the rack *)
(* ===================================================================== *)

Lemma rackRunLength_cells rack start color k :
  1 <= k < rackRunLength rack start color ->
  JS.index rack (start + k) = Some color.
Proof.
  intros Hk. unfold rackRunLength in Hk.
  apply count_while_passed in Hk.
  apply andb_true_iff in Hk as [_ Hk]. by apply bool_decide_eq_true in Hk.
Qed.

Lemma firstRackRun_no_run rack starts :
  no_rack_run rack -> firstRackRun rack starts = None.
Proof.
  intros Hrun. induction starts as [|start starts IH]; simpl; [done|].
  destruct (JS.index rack start) as [color|] eqn:Hstart; [|done].
  destruct (Z.leb_spec 3 (rackRunLength rack start color)) as [Hlen|]; [|done].
  destruct (Hrun start color Hstart); apply rackRunLength_cells; lia.
Qed.

Lemma checkRackMatches_rec_settles fuel s :
  (length (rack s) < fuel)%nat ->
  completion (checkRackMatches_rec fuel) s = Normal tt /\
  no_rack_run (rack (exec (checkRackMatches_rec fuel) s)).
Proof.
  revert s. induction fuel as [|fuel IH]; intros s Hfuel; [lia|].
  destruct (Z.ltb_spec (JS.len (rack s)) 3) as [Hshort|Hlong].
  { unfold completion, exec. rewrite checkRackMatches_rec_short by done.
    split; [done | by apply no_run_short]. }
  destruct (firstRackRun (rack s) (seqZ 0 (JS.len (rack s) - 3 + 1)))
    as [[[start runLen] color]|] eqn:Hscan.
  2:{ unfold completion, exec. rewrite checkRackMatches_rec_none by done.
      split; [done | by apply no_run_after_scan]. }
  unfold completion, exec.
  rewrite (checkRackMatches_rec_found _ _ start runLen color) by done.
  apply IH.
  apply firstRackRun_Some in Hscan as [[Hstart Hstart']%elem_of_seqZ Hrun].
  pose proof (splice_rest_length (rack s) start runLen ltac:(lia) ltac:(lia) Hrun).
  unfold exec. rewrite checkLevelUp_exec. cbv zeta.
  unfold JS.len in *. destruct (_ <? _); simpl; lia.
Qed.

(** X26.  [checkRackMatches()] always returns, and leaves a rack without
    any run of three; on a rack that has none it changes nothing, so that
    calling it twice is the same as calling it once. *)
Theorem checkRackMatches_settles_the_rack s :
  completion checkRackMatches s = Normal tt /\
  no_rack_run (rack (exec checkRackMatches s)) /\
  (no_rack_run (rack s) -> checkRackMatches s = (Normal tt, s)) /\
  exec checkRackMatches (exec checkRackMatches s) = exec checkRackMatches s.
Proof.
  assert (Hfixed : forall s, no_rack_run (rack s) -> checkRackMatches s = (Normal tt, s)).
  { intros s' Hrun. rewrite checkRackMatches_unfold.
    apply checkRackMatches_rec_none. by apply firstRackRun_no_run. }
  destruct (checkRackMatches_rec_settles (S (length (rack s))) s) as [Hdone Hrun]; [lia|].
  unfold completion, exec in Hdone, Hrun.
  rewrite <- checkRackMatches_unfold in Hdone, Hrun.
  repeat split; try done.
  - by apply Hfixed.
  - unfold exec at 1. by rewrite Hfixed.
Qed.

Lemma checkRackMatches_settles_the_rack_witness :
  rack (exec checkRackMatches rackWithRun) = [] /\
  checkRackMatches rackWithPair = (Normal tt, rackWithPair).
Proof.
  destruct (checkRackMatches_settles_the_rack rackWithPair) as (_ & _ & Hfixed & _).
  split; [by vm_compute|]. apply Hfixed.
  apply inv_rack_runs, reachable_Inv, idleGame_reachable. reflexivity.
Defined.

(* ===================================================================== *)
(** ** The conveyor keeps its order *)
(* ===================================================================== *)

Lemma loseLife_parked l reason :
  preserves (fun s => conveyorTiles s = l) (loseLife reason).
Proof. intros s Hs. unfold loseLife. by wp_steps. Qed.

Lemma checkLevelUp_parked l : preserves (fun s => conveyorTiles s = l) checkLevelUp.
Proof. intros s Hs. unfold checkLevelUp. by wp_steps. Qed.

Lemma checkRackMatches_rec_parked l fuel :
  preserves (fun s => conveyorTiles s = l) (checkRackMatches_rec fuel).
Proof.
  induction fuel as [|fuel IH]; intros s Hs; simpl; [done|].
  wp_step. destruct (_ <? 3); [done|].
  destruct (firstRackRun _ _) as [[[start runLen] color]|]; [|done].
  wp_steps.
  wp_call (checkLevelUp_parked l) as s1 Hs1; [done | by apply IH | done].
Qed.

Lemma handleTileReachedEnd_parked l tile :
  preserves (fun s => conveyorTiles s = l) (handleTileReachedEnd tile).
Proof.
  intros s Hs. unfold handleTileReachedEnd. wp_step.
  destruct (tile_column tile =? catcherColumn s).
  - destruct (JS.len (rack s) <? RACK_CAPACITY).
    + wp_steps. unfold checkRackMatches. wp_step.
      by apply checkRackMatches_rec_parked.
    + by apply loseLife_parked.
  - unfold dropTileIntoWell. wp_steps; try done.
    wp_call (loseLife_parked l) as s1 Hs1; [done | by wp_steps | done].
Qed.

Lemma tileFacts_insert (tiles : list Tile) i tile tile' :
  tiles !! i = Some tile -> tileFacts tile' = tileFacts tile ->
  tileFacts <$> <[i := tile']> tiles = tileFacts <$> tiles.
Proof.
  intros Hi Hfacts. rewrite list_fmap_insert, Hfacts.
  apply list_insert_id. by rewrite list_lookup_fmap, Hi.
Qed.

(** The loop of [updateConveyor] only takes tiles off: what is left is, in
    order, part of what there was. *)
Lemma updateConveyor_loop_order facts speed n :
  preserves (fun s => (tileFacts <$> conveyorTiles s) `sublist_of` facts)
    (updateConveyor_loop speed n).
Proof.
  induction n as [|i IH]; intros s Hs; simpl; [done|].
  wp_step. destruct (conveyorTiles s !! i) as [tile|] eqn:Hi; [|done].
  wp_steps.
  - eapply wp_mono;
      [apply (handleTileReachedEnd_parked
                (delete i (<[i := mkTile (tile_id tile) (tile_position tile + speed)%float
                                   (tile_colorIndex tile) (tile_column tile)]>
                             (conveyorTiles s)))); done | |];
      cbn beta.
    + intros _ s1 Hs1. apply IH. rewrite Hs1, delete_insert_same, list_fmap_delete.
      etrans; [apply sublist_delete | done].
    + intros s1 Hs1. rewrite Hs1, delete_insert_same, list_fmap_delete.
      etrans; [apply sublist_delete | done].
  - apply IH. simpl. by rewrite (tileFacts_insert _ i tile).
Qed.

Lemma updateSpawning_order s :
  wp updateSpawning
     (fun _ s' =>
        exists spawned,
          (length spawned <= 1)%nat /\
          Forall (fun tile => tile_id tile = nextTileId s) spawned /\
          conveyorTiles s' = conveyorTiles s ++ spawned)
     (fun _ => False) s.
Proof.
  unfold updateSpawning. wp_steps.
  - unfold spawnTile, rng_nextInt. wp_step.
    apply wp_bind. unfold wp at 1. cbn beta.
    destruct (SeededRNG_nextInt _ _ _) as [v r']. cbn iota beta.
    apply wp_bind. unfold wp at 1. cbn beta.
    destruct (SeededRNG_nextInt _ _ _) as [v' r'']. cbn iota beta.
    wp_steps. eexists [_]. simpl. split; [lia|]. split; [|done].
    by apply Forall_singleton.
  - exists []. simpl. split; [lia|]. split; [done | by rewrite app_nil_r].
Qed.

(** X27.  A tick never reorders the conveyor and never changes a tile but
    in its position: the tiles after [update()] are, in order and with the
    same id, colour and column, among the tiles before it followed by at
    most one new tile, whose id is the [nextTileId] of before. *)
Theorem update_keeps_the_conveyor_in_order s :
  exists spawned,
    (length spawned <= 1)%nat /\
    Forall (fun tile => tile_id tile = nextTileId s) spawned /\
    (tileFacts <$> conveyorTiles (exec update s))
      `sublist_of` (tileFacts <$> conveyorTiles s ++ spawned).
Proof.
  cut (wp update
         (fun _ s' =>
            exists spawned,
              (length spawned <= 1)%nat /\
              Forall (fun tile => tile_id tile = nextTileId s) spawned /\
              (tileFacts <$> conveyorTiles s')
                `sublist_of` (tileFacts <$> conveyorTiles s ++ spawned))
         (fun s' =>
            exists spawned,
              (length spawned <= 1)%nat /\
              Forall (fun tile => tile_id tile = nextTileId s) spawned /\
              (tileFacts <$> conveyorTiles s')
                `sublist_of` (tileFacts <$> conveyorTiles s ++ spawned))
         s).
  { intros Hwp. by apply wp_exec in Hwp. }
  unfold update. wp_step.
  destruct (_ || _).
  { wp_step. exists []. split; [simpl; lia|]. split; [done|]. by rewrite app_nil_r. }
  wp_steps.
  wp_call updateSpawning_order as s1 Hs1; [| done].
  destruct Hs1 as (spawned & Hlen & Hids & Htiles). simpl in Hids, Htiles.
  assert (Hstart : (tileFacts <$> conveyorTiles s1)
                     `sublist_of` (tileFacts <$> conveyorTiles s ++ spawned))
    by by rewrite Htiles.
  apply wp_bind. unfold updateConveyor. apply wp_bind, wp_get.
  eapply wp_mono; [by apply (updateConveyor_loop_order _ _ _ s1 Hstart) | |]; cbn beta.
  - intros _ s2 Hs2. unfold checkMatches, applyGravity, checkLevelUp.
    wp_steps; by exists spawned.
  - intros s2 Hs2. by exists spawned.
Qed.

(* ===================================================================== *)
(** ** The callers of the engine *)
(* ===================================================================== *)

Lemma App_update_halted s :
  running s = false -> App_update s = (Normal (snapshot s, events s), s).
Proof.
  intros Hrun. unfold App_update, bind. by rewrite update_halted.
Qed.

(** X28.  [App.update()], the fixed step of main.js.  While the engine is
    paused or over, a step leaves it as it is and hands the interface
    the snapshot and the event buffer once more: [n] steps hand over [n]
    copies of what the last running tick left in the buffer.  While the
    engine runs, what a step hands over does not depend on the events of
    earlier ticks. *)
Theorem App_update_hands_over s :
  (running s = false ->
     forall n, App_steps n s = (Normal (replicate n (snapshot s, events s)), s)) /\
  (running s = true ->
     forall old, App_update (set_events old s) = App_update s).
Proof.
  split; intros Hrun.
  - induction n as [|n IH]; [done|].
    simpl. unfold bind at 1. rewrite App_update_halted by done.
    unfold bind. by rewrite IH.
  - intros old. unfold App_update, bind. by rewrite update_forgets_events.
Qed.

Lemma App_update_hands_over_witness :
  App_steps 3 pausedAfterSpawn =
    (Normal (replicate 3 (snapshot pausedAfterSpawn, [TILE_SPAWN 0 2 4])),
     pausedAfterSpawn) /\
  App_update (set_events [CATCH 1] (idleGame 42 119)) = App_update (idleGame 42 119).
Proof.
  assert (Hoff : running pausedAfterSpawn = false) by (vm_compute; reflexivity).
  assert (Hon : running (idleGame 42 119) = true) by (vm_compute; reflexivity).
  assert (Hev : events pausedAfterSpawn = [TILE_SPAWN 0 2 4]) by (vm_compute; reflexivity).
  split.
  - destruct (App_update_hands_over pausedAfterSpawn) as [H _].
    rewrite <- Hev. exact (H Hoff 3%nat).
  - destruct (App_update_hands_over (idleGame 42 119)) as [_ H].
    exact (H Hon [CATCH 1]).
Defined.

Lemma moveLeft_halted s : running s = false -> moveLeft s = (Normal false, s).
Proof.
  intros Hrun. unfold running in Hrun. unfold moveLeft, bind, get. by rewrite Hrun.
Qed.

Lemma moveRight_halted s : running s = false -> moveRight s = (Normal false, s).
Proof.
  intros Hrun. unfold running in Hrun. unfold moveRight, bind, get. by rewrite Hrun.
Qed.

Lemma dropFromRack_halted s : running s = false -> dropFromRack s = (Normal false, s).
Proof.
  intros Hrun. unfold running in Hrun. unfold dropFromRack, bind, get. by rewrite Hrun.
Qed.

(** X29.  The [keydown] listener of input.js on an engine that is paused
    or over.  A held key ([e.repeat]) does nothing.  After game over only
    R (in either case) has an effect, the reset made by the [restart]
    callback of main.js; P does nothing.  While paused (and not over)
    only P has an effect, it resumes the game; R does not restart it,
    and the arrows, A, D, space and Enter do nothing. *)
Theorem keyboard_when_halted s repeat key :
  running s = false ->
  exec (keydown repeat key) s =
    if repeat then s
    else if gameOver s then
      if String.eqb (toLowerCase key) "r" then initial (rng s) else s
    else
      if String.eqb (toLowerCase key) "p" then set_paused false s else s.
Proof.
  intros Hrun. unfold keydown. destruct repeat; [done|].
  cbv zeta.
  destruct (String.eqb_spec (toLowerCase key) "arrowleft") as [->|_];
    [cbn [orb]; unfold exec, bind; rewrite moveLeft_halted by done; by destruct (gameOver s)|].
  destruct (String.eqb_spec (toLowerCase key) "a") as [->|_];
    [cbn [orb]; unfold exec, bind; rewrite moveLeft_halted by done; by destruct (gameOver s)|].
  destruct (String.eqb_spec (toLowerCase key) "arrowright") as [->|_];
    [cbn [orb]; unfold exec, bind; rewrite moveRight_halted by done; by destruct (gameOver s)|].
  destruct (String.eqb_spec (toLowerCase key) "d") as [->|_];
    [cbn [orb]; unfold exec, bind; rewrite moveRight_halted by done; by destruct (gameOver s)|].
  destruct (String.eqb_spec (toLowerCase key) " ") as [->|_];
    [cbn [orb]; unfold exec, bind; rewrite dropFromRack_halted by done; by destruct (gameOver s)|].
  destruct (String.eqb_spec (toLowerCase key) "enter") as [->|_];
    [cbn [orb]; unfold exec, bind; rewrite dropFromRack_halted by done; by destruct (gameOver s)|].
  cbn [orb].
  destruct (String.eqb_spec (toLowerCase key) "p") as [Hp|_].
  - rewrite Hp. cbn [String.eqb Ascii.eqb Bool.eqb].
    unfold exec, togglePause, trigger, get, modify, ret, bind. simpl.
    destruct (gameOver s) eqn:Hover; simpl; [done|].
    apply running_false in Hrun. rewrite Hover, orb_false_r in Hrun.
    by rewrite Hrun.
  - destruct (String.eqb_spec (toLowerCase key) "r") as [_|_].
    + unfold exec, trigger, onRestart, get, reset, modify, ret, bind. simpl.
      by destruct (gameOver s).
    + by destruct (gameOver s).
Qed.

Lemma keyboard_when_halted_witness :
  exec (keydown false "R") finishedGame = initial (rng finishedGame) /\
  exec (keydown false "P") finishedGame = finishedGame /\
  exec (keydown false "r") pausedAfterSpawn = pausedAfterSpawn /\
  exec (keydown false "ArrowLeft") pausedAfterSpawn = pausedAfterSpawn /\
  exec (keydown true "p") pausedAfterSpawn = pausedAfterSpawn.
Proof.
  assert (Hover : running finishedGame = false) by (vm_compute; reflexivity).
  assert (Hoff : running pausedAfterSpawn = false) by (vm_compute; reflexivity).
  split; [|split; [|split; [|split]]].
  - rewrite (keyboard_when_halted finishedGame false "R" Hover).
    vm_compute. reflexivity.
  - rewrite (keyboard_when_halted finishedGame false "P" Hover).
    vm_compute. reflexivity.
  - rewrite (keyboard_when_halted pausedAfterSpawn false "r" Hoff).
    vm_compute. reflexivity.
  - rewrite (keyboard_when_halted pausedAfterSpawn false "ArrowLeft" Hoff).
    vm_compute. reflexivity.
  - rewrite (keyboard_when_halted pausedAfterSpawn true "p" Hoff).
    reflexivity.
Defined.

(** X30.  [updateRackPreview] of ui.js on the rack of a reachable engine.
    When the page has no rack element the call builds nothing.  Otherwise
    it replaces the element's children, whatever they were, by exactly
    five slots: the rack's entries first, in rack order and in their
    palette colours, and empty slots after them. *)
Theorem rack_preview_has_five_slots s rackTiles :
  reachable s ->
  match updateRackPreview rackTiles (rack s) with
  | None => rackTiles = None
  | Some slots =>
      rackTiles <> None /\
      length slots = 5%nat /\
      forall i : nat, (i < 5)%nat ->
        slots !! i =
          Some (match rack s !! i with
                | Some colorIndex => filledSlot colorIndex
                | None => EmptySlot
                end)
  end.
Proof.
  intros Hs. pose proof (inv_rack_length s (reachable_Inv s Hs)) as Hlen.
  unfold JS.len, RACK_CAPACITY in Hlen. unfold updateRackPreview, JS.len.
  destruct rackTiles as [children|]; [|done].
  split; [done|]. split.
  - rewrite length_app, length_map, length_replicate. lia.
  - intros i Hi. destruct (rack s !! i) as [colorIndex|] eqn:Hentry.
    + rewrite lookup_app_l by (rewrite length_map; by eapply lookup_lt_Some).
      by rewrite list_lookup_fmap, Hentry.
    + apply lookup_ge_None in Hentry.
      rewrite lookup_app_r by (by rewrite length_map).
      apply lookup_replicate_2. rewrite length_map. lia.
Qed.

Lemma rack_preview_has_five_slots_witness :
  updateRackPreview None (rack rackWithPair) = None /\
  exists slots,
    updateRackPreview (Some [EmptySlot]) (rack rackWithPair) = Some slots /\
    length slots = 5%nat /\
    slots !! 1%nat = Some (filledSlot 1) /\
    slots !! 2%nat = Some EmptySlot.
Proof.
  assert (Hr : reachable rackWithPair) by (apply idleGame_reachable; reflexivity).
  assert (Hrack : rack rackWithPair = [1; 1]) by (vm_compute; reflexivity).
  pose proof (rack_preview_has_five_slots rackWithPair (Some [EmptySlot]) Hr) as Hsome.
  split; [reflexivity|].
  destruct (updateRackPreview (Some [EmptySlot]) (rack rackWithPair))
    as [slots|]; [|discriminate Hsome].
  exists slots. destruct Hsome as (_ & Hlen & Hslots).
  split; [reflexivity|]. split; [exact Hlen|].
  rewrite Hrack in Hslots. split.
  - rewrite (Hslots 1%nat) by lia. reflexivity.
  - rewrite (Hslots 2%nat) by lia. reflexivity.
Defined.

(* ===================================================================== *)
(** ** The generator stays on finite numbers *)
(* ===================================================================== *)

(** From a finite seed the generator never leaves the finite numbers, so
    [JS.floor] is applied to finite values only.  The binary64 operations
    are followed on their specification: each lemma bounds the size of a
    result by a power of two. *)

(** The number of binary digits of a whole number that is not negative. *)
Lemma Zdigits2_above m : 0 <= m -> m < 2 ^ Zdigits2 m.
Proof.
  intros Hm. destruct m as [|p|p]; [done| |lia].
  apply (digits2_pos_spec p).
Qed.

Lemma Zdigits2_nonneg m : 0 <= Zdigits2 m.
Proof. destruct m; simpl; lia. Qed.

Lemma Zdigits2_below m k : 0 <= m < 2 ^ k -> 0 <= k -> Zdigits2 m <= k.
Proof.
  intros [Hm Hk] Hk0. destruct m as [|p|p]; [done| |lia].
  simpl. pose proof (digits2_pos_spec p) as [Hlo _].
  destruct (Z.le_gt_cases (Z.pos (digits2_pos p)) k) as [|Hgt]; [done|].
  assert (2 ^ k <= 2 ^ (Z.pos (digits2_pos p) - 1)) by (apply Z.pow_le_mono_r; lia).
  lia.
Qed.

Lemma Zdigits2_div m n :
  0 <= m -> 0 <= n -> Zdigits2 (m / 2 ^ n) <= Z.max (Zdigits2 m - n) 0.
Proof.
  intros Hm Hn. pose proof (Zdigits2_above m Hm) as Hd.
  pose proof (Zdigits2_nonneg m) as Hd0.
  assert (Hpow : 0 < 2 ^ n) by (apply Z.pow_pos_nonneg; lia).
  destruct (Z.le_gt_cases n (Zdigits2 m)) as [Hle|Hgt].
  - rewrite Z.max_l by lia. apply Zdigits2_below; [|lia]. split.
    + apply Z.div_pos; lia.
    + apply Z.div_lt_upper_bound; [done|].
      rewrite <- Z.pow_add_r by lia. by replace (n + (Zdigits2 m - n)) with (Zdigits2 m) by lia.
  - rewrite Z.max_r by lia.
    assert (2 ^ Zdigits2 m <= 2 ^ n) by (apply Z.pow_le_mono_r; lia).
    by rewrite Z.div_small by lia.
Qed.

Lemma Zdigits2_succ m : 0 <= m -> Zdigits2 (m + 1) <= Zdigits2 m + 1.
Proof.
  intros Hm. pose proof (Zdigits2_above m Hm). pose proof (Zdigits2_nonneg m).
  apply Zdigits2_below; [|lia]. rewrite Z.pow_add_r by lia.
  change (2 ^ 1) with 2. lia.
Qed.

Lemma Zdigits2_le m m' : 0 <= m <= m' -> Zdigits2 m <= Zdigits2 m'.
Proof.
  intros [Hm Hle]. pose proof (Zdigits2_above m' ltac:(lia)).
  apply Zdigits2_below; [lia | apply Zdigits2_nonneg].
Qed.

Lemma Zdigits2_mul a b :
  0 <= a -> 0 <= b -> Zdigits2 (a * b) <= Zdigits2 a + Zdigits2 b.
Proof.
  intros Ha Hb. pose proof (Zdigits2_above a Ha). pose proof (Zdigits2_above b Hb).
  pose proof (Zdigits2_nonneg a). pose proof (Zdigits2_nonneg b).
  apply Zdigits2_below; [|lia]. rewrite Z.pow_add_r by done. split; [lia|].
  apply Z.mul_lt_mono_nonneg; lia.
Qed.

Lemma Zdigits2_shift m k : 0 <= m -> 0 <= k -> Zdigits2 (m * 2 ^ k) <= Zdigits2 m + k.
Proof.
  intros Hm Hk. pose proof (Zdigits2_above m Hm). pose proof (Zdigits2_nonneg m).
  assert (0 < 2 ^ k) by (apply Z.pow_pos_nonneg; lia).
  apply Zdigits2_below; [|lia]. rewrite Z.pow_add_r by done. split; [lia|].
  apply Z.mul_lt_mono_pos_r; lia.
Qed.

(** Shifting a mantissa to the right. *)
Lemma shr_1_m mrs : 0 <= shr_m mrs -> shr_m (shr_1 mrs) = shr_m mrs / 2.
Proof.
  destruct mrs as [m r s]. simpl. intros Hm. rewrite <- Z.div2_div.
  destruct m as [|[p|p|]|p]; done || lia.
Qed.

Lemma iter_pos_shr_m p mrs :
  0 <= shr_m mrs -> shr_m (SpecFloat.iter_pos shr_1 p mrs) = shr_m mrs / 2 ^ Z.pos p.
Proof.
  revert mrs. induction p as [p IH|p IH|]; intros mrs Hm; simpl SpecFloat.iter_pos.
  - assert (H1 : 0 <= shr_m (shr_1 mrs)).
    { rewrite shr_1_m by done. apply Z.div_pos; lia. }
    assert (H2 : 0 <= shr_m (SpecFloat.iter_pos shr_1 p (shr_1 mrs))).
    { rewrite IH by done. apply Z.div_pos; [done|]. apply Z.pow_pos_nonneg; lia. }
    rewrite IH, IH, shr_1_m by done.
    assert (0 < 2 ^ Z.pos p) by (apply Z.pow_pos_nonneg; lia).
    rewrite !Z.div_div by lia. f_equal.
    rewrite Pos2Z.inj_xI, Z.pow_add_r, Z.pow_mul_r by lia.
    change (2 ^ 2) with 4. change (2 ^ 1) with 2.
    replace (4 ^ Z.pos p) with (2 ^ Z.pos p * 2 ^ Z.pos p); [lia|].
    rewrite <- Z.pow_add_r by lia. replace (Z.pos p + Z.pos p) with (2 * Z.pos p) by lia.
    by rewrite Z.pow_mul_r by lia.
  - assert (H2 : 0 <= shr_m (SpecFloat.iter_pos shr_1 p mrs)).
    { rewrite IH by done. apply Z.div_pos; [done|]. apply Z.pow_pos_nonneg; lia. }
    rewrite IH, IH by done.
    assert (0 < 2 ^ Z.pos p) by (apply Z.pow_pos_nonneg; lia).
    rewrite !Z.div_div by lia. f_equal.
    rewrite Pos2Z.inj_xO. rewrite <- Z.pow_add_r by lia. f_equal. lia.
  - rewrite shr_1_m by done. reflexivity.
Qed.

Lemma shr_spec mrs e n :
  0 <= shr_m mrs ->
  shr_m (fst (shr mrs e n)) = shr_m mrs / 2 ^ Z.max n 0 /\
  snd (shr mrs e n) = e + Z.max n 0.
Proof.
  intros Hm. destruct n as [|p|p]; simpl.
  - by rewrite Z.div_1_r, Z.add_0_r.
  - rewrite iter_pos_shr_m by done. split; [done|]. f_equal.
  - by rewrite Z.div_1_r, Z.add_0_r.
Qed.

Lemma shr_record_of_loc_m m l : shr_m (shr_record_of_loc m l) = m.
Proof. by destruct l as [|[]]. Qed.

Lemma round_nearest_even_range m l :
  m <= round_nearest_even m l <= m + 1.
Proof.
  destruct l as [|[]]; simpl; try lia. destruct (Z.even m); lia.
Qed.

(** What [shr_fexp] gives: the mantissa is not negative, and mantissa and
    exponent stay below a bound [B] that is no less than the least
    exponent. *)
Lemma shr_fexp_small m e l B :
  0 <= m -> Zdigits2 m + e <= B -> e <= B -> -1074 <= B ->
  let '(mrs, e') := shr_fexp prec emax m e l in
  0 <= shr_m mrs /\ Zdigits2 (shr_m mrs) + e' <= B /\ e' <= B.
Proof.
  intros Hm Hmag He HB. unfold shr_fexp.
  pose proof (shr_spec (shr_record_of_loc m l) e
                (fexp prec emax (Zdigits2 m + e) - e)) as Hshr.
  rewrite shr_record_of_loc_m in Hshr. specialize (Hshr Hm).
  destruct (shr _ _ _) as [mrs e']. simpl in Hshr. destruct Hshr as [-> ->].
  set (n := Z.max (fexp prec emax (Zdigits2 m + e) - e) 0).
  assert (Hn : 0 <= n) by lia.
  assert (Hfexp : e + n <= B).
  { unfold n, fexp, emin, prec, emax. lia. }
  assert (0 < 2 ^ n) by (apply Z.pow_pos_nonneg; lia).
  split; [apply Z.div_pos; lia|]. split; [|done].
  pose proof (Zdigits2_div m n Hm Hn). lia.
Qed.

Lemma small_le B B' x : small B x -> B <= B' -> small B' x.
Proof. destruct x; simpl; try done. lia. Qed.

(** Rounding a number below [2 ^ B] does not overflow. *)
Lemma binary_round_aux_small s m e l B :
  0 <= m -> Zdigits2 m + e <= B -> e <= B -> -1074 <= B <= 970 ->
  small (B + 1) (binary_round_aux prec emax s m e l).
Proof.
  intros Hm Hmag He HB. unfold binary_round_aux.
  pose proof (shr_fexp_small m e l B Hm Hmag He ltac:(lia)) as H1.
  destruct (shr_fexp prec emax m e l) as [mrs1 e1].
  destruct H1 as (Hm1 & Hmag1 & He1).
  pose proof (round_nearest_even_range (shr_m mrs1) (loc_of_shr_record mrs1)) as Hrne.
  set (m2 := round_nearest_even (shr_m mrs1) (loc_of_shr_record mrs1)) in *.
  assert (Hmag2 : Zdigits2 m2 + e1 <= B + 1).
  { pose proof (Zdigits2_le m2 (shr_m mrs1 + 1) ltac:(lia)).
    pose proof (Zdigits2_succ (shr_m mrs1) Hm1). lia. }
  pose proof (shr_fexp_small m2 e1 loc_Exact (B + 1) ltac:(lia) Hmag2 ltac:(lia) ltac:(lia)) as H3.
  destruct (shr_fexp prec emax m2 e1 loc_Exact) as [mrs3 e3].
  destruct H3 as (Hm3 & Hmag3 & He3).
  destruct (shr_m mrs3) as [|m3|m3] eqn:Hm3'; [done| |lia].
  simpl in Hmag3. unfold prec, emax.
  destruct (Z.leb_spec e3 (1024 - 53)) as [|Hbig]; [done|]. lia.
Qed.

Lemma Zdigits2_abs z : Zdigits2 (Z.abs z) = Zdigits2 z.
Proof. by destruct z. Qed.

Lemma iter_xO p k : Z.pos (Pos.iter xO p k) = Z.pos p * 2 ^ Z.pos k.
Proof.
  rewrite <- Z.shiftl_mul_pow2 by lia. unfold Z.shiftl.
  by apply (Pos.iter_swap_gen _ _ Z.pos xO (Z.mul 2)).
Qed.

(** Aligning a mantissa to a smaller exponent keeps the number. *)
Lemma shl_align_spec m e e' :
  let '(m', e'') := shl_align m e e' in
  e'' = Z.min e e' /\ Z.pos m' = Z.pos m * 2 ^ (e - e'').
Proof.
  unfold shl_align. destruct (e' - e) as [|d|d] eqn:Hd.
  - split; [lia|]. by rewrite Z.sub_diag, Z.mul_1_r.
  - split; [lia|]. by rewrite Z.sub_diag, Z.mul_1_r.
  - split; [lia|]. rewrite iter_xO. f_equal. f_equal. lia.
Qed.

Lemma binary_round_small s p e B :
  Z.pos (digits2_pos p) + e <= B -> -1074 <= B <= 970 ->
  small (B + 1) (binary_round prec emax s p e).
Proof.
  intros Hmag HB. unfold binary_round.
  pose proof (shl_align_spec p e (fexp prec emax (Z.pos (digits2_pos p) + e))) as Hal.
  destruct (shl_align _ _ _) as [mz ez]. destruct Hal as [Hez Hmz].
  assert (Hle : ez <= e) by lia.
  pose proof (Zdigits2_shift (Z.pos p) (e - ez) ltac:(lia) ltac:(lia)) as Hd.
  rewrite <- Hmz in Hd. simpl Zdigits2 in Hd.
  apply binary_round_aux_small; simpl Zdigits2; lia.
Qed.

Lemma binary_normalize_small z e sz B :
  Zdigits2 z + e <= B -> -1074 <= B <= 970 ->
  small (B + 1) (binary_normalize prec emax z e sz).
Proof.
  intros Hmag HB. destruct z as [|p|p]; simpl; [done|..];
    by apply binary_round_small.
Qed.

Lemma SFmul_small A B x y :
  small A x -> small B y -> -1074 <= A + B <= 970 ->
  small (A + B + 1) (SFmul prec emax x y).
Proof.
  destruct x as [sx|sx| |sx mx ex], y as [sy|sy| |sy my ey]; simpl; try done.
  intros Hx Hy HAB.
  pose proof (Zdigits2_mul (Z.pos mx) (Z.pos my) ltac:(lia) ltac:(lia)) as Hd.
  simpl Zdigits2 in Hd.
  apply binary_round_aux_small; simpl Zdigits2; lia.
Qed.

Lemma SFadd_small A x y :
  small A x -> small A y -> -1074 <= A + 1 <= 970 ->
  small (A + 2) (SFadd prec emax x y).
Proof.
  destruct x as [sx|sx| |sx mx ex], y as [sy|sy| |sy my ey]; simpl; try done.
  - by destruct sx, sy.
  - intros. lia.
  - intros. lia.
  - intros Hx Hy HA.
    pose proof (shl_align_spec mx ex (Z.min ex ey)) as Hax.
    pose proof (shl_align_spec my ey (Z.min ex ey)) as Hay.
    destruct (shl_align mx ex _) as [ax ex'], (shl_align my ey _) as [ay ey'].
    destruct Hax as [Hex Hax], Hay as [Hey Hay]. simpl fst.
    set (ez := Z.min ex ey) in *.
    replace (A + 2) with (A + 1 + 1) by lia.
    apply binary_normalize_small; [|lia].
    pose proof (Zdigits2_shift (Z.pos mx) (ex - ex') ltac:(lia) ltac:(lia)) as Hdx.
    pose proof (Zdigits2_shift (Z.pos my) (ey - ey') ltac:(lia) ltac:(lia)) as Hdy.
    rewrite <- Hax in Hdx. rewrite <- Hay in Hdy. simpl Zdigits2 in Hdx, Hdy.
    pose proof (Zdigits2_above (Z.pos ax) ltac:(lia)) as Hbx.
    pose proof (Zdigits2_above (Z.pos ay) ltac:(lia)) as Hby.
    simpl Zdigits2 in Hbx, Hby.
    set (k := Z.max (Z.pos (digits2_pos ax)) (Z.pos (digits2_pos ay))).
    assert (Hkx : 2 ^ Z.pos (digits2_pos ax) <= 2 ^ k) by (apply Z.pow_le_mono_r; lia).
    assert (Hky : 2 ^ Z.pos (digits2_pos ay) <= 2 ^ k) by (apply Z.pow_le_mono_r; lia).
    set (z := cond_Zopp sx (Z.pos ax) + cond_Zopp sy (Z.pos ay)).
    assert (Hz : Z.abs z < 2 ^ (k + 1)).
    { rewrite Z.pow_add_r by lia. change (2 ^ 1) with 2.
      unfold z, cond_Zopp. destruct sx, sy; lia. }
    rewrite <- Zdigits2_abs.
    pose proof (Zdigits2_below (Z.abs z) (k + 1) ltac:(lia) ltac:(lia)). lia.
Qed.

Lemma SFdiv_small A x sy my ey :
  small A x ->
  -1074 <= A - (Z.pos (digits2_pos my) + ey) + 1 <= 970 ->
  small (A - (Z.pos (digits2_pos my) + ey) + 2)
    (SFdiv prec emax x (S754_finite sy my ey)).
Proof.
  destruct x as [sx|sx| |sx mx ex]; simpl; try done.
  intros Hx HC. unfold SFdiv_core_binary.
  set (d1 := Zdigits2 (Z.pos mx)). set (d2 := Zdigits2 (Z.pos my)).
  set (e' := Z.min (fexp prec emax (d1 + ex - (d2 + ey))) (ex - ey)).
  set (s := ex - ey - e').
  set (m' := match s with Z.pos _ => Z.shiftl (Z.pos mx) s | 0 => Z.pos mx | Z.neg _ => 0 end).
  assert (Hs : 0 <= s) by (unfold s, e'; lia).
  assert (Hm' : m' = Z.pos mx * 2 ^ s).
  { unfold m'. destruct s as [|p|p]; [lia | | lia].
    by rewrite Z.shiftl_mul_pow2 by lia. }
  pose proof (Z_div_mod m' (Z.pos my) ltac:(lia)) as Hdiv.
  destruct (Z.div_eucl m' (Z.pos my)) as [q r]. destruct Hdiv as [Hq Hr].
  assert (Hq0 : 0 <= q) by nia.
  pose proof (digits2_pos_spec my) as [Hlo _]. fold (Zdigits2 (Z.pos my)) in Hlo. fold d2 in Hlo.
  assert (Hd2 : 1 <= d2) by (unfold d2; simpl; lia).
  assert (Hpow : 0 < 2 ^ (d2 - 1)) by (apply Z.pow_pos_nonneg; lia).
  assert (Hqle : q <= m' / 2 ^ (d2 - 1)).
  { apply Z.div_le_lower_bound; [done|]. nia. }
  assert (Hm'0 : 0 <= m') by (rewrite Hm'; apply Z.mul_nonneg_nonneg; [lia|]; apply Z.pow_nonneg; lia).
  pose proof (Zdigits2_le q _ (conj Hq0 Hqle)) as H1.
  pose proof (Zdigits2_div m' (d2 - 1) Hm'0 ltac:(lia)) as H2.
  pose proof (Zdigits2_shift (Z.pos mx) s ltac:(lia) Hs) as H3.
  rewrite <- Hm' in H3. fold d1 in H3.
  simpl in Hx. fold (Zdigits2 (Z.pos mx)) in Hx. fold d1 in Hx.
  fold (Zdigits2 (Z.pos my)) in HC |- *. fold d2 in HC |- *.
  assert (He' : e' <= A - (d2 + ey) + 1).
  { unfold e', fexp, emin, prec, emax. lia. }
  replace (A - (d2 + ey) + 2) with (A - (d2 + ey) + 1 + 1) by lia.
  apply binary_round_aux_small; [done | | done | done].
  unfold s in *. lia.
Qed.

Lemma small_finite B x : small B x -> finiteSF x = true.
Proof. by destruct x. Qed.

Lemma is_finite_SF x : is_finite x = finiteSF (Prim2SF x).
Proof.
  unfold is_finite, is_nan, is_infinity.
  rewrite !FloatAxioms.eqb_spec, abs_spec.
  change (Prim2SF infinity) with (S754_infinity false).
  destruct (Prim2SF x) as [s|s| |s m e]; try done.
  - by destruct s.
  - unfold SFeqb, SFcompare. simpl SFabs.
    rewrite Z.compare_refl, Pos.compare_cont_refl. by destruct s.
Qed.

Lemma digits2_pos_shift p k q :
  Z.pos q = Z.pos p * 2 ^ k -> 0 <= k ->
  Z.pos (digits2_pos q) = Z.pos (digits2_pos p) + k.
Proof.
  intros Hq Hk. pose proof (digits2_pos_spec p) as [Hlo Hhi].
  assert (0 < 2 ^ k) by (apply Z.pow_pos_nonneg; lia).
  apply digits2_pos_unique. rewrite Hq.
  replace (Z.pos (digits2_pos p) + k - 1) with (Z.pos (digits2_pos p) - 1 + k) by lia.
  rewrite !Z.pow_add_r by lia.
  split; [apply Z.mul_le_mono_nonneg_r | apply Z.mul_lt_mono_pos_r]; lia.
Qed.

(** A mantissa in canonical form is left as it is by the rounding. *)
Lemma binary_round_aux_canonical s m e :
  canonical_mantissa prec emax m e = true -> e <= 971 ->
  binary_round_aux prec emax s (Z.pos m) e loc_Exact = S754_finite s m e.
Proof.
  intros Hcan%Z.eqb_eq He.
  unfold binary_round_aux, shr_fexp. simpl Zdigits2. rewrite Hcan, Z.sub_diag.
  simpl. rewrite Hcan, Z.sub_diag. simpl.
  unfold prec, emax. destruct (Z.leb_spec e (1024 - 53)); [done|lia].
Qed.

(** A number [p * 2 ^ e] with a mantissa of at most 53 digits and an
    exponent from the least one on is representable: rounding only aligns
    it. *)
Lemma binary_round_exact s p e :
  Z.pos (digits2_pos p) <= 53 -> -1074 <= e -> Z.pos (digits2_pos p) + e <= 1024 ->
  exists p' e',
    binary_round prec emax s p e = S754_finite s p' e' /\
    valid_binary (S754_finite s p' e') = true /\
    Z.pos (digits2_pos p') + e' = Z.pos (digits2_pos p) + e.
Proof.
  intros Hd He Hmag. unfold binary_round.
  pose proof (shl_align_spec p e (fexp prec emax (Z.pos (digits2_pos p) + e))) as Hal.
  destruct (shl_align _ _ _) as [mz ez]. destruct Hal as [Hez Hmz].
  assert (Hez' : ez = fexp prec emax (Z.pos (digits2_pos p) + e)).
  { rewrite Hez. unfold fexp, emin, prec, emax. lia. }
  assert (Hle : ez <= e) by lia.
  pose proof (digits2_pos_shift p (e - ez) mz Hmz ltac:(lia)) as Hdz.
  assert (Hcan : canonical_mantissa prec emax mz ez = true).
  { apply Z.eqb_eq. rewrite Hdz.
    replace (Z.pos (digits2_pos p) + (e - ez) + ez) with (Z.pos (digits2_pos p) + e) by lia.
    done. }
  assert (Hez2 : ez <= 971).
  { rewrite Hez'. unfold fexp, emin, prec, emax. lia. }
  exists mz, ez. split; [by apply binary_round_aux_canonical|]. split; [|lia].
  simpl. unfold bounded. rewrite Hcan. simpl. apply Z.leb_le. unfold prec, emax. lia.
Qed.

Lemma valid_finite s m e :
  valid_binary (S754_finite s m e) = true ->
  Z.pos (digits2_pos m) <= 53 /\ -1074 <= e <= 971.
Proof.
  simpl. unfold bounded, canonical_mantissa, fexp, emin, prec, emax.
  intros [Hcan%Z.eqb_eq Hle%Z.leb_le]%andb_true_iff. lia.
Qed.

(** The remainder by 233280 of a finite number is finite and smaller than
    [2 ^ 18]. *)
Lemma rem_small x :
  finiteSF (Prim2SF x) = true -> small 18 (Prim2SF (JS.rem x 233280)).
Proof.
  intros Hfin. unfold JS.rem.
  change (Prim2SF 233280) with (S754_finite false 8015439766487040 (-35)).
  pose proof (Prim2SF_valid x) as Hvalid.
  destruct (Prim2SF x) as [sx|sx| |sx mx ex] eqn:Hx; try done.
  { by rewrite Hx. }
  apply valid_finite in Hvalid as [Hdx Hex].
  set (e := Z.min ex (-35)).
  set (a := Z.pos mx * 2 ^ (ex - e)).
  set (b := 8015439766487040 * 2 ^ (-35 - e)).
  assert (Hpa : 0 < 2 ^ (ex - e)) by (apply Z.pow_pos_nonneg; lia).
  assert (Hpb : 0 < 2 ^ (-35 - e)) by (apply Z.pow_pos_nonneg; lia).
  assert (Ha : 0 < a) by (unfold a; lia).
  assert (Hb : 0 < b) by (unfold b; lia).
  pose proof (Z.rem_bound_pos a b ltac:(lia) Hb) as Hr.
  pose proof (Z.rem_le a b ltac:(lia) Hb) as Hra.
  change (Z.pos mx * 2 ^ (ex - e)) with a.
  change (8015439766487040 * 2 ^ (-35 - e)) with b.
  set (r := Z.rem a b) in *.
  pose proof (digits2_pos_spec mx) as [_ Hmx].
  assert (Hmx53 : Z.pos mx < 2 ^ 53).
  { assert (2 ^ Z.pos (digits2_pos mx) <= 2 ^ 53) by (apply Z.pow_le_mono_r; lia). lia. }
  assert (Hr53 : r < 2 ^ 53).
  { destruct (Z.le_gt_cases ex (-35)).
    - assert (a = Z.pos mx).
      { unfold a. replace (ex - e) with 0 by lia. lia. }
      lia.
    - assert (b = 8015439766487040).
      { unfold b. replace (-35 - e) with 0 by lia. lia. }
      assert (8015439766487040 < 2 ^ 53) by (by vm_compute). lia. }
  assert (Hr18 : r < 2 ^ (18 - e)).
  { replace (18 - e) with (53 + (-35 - e)) by lia. rewrite Z.pow_add_r by lia.
    assert (8015439766487040 < 2 ^ 53) by (by vm_compute). unfold b in Hr. nia. }
  assert (Hnorm : binary_normalize prec emax (if sx then - r else r) e sx
                  = binary_normalize prec emax r e sx \/ 0 < r).
  { destruct (Z.eq_dec r 0) as [->|]; [left; by destruct sx | right; lia]. }
  destruct r as [|p|p] eqn:Hrp; [| |lia].
  { assert (Hzero : binary_normalize prec emax (if sx then - 0 else 0) e sx = S754_zero sx)
      by (by destruct sx).
    rewrite Hzero, Prim2SF_SF2Prim; done. }
  assert (Hround : binary_normalize prec emax (if sx then - Z.pos p else Z.pos p) e sx
                   = binary_round prec emax sx p e) by (by destruct sx).
  rewrite Hround.
  pose proof (Zdigits2_below (Z.pos p) 53 ltac:(lia) ltac:(lia)) as Hd53.
  pose proof (Zdigits2_below (Z.pos p) (18 - e) ltac:(lia) ltac:(lia)) as Hd18.
  simpl Zdigits2 in Hd53, Hd18.
  destruct (binary_round_exact sx p e) as (p' & e' & -> & Hval & Hmag); [lia..|].
  rewrite Prim2SF_SF2Prim by done. simpl. lia.
Qed.

(** Whole numbers below [2 ^ 53] are finite binary64 values below
    [2 ^ 53]. *)
Lemma of_Z_small k : 0 <= k < 2 ^ 53 -> small 53 (Prim2SF (JS.of_Z k)).
Proof.
  intros Hk. destruct k as [|p|p]; [| |lia].
  - unfold JS.of_Z. simpl binary_normalize. by rewrite Prim2SF_SF2Prim.
  - pose proof (Zdigits2_below (Z.pos p) 53 ltac:(lia) ltac:(lia)) as Hd.
    simpl Zdigits2 in Hd.
    rewrite (of_Z_finite p Hd). simpl. rewrite aligned_digits by done. lia.
Qed.

(** One step of the generator on a finite seed: the next seed is finite
    again, and what [next()] returns is finite and below 4 in size, so
    what [nextInt] floors is finite. *)
Lemma SeededRNG_next_finite r :
  finiteSeed (seed r) = true ->
  finiteSeed (seed (snd (SeededRNG_next r))) = true /\
  small 2 (Prim2SF (fst (SeededRNG_next r))) /\
  forall k, 0 <= k < 2 ^ 53 ->
    is_finite (fst (SeededRNG_next r) * JS.of_Z k)%float = true.
Proof.
  unfold finiteSeed. rewrite is_finite_SF. intros Hfin.
  pose proof (rem_small _ Hfin) as Hrem.
  unfold SeededRNG_next. cbv zeta. simpl fst. simpl snd. simpl seed.
  set (seed' := JS.rem (seed r * 9301 + 49297)%float 233280%float) in *.
  assert (Hx : small 2 (Prim2SF (seed' / 233280)%float)).
  { rewrite FloatAxioms.div_spec.
    change (Prim2SF 233280) with (S754_finite false 8015439766487040 (-35)).
    apply (SFdiv_small 18 _ false 8015439766487040 (-35) Hrem). by vm_compute. }
  split; [|split; [done|]].
  - rewrite is_finite_SF, FloatAxioms.add_spec, FloatAxioms.mul_spec.
    change (Prim2SF 9301) with (S754_finite false 5113278824972288 (-39)).
    change (Prim2SF 49297) with (S754_finite false 6775328089309184 (-37)).
    apply (small_finite 35), (SFadd_small 33); [| by vm_compute | lia].
    apply (SFmul_small 18 14); [done | by vm_compute | lia].
  - intros k Hk. rewrite is_finite_SF, FloatAxioms.mul_spec.
    apply (small_finite 56), (SFmul_small 2 53); [done | by apply of_Z_small | lia].
Qed.

Ltac finite_frame Hs := unfold FiniteRNG in *; simpl in *; exact Hs.

Lemma loseLife_FiniteRNG reason : preserves FiniteRNG (loseLife reason).
Proof. intros s Hs. unfold loseLife. wp_steps; by finite_frame Hs. Qed.

Lemma checkLevelUp_FiniteRNG : preserves FiniteRNG checkLevelUp.
Proof. intros s Hs. unfold checkLevelUp. wp_steps; [by finite_frame Hs | done]. Qed.

Lemma checkRackMatches_rec_FiniteRNG fuel :
  preserves FiniteRNG (checkRackMatches_rec fuel).
Proof.
  induction fuel as [|fuel IH]; intros s Hs; simpl; [done|].
  wp_step. destruct (_ <? 3); [done|].
  destruct (firstRackRun _ _) as [[[start runLen] color]|]; [|done].
  wp_steps.
  wp_call checkLevelUp_FiniteRNG as s1 Hs1; [by finite_frame Hs | by apply IH | done].
Qed.

Lemma handleTileReachedEnd_FiniteRNG tile :
  preserves FiniteRNG (handleTileReachedEnd tile).
Proof.
  intros s Hs. unfold handleTileReachedEnd. wp_step.
  destruct (tile_column tile =? catcherColumn s).
  - destruct (JS.len (rack s) <? RACK_CAPACITY).
    + wp_steps. unfold checkRackMatches. wp_step.
      apply checkRackMatches_rec_FiniteRNG. by finite_frame Hs.
    + by apply loseLife_FiniteRNG.
  - unfold dropTileIntoWell. wp_steps; try done; try by finite_frame Hs.
    wp_call loseLife_FiniteRNG as s1 Hs1; [done | | done].
    wp_steps. by finite_frame Hs1.
Qed.

(** A draw leaves the generator on a finite seed. *)
Lemma rng_nextInt_FiniteRNG min max : preserves FiniteRNG (rng_nextInt min max).
Proof.
  intros s Hs. unfold wp, rng_nextInt, SeededRNG_nextInt.
  destruct (SeededRNG_next_finite (rng s) Hs) as [Hnext _].
  destruct (SeededRNG_next (rng s)) as [x r']. exact Hnext.
Qed.

Lemma updateSpawning_FiniteRNG : preserves FiniteRNG updateSpawning.
Proof.
  intros s Hs. unfold updateSpawning. wp_steps; [|by finite_frame Hs].
  unfold spawnTile. wp_step.
  wp_call rng_nextInt_FiniteRNG as s1 Hs1; [by finite_frame Hs | | done].
  wp_call rng_nextInt_FiniteRNG as s2 Hs2; [done | | done].
  wp_steps. by finite_frame Hs2.
Qed.

Lemma updateConveyor_loop_FiniteRNG speed n :
  preserves FiniteRNG (updateConveyor_loop speed n).
Proof.
  induction n as [|i IH]; intros s Hs; simpl; [done|].
  wp_step. destruct (conveyorTiles s !! i) as [tile|]; [|done].
  wp_steps.
  - wp_call handleTileReachedEnd_FiniteRNG as s1 Hs1; [by finite_frame Hs | | done].
    by apply IH.
  - apply IH. by finite_frame Hs.
Qed.

Lemma checkMatches_FiniteRNG : preserves FiniteRNG checkMatches.
Proof.
  intros s Hs. unfold checkMatches. wp_step.
  destruct (0 <? _); [|done].
  wp_steps. unfold applyGravity. wp_step.
  apply checkLevelUp_FiniteRNG. by finite_frame Hs.
Qed.

Lemma update_FiniteRNG : preserves FiniteRNG update.
Proof.
  intros s Hs. unfold update. wp_step. destruct (_ || _); [done|].
  wp_steps.
  wp_call updateSpawning_FiniteRNG as s1 Hs1; [by finite_frame Hs | | done].
  unfold updateConveyor. apply wp_bind. wp_step.
  wp_call updateConveyor_loop_FiniteRNG as s2 Hs2; [done | | done].
  by apply checkMatches_FiniteRNG.
Qed.

Lemma dropFromRack_FiniteRNG : preserves FiniteRNG dropFromRack.
Proof.
  intros s Hs. unfold dropFromRack. wp_step.
  destruct (_ && _); [|done]. destruct (rack s) as [|c rest]; [done|].
  wp_step. unfold dropTileIntoWell. apply wp_bind. wp_step.
  destruct (JS.index _ _) as [column|]; [|by wp_steps].
  destruct (firstEmptyRow _ _).
  - wp_steps. by finite_frame Hs.
  - wp_call loseLife_FiniteRNG as s1 Hs1; [by finite_frame Hs | | done].
    wp_steps. by finite_frame Hs1.
Qed.

Lemma perform_FiniteRNG c s : FiniteRNG s -> FiniteRNG (perform c s).
Proof.
  intros Hs. destruct c; simpl; apply preserves_exec; try done.
  - apply update_FiniteRNG.
  - intros s1 Hs1. unfold moveLeft. wp_steps; [by finite_frame Hs1 | done].
  - intros s1 Hs1. unfold moveRight. wp_steps; [by finite_frame Hs1 | done].
  - apply dropFromRack_FiniteRNG.
  - intros s1 Hs1. unfold togglePause. wp_steps; [by finite_frame Hs1 | done].
  - intros s1 Hs1. unfold reset. wp_steps. by finite_frame Hs1.
Qed.

Lemma reachable_FiniteRNG s : reachable s -> FiniteRNG s.
Proof.
  induction 1 as [seed Hseed | c s _ IH]; [exact Hseed | by apply perform_FiniteRNG].
Qed.

(** In every reachable state the generator stands on a finite seed, what
    the next [nextInt] floors is finite for every range of fewer than
    [2 ^ 53] values, and the seed it leaves is finite again: [JS.floor] is
    never applied to NaN or an infinity.  (The lemmas above keep the
    invariant at every step inside a call as well, so this holds of the
    second draw of [spawnTile] too.) *)
Lemma reachable_draws_finite s :
  reachable s ->
  finiteSeed (seed (rng s)) = true /\
  (forall k, 0 <= k < 2 ^ 53 ->
     is_finite (fst (SeededRNG_next (rng s)) * JS.of_Z k)%float = true) /\
  finiteSeed (seed (snd (SeededRNG_next (rng s)))) = true.
Proof.
  intros Hs%reachable_FiniteRNG.
  destruct (SeededRNG_next_finite (rng s) Hs) as (Hnext & _ & Hdraw). done.
Qed.
